(** * A red-black tree template library (rb_tree.c): model and verification

    The C library keeps its nodes in malloc'ed blocks linked by [left],
    [right] and [parent] pointers, and every operation mutates those blocks
    in place.  The embedding below keeps that shape: the live node blocks
    form a finite map from addresses to node records, pointers are optional
    addresses ([None] is the null pointer), and every C function becomes a
    computation in a small state-and-error monad over the manager.  A null
    or dangling dereference is undefined behaviour in C; here it is the
    outcome [Fault].  Loops carry a step budget; when the budget is spent
    the outcome is [Timeout]. *)

From stdpp Require Import gmap list sorting.
From Stdlib Require Import ZArith Lia.

Open Scope Z_scope.

(** ** Outcomes of a computation *)

Inductive outcome (A : Type) : Type :=
| Done (a : A)
| Fault
| Timeout.
Arguments Done {A} a.
Arguments Fault {A}.
Arguments Timeout {A}.

(** ** Data model (rb_tree.c, lines 40-80) *)

Abbreviation ptr := (option positive).

Definition RB_TREE_NULL_PTR : ptr := None.

Inductive RB_COLOR : Type := RB_RED | RB_BLACK | RB_ERR.

#[global] Instance RB_COLOR_eq_dec : EqDecision RB_COLOR.
Proof. solve_decision. Defined.

Definition NO_ERROR : Z := 0.
Definition RBTREE_ERRNO_OUT_OF_MEM : Z := 1.
Definition RBTREE_ERRNO_DUP_VAL : Z := 2.
Definition RBTREE_ERRNO_ARG_ERR : Z := 3.
Definition RBTREE_ERRNO_NODE_INEXIT : Z := 4.

Section Model.

(** The index (key) type.  The C code copies [index_typde_size] bytes; the
    comparator is the only code that looks inside them. *)
Context {K : Type}.

Record rbTreeNode_t : Type := mkNode {
  index : K;
  resource : ptr;
  right : ptr;
  left : ptr;
  parent : ptr;
  color : RB_COLOR
}.

(** The manager, together with the memory it owns.  [nodes] holds the live
    node blocks by address; [rbTree_buffer] is the swap buffer, recorded by
    its capacity in bytes; [rbTree_FreeRuleHandle] tells whether a cleanup
    callback was supplied, and [released] lists the resources that callback
    has been called with, oldest first. *)
Record rbTreeManager_t : Type := mkManager {
  root : ptr;
  index_typde_size : N;
  rbTree_MatchRuleHandle : K → K → Z;
  rbTree_FreeRuleHandle : bool;
  rbTree_buffer : N;
  errorCode : Z;
  nodes : gmap positive rbTreeNode_t;
  released : list ptr
}.

(** ** The monad *)

Definition M (A : Type) : Type := rbTreeManager_t → outcome (A * rbTreeManager_t).

Definition ret {A} (a : A) : M A := λ m, Done (a, m).

Definition bind {A B} (c : M A) (k : A → M B) : M B :=
  λ m, match c m with
       | Done (a, m') => k a m'
       | Fault => Fault
       | Timeout => Timeout
       end.

Definition fault {A} : M A := λ _, Fault.
Definition timeout {A} : M A := λ _, Timeout.

Notation "x <~ c ; k" := (bind c (λ x, k))
  (at level 20, c at level 100, k at level 200, only parsing).
Notation "c ;;; k" := (bind c (λ _, k))
  (at level 100, k at level 200, right associativity, only parsing).

(** Reading the manager. *)
Definition gets {A} (f : rbTreeManager_t → A) : M A := λ m, Done (f m, m).

(** [p->f]: dereference a node pointer and read a field. *)
Definition get {A} (f : rbTreeNode_t → A) (p : ptr) : M A :=
  λ m, match p with
       | None => Fault
       | Some a => match nodes m !! a with
                   | Some n => Done (f n, m)
                   | None => Fault
                   end
       end.

(** [p->f = ...]: dereference a node pointer and rewrite the block. *)
Definition modify (g : rbTreeNode_t → rbTreeNode_t) (p : ptr) : M unit :=
  λ m, match p with
       | None => Fault
       | Some a =>
           match nodes m !! a with
           | Some n =>
               Done (tt, mkManager (root m) (index_typde_size m)
                           (rbTree_MatchRuleHandle m) (rbTree_FreeRuleHandle m)
                           (rbTree_buffer m) (errorCode m)
                           (<[a := g n]> (nodes m)) (released m))
           | None => Fault
           end
       end.

Definition set_index (p : ptr) (k : K) : M unit :=
  modify (λ n, mkNode k (resource n) (right n) (left n) (parent n) (color n)) p.
Definition set_resource (p : ptr) (v : ptr) : M unit :=
  modify (λ n, mkNode (index n) v (right n) (left n) (parent n) (color n)) p.
Definition set_right (p : ptr) (q : ptr) : M unit :=
  modify (λ n, mkNode (index n) (resource n) q (left n) (parent n) (color n)) p.
Definition set_left (p : ptr) (q : ptr) : M unit :=
  modify (λ n, mkNode (index n) (resource n) (right n) q (parent n) (color n)) p.
Definition set_parent (p : ptr) (q : ptr) : M unit :=
  modify (λ n, mkNode (index n) (resource n) (right n) (left n) q (color n)) p.
Definition set_color (p : ptr) (c : RB_COLOR) : M unit :=
  modify (λ n, mkNode (index n) (resource n) (right n) (left n) (parent n) c) p.

Definition set_root (q : ptr) : M unit :=
  λ m, Done (tt, mkManager q (index_typde_size m) (rbTree_MatchRuleHandle m)
                   (rbTree_FreeRuleHandle m) (rbTree_buffer m) (errorCode m)
                   (nodes m) (released m)).

Definition set_errorCode (e : Z) : M unit :=
  λ m, Done (tt, mkManager (root m) (index_typde_size m) (rbTree_MatchRuleHandle m)
                   (rbTree_FreeRuleHandle m) (rbTree_buffer m) e
                   (nodes m) (released m)).

(** The callback [rbTree_FreeRuleHandle(resource)]: the call is recorded. *)
Definition call_FreeRuleHandle (v : ptr) : M unit :=
  λ m, Done (tt, mkManager (root m) (index_typde_size m) (rbTree_MatchRuleHandle m)
                   (rbTree_FreeRuleHandle m) (rbTree_buffer m) (errorCode m)
                   (nodes m) (released m ++ [v])).

(** [free(p)] of a node block. *)
Definition free (p : ptr) : M unit :=
  λ m, match p with
       | None => Done (tt, m)
       | Some a =>
           match nodes m !! a with
           | Some _ =>
               Done (tt, mkManager (root m) (index_typde_size m)
                           (rbTree_MatchRuleHandle m) (rbTree_FreeRuleHandle m)
                           (rbTree_buffer m) (errorCode m)
                           (delete a (nodes m)) (released m))
           | None => Fault
           end
       end.

(** [malloc] of a node block.  The allocator's answer is an input of the
    model: [None] when memory is exhausted, otherwise an address that is
    not live.  The block is filled by the caller. *)
Definition place (a : positive) (n : rbTreeNode_t) : M unit :=
  λ m, Done (tt, mkManager (root m) (index_typde_size m) (rbTree_MatchRuleHandle m)
                   (rbTree_FreeRuleHandle m) (rbTree_buffer m) (errorCode m)
                   (<[a := n]> (nodes m)) (released m)).

(** Every walk of the code follows [left], [right] or [parent] links; on a
    tree without cycles it visits each live node at most once, so the number
    of live nodes bounds its length. *)
Definition walk_bound : M nat := λ m, Done (S (size (nodes m)), m).

(** The C idiom [p && p->color == RB_RED]. *)
Definition is_red (p : ptr) : M bool :=
  match p with
  | None => ret false
  | Some _ => c <~ get color p ; ret (bool_decide (c = RB_RED))
  end.

(** ** Private functions *)

(** rb_tree.c, line 116. *)
Definition rbTreePrivate_GetNodeColor (rbTreeNode : ptr) : M RB_COLOR :=
  match rbTreeNode with
  | None => ret RB_BLACK
  | Some _ => get color rbTreeNode
  end.

(** rb_tree.c, line 129.  [block] is what [malloc] returned. *)
Definition rbTreePrivate_CreateNewNode (key : K) (res : ptr) (block : ptr) : M ptr :=
  match block with
  | None => set_errorCode (- RBTREE_ERRNO_OUT_OF_MEM) ;;; ret None
  | Some a =>
      place a (mkNode key res RB_TREE_NULL_PTR RB_TREE_NULL_PTR RB_TREE_NULL_PTR RB_RED) ;;;
      ret (Some a)
  end.

(** rb_tree.c, line 166. *)
Definition rbTreePrivate_FreeNodeMem (rbTreeNode : ptr) : M unit :=
  h <~ gets rbTree_FreeRuleHandle ;
  (if h then v <~ get resource rbTreeNode ; call_FreeRuleHandle v else ret tt) ;;;
  free rbTreeNode.

(** rb_tree.c, line 184: the descent of a search. *)
Fixpoint Search_loop (fuel : nat) (key : K) (probe : ptr) : M ptr :=
  match fuel with
  | O => timeout
  | S fuel =>
      match probe with
      | None => ret RB_TREE_NULL_PTR
      | Some _ =>
          cmp <~ gets rbTree_MatchRuleHandle ;
          pk <~ get index probe ;
          let match_ret := cmp key pk in
          if decide (match_ret = 0) then ret probe
          else if decide (match_ret > 0) then
            l <~ get left probe ; Search_loop fuel key l
          else
            r <~ get right probe ; Search_loop fuel key r
      end
  end.

Definition rbTreePrivate_Search (key : K) : M ptr :=
  fuel <~ walk_bound ;
  probe <~ gets root ;
  Search_loop fuel key probe.

(** rb_tree.c, line 215.  The three [memcpy] calls move [index_typde_size]
    bytes through the swap buffer; a buffer shorter than that is overrun. *)
Definition rbTreePrivate_ExchangeTwoNode (rbTreeNode1 rbTreeNode2 : ptr) : M unit :=
  match rbTreeNode1, rbTreeNode2 with
  | Some _, Some _ =>
      width <~ gets index_typde_size ;
      room <~ gets rbTree_buffer ;
      if decide (width ≤ room)%N then
        k1 <~ get index rbTreeNode1 ;
        k2 <~ get index rbTreeNode2 ;
        set_index rbTreeNode1 k2 ;;;
        set_index rbTreeNode2 k1 ;;;
        temp <~ get resource rbTreeNode1 ;
        v2 <~ get resource rbTreeNode2 ;
        set_resource rbTreeNode1 v2 ;;;
        set_resource rbTreeNode2 temp
      else fault
  | _, _ => ret tt
  end.

(** rb_tree.c, line 244. *)
Definition rbTreePrivate_LeftRotate (target_node : ptr) : M unit :=
  new_node <~ get right target_node ;
  nl <~ get left new_node ;
  set_right target_node nl ;;;
  (match nl with
   | Some _ => set_parent nl target_node
   | None => ret tt
   end) ;;;
  tp <~ get parent target_node ;
  set_parent new_node tp ;;;
  (match tp with
   | None => set_root new_node
   | Some _ =>
       tpl <~ get left tp ;
       if decide (target_node = tpl) then set_left tp new_node
       else set_right tp new_node
   end) ;;;
  set_parent target_node new_node ;;;
  set_left new_node target_node.

(** rb_tree.c, line 282. *)
Definition rbTreePrivate_RightRotate (target_node : ptr) : M unit :=
  new_node <~ get left target_node ;
  nr <~ get right new_node ;
  set_left target_node nr ;;;
  (match nr with
   | Some _ => set_parent nr target_node
   | None => ret tt
   end) ;;;
  tp <~ get parent target_node ;
  set_parent new_node tp ;;;
  (match tp with
   | None => set_root new_node
   | Some _ =>
       tpr <~ get right tp ;
       if decide (target_node = tpr) then set_right tp new_node
       else set_left tp new_node
   end) ;;;
  set_right new_node target_node ;;;
  set_parent target_node new_node.

(** rb_tree.c, line 313: the [while] loop of the insert fix-up. *)
Fixpoint InsertAdjust_loop (fuel : nat) (new_node : ptr) : M unit :=
  match fuel with
  | O => timeout
  | S fuel =>
      p <~ get parent new_node ;
      red <~ is_red p ;
      if red then
        g <~ get parent p ;
        gl <~ get left g ;
        if decide (p = gl) then
          uncle <~ get right g ;
          ured <~ is_red uncle ;
          if ured then
            set_color p RB_BLACK ;;;
            set_color uncle RB_BLACK ;;;
            set_color g RB_RED ;;;
            InsertAdjust_loop fuel g
          else
            pr <~ get right p ;
            new_node <~ (if decide (new_node = pr)
                         then rbTreePrivate_LeftRotate p ;;; ret p
                         else ret new_node) ;
            p <~ get parent new_node ;
            set_color p RB_BLACK ;;;
            g <~ get parent p ;
            set_color g RB_RED ;;;
            rbTreePrivate_RightRotate g ;;;
            InsertAdjust_loop fuel new_node
        else
          uncle <~ get left g ;
          ured <~ is_red uncle ;
          if ured then
            set_color p RB_BLACK ;;;
            set_color uncle RB_BLACK ;;;
            set_color g RB_RED ;;;
            InsertAdjust_loop fuel g
          else
            pl <~ get left p ;
            new_node <~ (if decide (new_node = pl)
                         then rbTreePrivate_RightRotate p ;;; ret p
                         else ret new_node) ;
            p <~ get parent new_node ;
            set_color p RB_BLACK ;;;
            g <~ get parent p ;
            set_color g RB_RED ;;;
            rbTreePrivate_LeftRotate g ;;;
            InsertAdjust_loop fuel new_node
      else ret tt
  end.

Definition rbTreePrivate_InsertAdjust (new_node : ptr) : M unit :=
  fuel <~ walk_bound ;
  InsertAdjust_loop fuel new_node ;;;
  r <~ gets root ;
  set_color r RB_BLACK.

(** rb_tree.c, line 420. *)
Definition rbTreePrivate_DelRedNodeAndAdjust (del_node : ptr) : M unit :=
  p <~ get parent del_node ;
  pl <~ get left p ;
  (if decide (del_node = pl) then set_left p RB_TREE_NULL_PTR
   else set_right p RB_TREE_NULL_PTR) ;;;
  rbTreePrivate_FreeNodeMem del_node.

(** rb_tree.c, lines 468-579: the code from the label READJUST_FLAG on. *)
Fixpoint DelBlack_readjust (fuel : nat) (uncle : ptr) : M unit :=
  match fuel with
  | O => timeout
  | S fuel =>
      uc <~ get color uncle ;
      if decide (uc = RB_RED) then
        up <~ get parent uncle ;
        set_color up RB_RED ;;;
        set_color uncle RB_BLACK ;;;
        target <~ get parent uncle ;
        tl <~ get left target ;
        if decide (tl = uncle) then
          rbTreePrivate_RightRotate target ;;;
          rbTreePrivate_RightRotate target
        else
          rbTreePrivate_LeftRotate target ;;;
          rbTreePrivate_LeftRotate target
      else
        let ascend : M unit :=
          up <~ get parent uncle ;
          upc <~ get color up ;
          if decide (upc = RB_BLACK) then
            set_color uncle RB_RED ;;;
            upp <~ get parent up ;
            match upp with
            | Some _ =>
                uppl <~ get left upp ;
                if decide (up = uppl) then
                  u' <~ get right upp ; DelBlack_readjust fuel u'
                else
                  u' <~ get left upp ; DelBlack_readjust fuel u'
            | None => ret tt
            end
          else
            set_color uncle RB_RED ;;;
            set_color up RB_BLACK
        in
        up <~ get parent uncle ;
        upl <~ get left up ;
        if decide (upl = uncle) then
          ul <~ get left uncle ;
          lred <~ is_red ul ;
          if lred then
            set_color ul RB_BLACK ;;;
            upc <~ get color up ;
            set_color uncle upc ;;;
            set_color up RB_BLACK ;;;
            rbTreePrivate_RightRotate up
          else
            ur <~ get right uncle ;
            rred <~ is_red ur ;
            if rred then
              rbTreePrivate_LeftRotate uncle ;;;
              up <~ get parent uncle ;
              upp <~ get parent up ;
              uppc <~ get color upp ;
              set_color up uppc ;;;
              set_color upp RB_BLACK ;;;
              rbTreePrivate_RightRotate up
            else ascend
        else
          ur <~ get right uncle ;
          rred <~ is_red ur ;
          if rred then
            set_color ur RB_BLACK ;;;
            upc <~ get color up ;
            set_color uncle upc ;;;
            set_color up RB_BLACK ;;;
            rbTreePrivate_LeftRotate up
          else
            ul <~ get left uncle ;
            lred <~ is_red ul ;
            if lred then
              rbTreePrivate_RightRotate uncle ;;;
              up <~ get parent uncle ;
              upp <~ get parent up ;
              uppc <~ get color upp ;
              set_color up uppc ;;;
              set_color upp RB_BLACK ;;;
              rbTreePrivate_LeftRotate up
            else ascend
  end.

(** rb_tree.c, line 440. *)
Definition rbTreePrivate_DelBlackNodeAndAdjust (target : ptr) : M unit :=
  fuel <~ walk_bound ;
  p <~ get parent target ;
  pl <~ get left p ;
  uncle <~ (if decide (target = pl)
            then u <~ get right p ; set_left p RB_TREE_NULL_PTR ;;; ret u
            else u <~ get left p ; set_right p RB_TREE_NULL_PTR ;;; ret u) ;
  rbTreePrivate_FreeNodeMem target ;;;
  match uncle with
  | None => ret tt
  | Some _ => DelBlack_readjust fuel uncle
  end.

(** rb_tree.c, line 394. *)
Definition rbTreePrivate_DelNoneChildNodeAndAdjust (del_node : ptr) : M unit :=
  p <~ get parent del_node ;
  match p with
  | None =>
      rbTreePrivate_FreeNodeMem del_node ;;;
      set_root RB_TREE_NULL_PTR
  | Some _ =>
      c <~ get color del_node ;
      if decide (c = RB_BLACK) then rbTreePrivate_DelBlackNodeAndAdjust del_node
      else rbTreePrivate_DelRedNodeAndAdjust del_node
  end.

(** ** Public functions *)

(** rb_tree.c, line 598.  [sizeof_unsigned] is [sizeof(unsigned int)] on the
    platform; [handle] tells whether the out-parameter is non-null;
    [manager_block] and [buffer_block] tell whether the two [malloc] calls
    succeed.  The result is the return code and the manager stored through
    the out-parameter. *)
Definition rbTree_Create (sizeof_unsigned : N) (handle : bool) (type_size : N)
    (match_rule : option (K → K → Z)) (free_rule : bool)
    (manager_block buffer_block : bool) : Z * option rbTreeManager_t :=
  match match_rule with
  | Some cmp =>
      if negb handle || bool_decide (type_size = 0%N) then (- RBTREE_ERRNO_ARG_ERR, None)
      else if negb manager_block then (- RBTREE_ERRNO_OUT_OF_MEM, None)
      else if negb buffer_block then (- RBTREE_ERRNO_OUT_OF_MEM, None)
      else (NO_ERROR,
            Some (mkManager RB_TREE_NULL_PTR type_size cmp free_rule
                    sizeof_unsigned NO_ERROR ∅ []))
  | None => (- RBTREE_ERRNO_ARG_ERR, None)
  end.

(** rb_tree.c, line 625.  The caller holds a variable with the manager
    pointer; [slot] is that variable ([None] when the function is given a
    null pointer to it), the manager itself stays where it is in memory.
    The result is the new content of the variable and the memory that is
    still allocated. *)
Definition rbTree_Free (slot : option (option rbTreeManager_t))
    : option ptr * option rbTreeManager_t :=
  match slot with
  | None => (None, None)
  | Some held => (Some RB_TREE_NULL_PTR, held)
  end.

(** rb_tree.c, line 644: the descent that finds the insertion point.  The
    result is [inl] of the error code on a duplicate, [inr slow] otherwise. *)
Fixpoint AddNode_descend (fuel : nat) (key : K) (slow fast : ptr) : M (Z + ptr) :=
  match fuel with
  | O => timeout
  | S fuel =>
      match fast with
      | None => ret (inr slow)
      | Some _ =>
          cmp <~ gets rbTree_MatchRuleHandle ;
          fk <~ get index fast ;
          let match_ret := cmp fk key in
          if decide (match_ret = 0) then
            set_errorCode (- RBTREE_ERRNO_DUP_VAL) ;;;
            ret (inl (- RBTREE_ERRNO_DUP_VAL))
          else if decide (match_ret < 0) then
            l <~ get left fast ; AddNode_descend fuel key fast l
          else
            r <~ get right fast ; AddNode_descend fuel key fast r
      end
  end.

(** rb_tree.c, line 632, for a non-null manager. *)
Definition AddNode_body (key : option K) (res : ptr) (block : ptr) : M Z :=
  match key with
  | None =>
      set_errorCode (- RBTREE_ERRNO_ARG_ERR) ;;;
      ret (- RBTREE_ERRNO_ARG_ERR)
  | Some key =>
      fuel <~ walk_bound ;
      fast <~ gets root ;
      d <~ AddNode_descend fuel key RB_TREE_NULL_PTR fast ;
      match d with
      | inl e => ret e
      | inr slow =>
          new_node <~ rbTreePrivate_CreateNewNode key res block ;
          match new_node with
          | None => ret (- RBTREE_ERRNO_OUT_OF_MEM)
          | Some _ =>
              set_parent new_node slow ;;;
              (match slow with
               | None => set_root new_node
               | Some _ =>
                   cmp <~ gets rbTree_MatchRuleHandle ;
                   sk <~ get index slow ;
                   nk <~ get index new_node ;
                   let match_ret := cmp sk nk in
                   if decide (match_ret > 0) then set_right slow new_node
                   else set_left slow new_node
               end) ;;;
              rbTreePrivate_InsertAdjust new_node ;;;
              ret NO_ERROR
          end
      end
  end.

Definition rbTree_AddNode (rbTreeManager : option rbTreeManager_t)
    (key : option K) (res : ptr) (block : ptr) : outcome (Z * option rbTreeManager_t) :=
  match rbTreeManager with
  | None => Done (- RBTREE_ERRNO_ARG_ERR, None)
  | Some m =>
      match AddNode_body key res block m with
      | Done (e, m') => Done (e, Some m')
      | Fault => Fault
      | Timeout => Timeout
      end
  end.

(** rb_tree.c, line 709: the left-most node of a subtree. *)
Fixpoint leftmost (fuel : nat) (min_right_tree : ptr) : M ptr :=
  match fuel with
  | O => timeout
  | S fuel =>
      l <~ get left min_right_tree ;
      match l with
      | None => ret min_right_tree
      | Some _ => leftmost fuel l
      end
  end.

(** rb_tree.c, lines 718-735 and 737-754: a node with one child is replaced
    by that child. *)
Definition splice (target child : ptr) : M unit :=
  tp <~ get parent target ;
  set_parent child tp ;;;
  set_color child RB_BLACK ;;;
  (match tp with
   | None => set_root child
   | Some _ =>
       tpl <~ get left tp ;
       if decide (target = tpl) then set_left tp child
       else
         tpr <~ get right tp ;
         if decide (target = tpr) then set_right tp child
         else ret tt
   end) ;;;
  rbTreePrivate_FreeNodeMem target.

(** rb_tree.c, line 686, for a non-null manager. *)
Definition DelNode_body (key : option K) : M unit :=
  match key with
  | None => set_errorCode (- RBTREE_ERRNO_ARG_ERR)
  | Some key =>
      target <~ rbTreePrivate_Search key ;
      match target with
      | None => set_errorCode (- RBTREE_ERRNO_NODE_INEXIT)
      | Some _ =>
          tl <~ get left target ;
          tr <~ get right target ;
          target <~ (match tl, tr with
                     | Some _, Some _ =>
                         fuel <~ walk_bound ;
                         min_right_tree <~ leftmost fuel tr ;
                         rbTreePrivate_ExchangeTwoNode target min_right_tree ;;;
                         ret min_right_tree
                     | _, _ => ret target
                     end) ;
          tl <~ get left target ;
          match tl with
          | Some _ => splice target tl
          | None =>
              tr <~ get right target ;
              match tr with
              | Some _ => splice target tr
              | None => rbTreePrivate_DelNoneChildNodeAndAdjust target
              end
          end
      end
  end.

Definition rbTree_DelNode (rbTreeManager : option rbTreeManager_t)
    (key : option K) : outcome (option rbTreeManager_t) :=
  match rbTreeManager with
  | None => Done None
  | Some m =>
      match DelNode_body key m with
      | Done (_, m') => Done (Some m')
      | Fault => Fault
      | Timeout => Timeout
      end
  end.

(** rb_tree.c, line 762, for a non-null manager. *)
Definition Search_body (key : option K) : M ptr :=
  match key with
  | None =>
      set_errorCode (- RBTREE_ERRNO_ARG_ERR) ;;;
      ret RB_TREE_NULL_PTR
  | Some key =>
      probe <~ rbTreePrivate_Search key ;
      match probe with
      | Some _ => get resource probe
      | None => ret RB_TREE_NULL_PTR
      end
  end.

Definition rbTree_Search (rbTreeManager : option rbTreeManager_t)
    (key : option K) : outcome (ptr * option rbTreeManager_t) :=
  match rbTreeManager with
  | None => Done (RB_TREE_NULL_PTR, None)
  | Some m =>
      match Search_body key m with
      | Done (v, m') => Done (v, Some m')
      | Fault => Fault
      | Timeout => Timeout
      end
  end.

(** rb_tree.c, line 805. *)
Definition rbTree_IsErrorOccurred (m : rbTreeManager_t) : Z :=
  if decide (errorCode m ≠ NO_ERROR) then errorCode m else NO_ERROR.

End Model.

Arguments rbTreeNode_t K : clear implicits.
Arguments rbTreeManager_t K : clear implicits.
Arguments M K A : clear implicits.

(** ** The tree a memory holds

    For stating properties the linked blocks are read back as a binary tree
    that remembers, for every node, its address, colour, key and resource. *)

Section Shape.

Context {K : Type}.

Inductive tree : Type :=
| Leaf
| Node (l : tree) (a : positive) (c : RB_COLOR) (k : K) (v : ptr) (r : tree).

Definition rootp (t : tree) : ptr :=
  match t with
  | Leaf => None
  | Node _ a _ _ _ _ => Some a
  end.

(** [reify fuel h par p] follows the links from [p], checking that every
    node names [par] (resp. its real parent) as its parent. *)
Fixpoint reify (fuel : nat) (h : gmap positive (rbTreeNode_t K)) (par p : ptr)
    : option tree :=
  match fuel with
  | O => None
  | S fuel =>
      match p with
      | None => Some Leaf
      | Some a =>
          match h !! a with
          | None => None
          | Some n =>
              if decide (parent n = par) then
                match reify fuel h (Some a) (left n), reify fuel h (Some a) (right n) with
                | Some l, Some r => Some (Node l a (color n) (index n) (resource n) r)
                | _, _ => None
                end
              else None
          end
      end
  end.

Definition tree_of (m : rbTreeManager_t K) : option tree :=
  reify (S (size (nodes m))) (nodes m) None (root m).

Fixpoint addrs (t : tree) : list positive :=
  match t with
  | Leaf => []
  | Node l a _ _ _ r => addrs l ++ a :: addrs r
  end.

(** In-order traversal: left subtree, node, right subtree. *)
Fixpoint inorder (t : tree) : list (K * ptr) :=
  match t with
  | Leaf => []
  | Node l _ _ k v r => inorder l ++ (k, v) :: inorder r
  end.

Definition keys (t : tree) : list K := (inorder t).*1.

Fixpoint height (t : tree) : nat :=
  match t with
  | Leaf => O
  | Node l _ _ _ _ r => S (Nat.max (height l) (height r))
  end.

(** *** The red-black conditions *)

Definition tcolor (t : tree) : RB_COLOR :=
  match t with
  | Leaf => RB_BLACK
  | Node _ _ c _ _ _ => c
  end.

Definition root_black (t : tree) : bool := bool_decide (tcolor t = RB_BLACK).

(** Every node carries one of the two colours ([RB_ERR] is the third member
    of the enumeration). *)
Fixpoint red_or_black (t : tree) : bool :=
  match t with
  | Leaf => true
  | Node l _ c _ _ r => bool_decide (c ≠ RB_ERR) && red_or_black l && red_or_black r
  end.

Fixpoint no_red_red (t : tree) : bool :=
  match t with
  | Leaf => true
  | Node l _ c _ _ r =>
      (if decide (c = RB_RED)
       then bool_decide (tcolor l ≠ RB_RED) && bool_decide (tcolor r ≠ RB_RED)
       else true)
      && no_red_red l && no_red_red r
  end.

(** The number of black nodes on every path to a nil position, when all
    paths agree. *)
Fixpoint black_height (t : tree) : option nat :=
  match t with
  | Leaf => Some O
  | Node l _ c _ _ r =>
      match black_height l, black_height r with
      | Some hl, Some hr =>
          if decide (hl = hr)
          then Some (if decide (c = RB_BLACK) then S hl else hl)
          else None
      | _, _ => None
      end
  end.

Definition black_balanced (t : tree) : bool :=
  match black_height t with Some _ => true | None => false end.

(** Consecutive keys of a list, compared by [cmp]. *)
Fixpoint chain (rel : K → K → bool) (l : list K) : bool :=
  match l with
  | [] => true
  | x :: l' =>
      match l' with
      | [] => true
      | y :: _ => rel x y && chain rel l'
      end
  end.

Definition increasing (cmp : K → K → Z) (t : tree) : bool :=
  chain (λ x y, bool_decide (cmp x y < 0)) (keys t).

Definition decreasing (cmp : K → K → Z) (t : tree) : bool :=
  chain (λ x y, bool_decide (cmp x y > 0)) (keys t).

End Shape.

Arguments tree K : clear implicits.

(** ** Linking memory and trees *)

Section Representation.

Context {K : Type}.
Implicit Types (t l r s u : tree K) (h : gmap positive (rbTreeNode_t K))
  (m : rbTreeManager_t K).

(** [Repr h par t]: in memory [h] the blocks of [t] are linked as [t] says,
    the root of [t] naming [par] as its parent. *)
Fixpoint Repr h (par : ptr) t : Prop :=
  match t with
  | Leaf => True
  | Node l a c k v r =>
      h !! a = Some (mkNode k v (rootp r) (rootp l) par c)
      ∧ Repr h (Some a) l ∧ Repr h (Some a) r
  end.

(** The manager holds the tree [t]: the root pointer and all links agree
    with [t], and no address occurs twice. *)
Definition WF m t : Prop :=
  root m = rootp t ∧ Repr (nodes m) None t ∧ NoDup (addrs t).

(** A tree with a hole: the path from the hole up to the root.  [FrL] is a
    node whose left subtree is the hole, [FrR] one whose right subtree is. *)
Inductive frame : Type :=
| FrL (a : positive) (c : RB_COLOR) (k : K) (v : ptr) (r : tree K)
| FrR (l : tree K) (a : positive) (c : RB_COLOR) (k : K) (v : ptr).

Definition fill (F : frame) s : tree K :=
  match F with
  | FrL a c k v r => Node s a c k v r
  | FrR l a c k v => Node l a c k v s
  end.

Fixpoint plug (C : list frame) s : tree K :=
  match C with
  | [] => s
  | F :: C' => plug C' (fill F s)
  end.

Definition faddr (F : frame) : positive :=
  match F with FrL a _ _ _ _ => a | FrR _ a _ _ _ => a end.

Definition fcolor (F : frame) : RB_COLOR :=
  match F with FrL _ c _ _ _ => c | FrR _ _ c _ _ => c end.

(** The parent of the hole. *)
Definition cpar (C : list frame) : ptr :=
  match C with [] => None | F :: _ => Some (faddr F) end.

Definition faddrs (F : frame) : list positive :=
  match F with FrL a _ _ _ r => a :: addrs r | FrR l a _ _ _ => a :: addrs l end.

Fixpoint caddrs (C : list frame) : list positive :=
  match C with [] => [] | F :: C' => faddrs F ++ caddrs C' end.

(** The in-order entries before and after the hole. *)
Fixpoint ileft (C : list frame) : list (K * ptr) :=
  match C with
  | [] => []
  | FrL _ _ _ _ _ :: C' => ileft C'
  | FrR l _ _ k v :: C' => ileft C' ++ inorder l ++ [(k, v)]
  end.

Fixpoint iright (C : list frame) : list (K * ptr) :=
  match C with
  | [] => []
  | FrL _ _ k v r :: C' => (k, v) :: inorder r ++ iright C'
  | FrR _ _ _ _ _ :: C' => iright C'
  end.

(** The manager with another root pointer and node memory. *)
Definition retree m (q : ptr) h : rbTreeManager_t K :=
  mkManager q (index_typde_size m) (rbTree_MatchRuleHandle m) (rbTree_FreeRuleHandle m)
    (rbTree_buffer m) (errorCode m) h (released m).

(** [m'] differs from [m] in the tree only. *)
Definition same_env m m' : Prop := m' = retree m (root m') (nodes m').

(** The manager after the cleanup of a node holding resource [v]. *)
Definition relog m (v : ptr) : rbTreeManager_t K :=
  mkManager (root m) (index_typde_size m) (rbTree_MatchRuleHandle m)
    (rbTree_FreeRuleHandle m) (rbTree_buffer m) (errorCode m) (nodes m)
    (if rbTree_FreeRuleHandle m then released m ++ [v] else released m).

(** The path a search for [key] takes, as the code decides it
    ([rbTreePrivate_Search]): the node found and the path to it. *)
Fixpoint locate (cmp : K → K → Z) (key : K) (C : list frame) t
    : option (list frame * tree K) :=
  match t with
  | Leaf => None
  | Node l a c k v r =>
      if decide (cmp key k = 0) then Some (C, t)
      else if decide (cmp key k > 0) then locate cmp key (FrL a c k v r :: C) l
      else locate cmp key (FrR l a c k v :: C) r
  end.

(** The path the descent of an insertion takes ([rbTree_AddNode]): [None]
    on a duplicate, otherwise the path to the nil position reached. *)
Fixpoint insert_path (cmp : K → K → Z) (key : K) (C : list frame) t
    : option (list frame) :=
  match t with
  | Leaf => Some C
  | Node l a c k v r =>
      if decide (cmp k key = 0) then None
      else if decide (cmp k key < 0) then insert_path cmp key (FrL a c k v r :: C) l
      else insert_path cmp key (FrR l a c k v :: C) r
  end.

(** The order the tree keeps: along the in-order traversal every entry
    compares greater than all later ones. *)
Definition Ordered (cmp : K → K → Z) (L : list (K * ptr)) : Prop :=
  StronglySorted (λ a b, cmp a.1 b.1 > 0) L.

(** The comparator contract: antisymmetric up to sign, and transitive. *)
Definition cmp_antisym (cmp : K → K → Z) : Prop :=
  ∀ a b, Z.sgn (cmp b a) = - Z.sgn (cmp a b).

Definition cmp_trans (cmp : K → K → Z) : Prop :=
  ∀ a b c, cmp a b ≤ 0 → cmp b c ≤ 0 → cmp a c ≤ 0.

(** What the descent of an insertion of [key] has seen at a node it left
    to the left ([FrL]) or to the right ([FrR]). *)
Definition went (cmp : K → K → Z) (key : K) (F : frame) : Prop :=
  match F with
  | FrL _ _ k _ _ => cmp k key < 0
  | FrR _ _ _ k _ => cmp k key ≠ 0 ∧ ¬ cmp k key < 0
  end.

(** The walk to the left-most node of a subtree (rb_tree.c, line 709): the
    path from that node up to the root of the subtree, and the node. *)
Fixpoint spine t : list frame * tree K :=
  match t with
  | Leaf => ([], Leaf)
  | Node l a c k v r =>
      match l with
      | Leaf => ([], t)
      | Node _ _ _ _ _ _ => let '(Cm, s) := spine l in (Cm ++ [FrL a c k v r], s)
      end
  end.

(** Two address lists without a common element. *)
Definition apart (l k : list positive) : Prop := ∀ x, x ∈ l → x ∉ k.

(** The root of a context is black (or the context is empty): the
    condition under which the insert fix-up finds a grandparent above every
    red parent. *)
Definition black_top (C : list frame) : Prop :=
  match last C with
  | None => True
  | Some F => fcolor F = RB_BLACK
  end.

(** The manager with another diagnostic code. *)
Definition with_errorCode m (e : Z) : rbTreeManager_t K :=
  mkManager (root m) (index_typde_size m) (rbTree_MatchRuleHandle m)
    (rbTree_FreeRuleHandle m) (rbTree_buffer m) e (nodes m) (released m).

(** The node a search ends in, and the resource it returns. *)
Definition found_ptr (o : option (list frame * tree K)) : ptr :=
  match o with Some (_, s) => rootp s | None => None end.

Definition found_resource (o : option (list frame * tree K)) : ptr :=
  match o with Some (_, Node _ _ _ _ v _) => v | _ => None end.

(** The subtree a frame holds beside its hole. *)
Definition fsib (F : frame) : tree K :=
  match F with
  | FrL _ _ _ _ r => r
  | FrR l _ _ _ _ => l
  end.

(** [s] is a red-black subtree with [n] black nodes on every path down. *)
Definition rb s (n : nat) : Prop :=
  red_or_black s = true ∧ no_red_red s = true ∧ black_height s = Some n.

(** The three colour conditions on a whole tree. *)
Definition red_black t : Prop :=
  red_or_black t = true ∧ no_red_red t = true ∧ black_balanced t = true.

(** The nodes on the path [C] and the subtrees beside it meet the colour
    conditions, for a hole with [n] black nodes on every path down; the
    colour of the node in the hole is left open. *)
Fixpoint rb_path (C : list frame) (n : nat) : Prop :=
  match C with
  | [] => True
  | F :: C' =>
      rb (fsib F) n ∧
      match fcolor F with
      | RB_BLACK => rb_path C' (S n)
      | RB_RED =>
          tcolor (fsib F) ≠ RB_RED
          ∧ match C' with [] => True | G :: _ => fcolor G ≠ RB_RED end
          ∧ rb_path C' n
      | RB_ERR => False
      end
  end.

(** The node in the hole and its parent are not both red. *)
Definition hole_ok (C : list frame) u : Prop :=
  tcolor u ≠ RB_RED ∨ match C with [] => True | F :: _ => fcolor F ≠ RB_RED end.

(** The state of the insert fix-up loop: the current node is red, and the
    only colour condition that may fail is the one between it and its
    parent. *)
Definition ins_inv (C : list frame) s (n : nat) : Prop :=
  rb_path C n ∧ rb s n ∧ tcolor s = RB_RED.

(** What the insert fix-up loop, started at the root of [s] below the path
    [C], ends in. *)
Definition InsertAdjust_post m (C : list frame) s
    (o : outcome (unit * rbTreeManager_t K)) : Prop :=
  match o with
  | Done (_, m') =>
      ∃ t', WF m' t' ∧ inorder t' = inorder (plug C s) ∧ same_env m m'
            ∧ (∀ n, ins_inv C s n → ∃ n', rb t' n')
  | Fault => ¬ black_top C
  | Timeout => False
  end.

(** What the delete fix-up, started on the tree [t], ends in. *)
Definition Readjust_post m t (o : outcome (unit * rbTreeManager_t K)) : Prop :=
  match o with
  | Done (_, m') =>
      ∃ t', WF m' t' ∧ inorder t' = inorder t ∧ same_env m m'
            ∧ (tcolor t = RB_BLACK → tcolor t' = RB_BLACK)
  | Fault => True
  | Timeout => False
  end.

(** What a deletion on the tree [t] ends in: [L] is the in-order sequence
    left, [v] the resource of the node removed. *)
Definition Delete_post m t (L : list (K * ptr)) (v : ptr)
    (o : outcome (unit * rbTreeManager_t K)) : Prop :=
  match o with
  | Done (_, m') =>
      ∃ t', WF m' t' ∧ inorder t' = L ∧ same_env (relog m v) m'
            ∧ (tcolor t = RB_BLACK → tcolor t' = RB_BLACK)
  | Fault => True
  | Timeout => False
  end.

(** The managers the public functions can produce: [rbTree_Create], then
    calls of [rbTree_AddNode] and [rbTree_DelNode] that return.  The block
    [malloc] hands to an insertion is not the address of a live node. *)
Inductive reachable (cmp : K → K → Z) : rbTreeManager_t K → Prop :=
| reach_create sizeof_unsigned type_size free_rule m :
    rbTree_Create sizeof_unsigned true type_size (Some cmp) free_rule true true
      = (NO_ERROR, Some m) →
    reachable cmp m
| reach_add m key res block e m' :
    reachable cmp m →
    (∀ a, block = Some a → nodes m !! a = None) →
    rbTree_AddNode (Some m) key res block = Done (e, Some m') →
    reachable cmp m'
| reach_del m key m' :
    reachable cmp m →
    rbTree_DelNode (Some m) key = Done (Some m') →
    reachable cmp m'.

End Representation.

(** ** A concrete tree of integers

    Keys are integers compared by subtraction, the comparator of the
    specification's contract: negative when the first key is the smaller
    one.  Keys and [unsigned int] take four bytes. *)

Section Scenario.

Definition compare_int (a b : Z) : Z := a - b.

(** The comparator with the opposite sign. *)
Definition compare_int_flipped (a b : Z) : Z := b - a.

Definition created (cmp : Z → Z → Z) : option (rbTreeManager_t Z) :=
  (rbTree_Create 4 true 4 (Some cmp) true true true).2.

(** Insert the keys in turn; the node of the [i]-th insertion is placed at
    address [i], and the resource stored with key [k] is the pointer
    [100 * k]. *)
Fixpoint insert_all (ks : list Z) (next : positive) (m : option (rbTreeManager_t Z))
    : outcome (option (rbTreeManager_t Z)) :=
  match ks with
  | [] => Done m
  | k :: ks =>
      match rbTree_AddNode m (Some k) (Some (Z.to_pos (100 * k))) (Some next) with
      | Done (_, m') => insert_all ks (Pos.succ next) m'
      | Fault => Fault
      | Timeout => Timeout
      end
  end.

Fixpoint delete_all (ks : list Z) (m : option (rbTreeManager_t Z))
    : outcome (option (rbTreeManager_t Z)) :=
  match ks with
  | [] => Done m
  | k :: ks =>
      match rbTree_DelNode m (Some k) with
      | Done m' => delete_all ks m'
      | Fault => Fault
      | Timeout => Timeout
      end
  end.

Definition run_from (m0 : option (rbTreeManager_t Z)) (ins del : list Z)
    : outcome (option (rbTreeManager_t Z)) :=
  match insert_all ins 1%positive m0 with
  | Done m => delete_all del m
  | Fault => Fault
  | Timeout => Timeout
  end.

Definition run (cmp : Z → Z → Z) (ins del : list Z) : outcome (option (rbTreeManager_t Z)) :=
  run_from (created cmp) ins del.

(** A tree of 8-byte keys, on a platform whose [unsigned int] has 4 bytes. *)
Definition created_wide (cmp : Z → Z → Z) : Z * option (rbTreeManager_t Z) :=
  rbTree_Create 4 true 8 (Some cmp) true true true.

(** The resources handed to the cleanup callback so far, in call order. *)
Definition cleaned (o : outcome (option (rbTreeManager_t Z))) : option (list ptr) :=
  match o with
  | Done (Some m) => Some (released m)
  | _ => None
  end.

(** The addresses still allocated at the end of a run. *)
Definition allocated (o : outcome (option (rbTreeManager_t Z))) : option (list positive) :=
  match o with
  | Done (Some m) => Some (map fst (map_to_list (nodes m)))
  | _ => None
  end.

(** The tree a run ends with. *)
Definition final_tree (o : outcome (option (rbTreeManager_t Z))) : option (tree Z) :=
  match o with
  | Done (Some m) => tree_of m
  | _ => None
  end.

Definition search_in (o : outcome (option (rbTreeManager_t Z))) (k : Z) : option ptr :=
  match o with
  | Done (Some m) =>
      match rbTree_Search (Some m) (Some k) with
      | Done (v, _) => Some v
      | _ => None
      end
  | _ => None
  end.

(** The keys at the left child, the root and the right child. *)
Definition family (t : tree Z) : option (option Z * Z * option Z) :=
  match t with
  | Leaf => None
  | Node l _ _ k _ r =>
      Some (match l with Leaf => None | Node _ _ _ kl _ _ => Some kl end, k,
            match r with Leaf => None | Node _ _ _ kr _ _ => Some kr end)
  end.

(** The manager holding 10, 20 and 30, inserted in that order. *)
Definition three_keys : rbTreeManager_t Z :=
  match run compare_int [10; 20; 30] [] with
  | Done (Some m) => m
  | _ => mkManager None 4 compare_int true 4 0 ∅ []
  end.

(** The same manager after the insertion of 40, its node placed at
    address 4. *)
Definition four_keys : rbTreeManager_t Z :=
  match rbTree_AddNode (Some three_keys) (Some 40) (Some 4000%positive) (Some 4%positive) with
  | Done (_, Some m) => m
  | _ => three_keys
  end.

(** The manager holding 10, 20 and 30 after the deletion of 20. *)
Definition two_keys : rbTreeManager_t Z :=
  match rbTree_DelNode (Some three_keys) (Some 20) with
  | Done (Some m) => m
  | _ => three_keys
  end.

(** The diagnostic code a run ends with. *)
Definition last_error (o : outcome (option (rbTreeManager_t Z))) : option Z :=
  match o with
  | Done (Some m) => Some (errorCode m)
  | _ => None
  end.

(** The tree left by the insertions 1, 2, 4, 3 and the deletion of 1. *)
Definition lopsided_tree : tree Z :=
  Node (Node Leaf 3 RB_BLACK 4 (Some 400%positive)
          (Node Leaf 4 RB_BLACK 3 (Some 300%positive) Leaf))
    2 RB_BLACK 2 (Some 200%positive) Leaf.

(** The tree left by the insertions 1, 2, 4, 5, 6, 3 and the deletion of 1. *)
Definition red_pair_tree : tree Z :=
  Node (Node Leaf 5 RB_BLACK 6 (Some 600%positive) Leaf) 4 RB_BLACK 5 (Some 500%positive)
    (Node Leaf 3 RB_BLACK 4 (Some 400%positive)
       (Node (Node Leaf 6 RB_RED 3 (Some 300%positive) Leaf) 2 RB_RED 2
          (Some 200%positive) Leaf)).

Definition two_keys_tree : tree Z :=
  Node (Node Leaf 3 RB_RED 30 (Some 3000%positive) Leaf) 2 RB_BLACK 10
    (Some 1000%positive) Leaf.

Definition three_keys_tree : tree Z :=
  Node (Node Leaf 3 RB_RED 30 (Some 3000%positive) Leaf) 2 RB_BLACK 20
    (Some 2000%positive) (Node Leaf 1 RB_RED 10 (Some 1000%positive) Leaf).

End Scenario.

From Stdlib Require Strings.String.

(** ** Node blocks, insert-only histories *)

Section Accounting.

Context {K : Type}.

(** The addresses of the live node blocks. *)
Definition blocks (m : rbTreeManager_t K) : gset positive := dom (nodes m).

(** A computation that, when it returns, has neither allocated nor freed a
    node block. *)
Definition keeps_blocks {A} (c : M K A) : Prop :=
  ∀ m a m', c m = Done (a, m') → blocks m' = blocks m.

(** A computation that, when it returns, has freed exactly one node block
    and allocated none. *)
Definition frees_block {A} (c : M K A) : Prop :=
  ∀ m a m', c m = Done (a, m') → ∃ x, x ∈ blocks m ∧ blocks m' = blocks m ∖ {[x]}.

(** The managers that [rbTree_Create] and calls of [rbTree_AddNode] alone
    produce. *)
Inductive grown (cmp : K → K → Z) : rbTreeManager_t K → Prop :=
| grown_create sizeof_unsigned type_size free_rule m :
    rbTree_Create sizeof_unsigned true type_size (Some cmp) free_rule true true
      = (NO_ERROR, Some m) →
    grown cmp m
| grown_add m key res block e m' :
    grown cmp m →
    (∀ a, block = Some a → nodes m !! a = None) →
    rbTree_AddNode (Some m) key res block = Done (e, Some m') →
    grown cmp m'.

(** The state in which the delete fix-up looks at the node [u] below the
    path [C]: [u] has at least one black node on every path, and when its
    parent is black the path above the parent meets the colour conditions
    for a subtree with two more. *)
Definition del_inv (C : list (@frame K)) (u : tree K) : Prop :=
  match C with
  | [] => False
  | F :: C' => ∃ n, rb u (S n) ∧ (fcolor F = RB_BLACK → rb_path C' (S (S n)))
  end.

(** The number of nodes of a tree. *)
Fixpoint count (t : tree K) : nat :=
  match t with
  | Leaf => O
  | Node l _ _ _ _ r => S (count l + count r)
  end.

End Accounting.

(** ** Diagnostics and the test functions (rb_tree.c, lines 775-946) *)

Section Diagnostics.

Context {K : Type}.

Import String.StringSyntax.
#[local] Open Scope string_scope.

#[local] Notation "x <~ c ; k" := (bind c (λ x, k))
  (at level 20, c at level 100, k at level 200, only parsing).


(** rb_tree.c, line 828: the recursive walk of the test function [print].
    [printf] is given the [int] read through the resource pointer of each
    node; the result lists the addresses read, in the order of the calls.
    A null resource pointer is dereferenced like any other. *)
Fixpoint func (fuel : nat) (root : ptr) : M K (list positive) :=
  match fuel with
  | O => timeout
  | S fuel =>
      match root with
      | None => ret []
      | Some _ =>
          l <~ get left root ;
          before <~ func fuel l ;
          v <~ get resource root ;
          match v with
          | None => fault
          | Some a =>
              r <~ get right root ;
              after <~ func fuel r ;
              ret (before ++ a :: after)
          end
      end
  end.

(** rb_tree.c, line 835.  The recursion of [func] is as deep as the tree is
    high, which the number of live nodes bounds. *)
Definition print (m : rbTreeManager_t K) : outcome (list positive * rbTreeManager_t K) :=
  (fuel <~ walk_bound ; r <~ gets root ; func fuel r) m.

End Diagnostics.

(** ** The state of a run of the scenario *)

Section RunState.

(** The resource the scenario stores with key [k]. *)
Definition resource_of (k : Z) : ptr := Some (Z.to_pos (100 * k)).

(** The manager holds exactly the keys in [live], each with its resource,
    in a well-formed, ordered tree with a black root that uses all the live
    blocks; a cleanup callback is set. *)
Definition holds (cmp : Z → Z → Z) (m : rbTreeManager_t Z) (live : Z → Prop) : Prop :=
  rbTree_MatchRuleHandle m = cmp ∧ rbTree_FreeRuleHandle m = true ∧
  ∃ t, WF m t ∧ blocks m = list_to_set (addrs t) ∧ tcolor t = RB_BLACK
       ∧ Ordered cmp (inorder t)
       ∧ ∀ e, e ∈ inorder t ↔ live e.1 ∧ e.2 = resource_of e.1.

End RunState.

#[local] Set Warnings "-level-tolerance,-clear-no-such-hyp".

(** * Verification *)

(** ** Distinct addresses *)

Lemma NoDup_app_apart (l k : list positive) :
  NoDup (l ++ k) ↔ NoDup l ∧ apart l k ∧ NoDup k.
Proof. apply NoDup_app. Qed.

Lemma apart_nil_l k : apart [] k ↔ True.
Proof. unfold apart. split; [done|]. intros _ x H. by apply elem_of_nil in H. Qed.

Lemma apart_nil_r l : apart l [] ↔ True.
Proof. unfold apart. split; [done|]. intros _ x _ H. by apply elem_of_nil in H. Qed.

Lemma apart_cons_l a l k : apart (a :: l) k ↔ a ∉ k ∧ apart l k.
Proof.
  unfold apart. split.
  - intros H. split; [apply H; left|]. intros x Hx. apply H. by right.
  - intros [H1 H2] x Hx. apply elem_of_cons in Hx as [->|Hx]; auto.
Qed.

Lemma apart_cons_r a l k : apart l (a :: k) ↔ a ∉ l ∧ apart l k.
Proof.
  unfold apart. split.
  - intros H. split.
    + intros Ha. apply (H _ Ha). left.
    + intros x Hx Hk. apply (H _ Hx). by right.
  - intros [H1 H2] x Hx Hk. apply elem_of_cons in Hk as [->|Hk]; [done|]. by apply (H2 x).
Qed.

Lemma apart_app_l l1 l2 k : apart (l1 ++ l2) k ↔ apart l1 k ∧ apart l2 k.
Proof.
  unfold apart. split.
  - intros H. split; intros x Hx; apply H; apply elem_of_app; auto.
  - intros [H1 H2] x Hx. apply elem_of_app in Hx as [Hx|Hx]; auto.
Qed.

Lemma apart_app_r l k1 k2 : apart l (k1 ++ k2) ↔ apart l k1 ∧ apart l k2.
Proof.
  unfold apart. split.
  - intros H. split; intros x Hx Hk; apply (H _ Hx); apply elem_of_app; auto.
  - intros [H1 H2] x Hx Hk.
    apply elem_of_app in Hk as [Hk|Hk]; [by apply (H1 x)|by apply (H2 x)].
Qed.

(** Split a [NoDup] hypothesis on the addresses of a tree into facts about
    single addresses and subtrees. *)
Ltac nodup_norm H :=
  cbn [addrs fill] in H;
  repeat first
    [ rewrite NoDup_app_apart in H | rewrite NoDup_cons in H
    | rewrite apart_app_l in H | rewrite apart_app_r in H
    | rewrite apart_cons_l in H | rewrite apart_cons_r in H
    | rewrite apart_nil_l in H | rewrite apart_nil_r in H
    | rewrite not_elem_of_app in H | rewrite not_elem_of_cons in H ];
  destruct_and? H.

Ltac neq := first [ assumption | apply not_eq_sym; assumption | congruence ].

Ltac nodup_goal :=
  cbn [addrs fill plug];
  repeat first
    [ rewrite NoDup_app_apart | rewrite NoDup_cons
    | rewrite apart_app_l | rewrite apart_app_r
    | rewrite apart_cons_l | rewrite apart_cons_r
    | rewrite apart_nil_l | rewrite apart_nil_r
    | rewrite not_elem_of_app | rewrite not_elem_of_cons ];
  repeat split; first [ neq | apply NoDup_nil_2 | apply not_elem_of_nil | idtac ].

(** A lookup in a chain of updates. *)
Ltac look :=
  cbn [nodes retree relog];
  repeat first [ rewrite lookup_insert_eq | rewrite lookup_insert_ne by neq
               | rewrite lookup_delete_ne by neq ];
  first [ eassumption | reflexivity ].

Section Basics.
Context {K : Type}.
Implicit Types (t l r s u : tree K) (h : gmap positive (rbTreeNode_t K))
  (m : rbTreeManager_t K) (C : list (@frame K)).

(** ** The monad, pointwise *)

Lemma bind_ret {A B} (a : A) (k : A → M K B) m : bind (ret a) k m = k a m.
Proof. reflexivity. Qed.

Lemma bind_assoc {A B D} (c : M K A) (k1 : A → M K B) (k2 : B → M K D) m :
  bind (bind c k1) k2 m = bind c (λ x, bind (k1 x) k2) m.
Proof. unfold bind. destruct (c m) as [[a m']| |]; reflexivity. Qed.

Lemma bind_Done {A B} (c : M K A) (k : A → M K B) m a m' :
  c m = Done (a, m') → bind c k m = k a m'.
Proof. intros H. unfold bind. by rewrite H. Qed.

Lemma bind_Fault {A B} (c : M K A) (k : A → M K B) m :
  c m = Fault → bind c k m = Fault.
Proof. intros H. unfold bind. by rewrite H. Qed.

Lemma bind_gets {A B} (f : rbTreeManager_t K → A) (k : A → M K B) m :
  bind (gets f) k m = k (f m) m.
Proof. reflexivity. Qed.

Lemma bind_get {A B} (f : rbTreeNode_t K → A) a n (k : A → M K B) m :
  nodes m !! a = Some n → bind (get f (Some a)) k m = k (f n) m.
Proof. intros H. unfold bind, get. by rewrite H. Qed.

Lemma bind_get_null {A B} (f : rbTreeNode_t K → A) (k : A → M K B) m :
  bind (get f None) k m = Fault.
Proof. reflexivity. Qed.

Lemma get_eq {A} (f : rbTreeNode_t K → A) a n m :
  nodes m !! a = Some n → get f (Some a) m = Done (f n, m).
Proof. intros H. unfold get. by rewrite H. Qed.

Lemma bind_modify {B} g a n (k : unit → M K B) m :
  nodes m !! a = Some n →
  bind (modify g (Some a)) k m = k tt (retree m (root m) (<[a := g n]> (nodes m))).
Proof. intros H. unfold bind, modify. by rewrite H. Qed.

Lemma modify_eq g a n m :
  nodes m !! a = Some n →
  modify g (Some a) m = Done (tt, retree m (root m) (<[a := g n]> (nodes m))).
Proof. intros H. unfold modify. by rewrite H. Qed.

Lemma bind_set_root {B} q (k : unit → M K B) m :
  bind (set_root q) k m = k tt (retree m q (nodes m)).
Proof. reflexivity. Qed.

Lemma same_env_refl m : same_env m m.
Proof. by destruct m. Qed.

Lemma same_env_trans m1 m2 m3 : same_env m1 m2 → same_env m2 m3 → same_env m1 m3.
Proof. unfold same_env. intros -> ->. reflexivity. Qed.

(** ** Memory and trees *)

Lemma Repr_agree h h' par t :
  (∀ a, a ∈ addrs t → h' !! a = h !! a) → Repr h par t → Repr h' par t.
Proof.
  revert par. induction t as [|l IHl a c k v r IHr]; intros par Hag; simpl; [done|].
  intros (Ha & Hl & Hr). split_and!.
  - rewrite Hag; [done|]. simpl. rewrite elem_of_app, elem_of_cons. auto.
  - apply IHl; [|done]. intros b Hb. apply Hag. simpl. rewrite elem_of_app. auto.
  - apply IHr; [|done]. intros b Hb. apply Hag. simpl.
    rewrite elem_of_app, elem_of_cons. auto.
Qed.

Lemma Repr_insert_ne h par t a n :
  a ∉ addrs t → Repr h par t → Repr (<[a := n]> h) par t.
Proof.
  intros Ha. apply Repr_agree. intros b Hb. apply lookup_insert_ne. congruence.
Qed.

Lemma Repr_delete_ne h par t a :
  a ∉ addrs t → Repr h par t → Repr (delete a h) par t.
Proof.
  intros Ha. apply Repr_agree. intros b Hb. apply lookup_delete_ne. congruence.
Qed.

Lemma Repr_dom h par t a : Repr h par t → a ∈ addrs t → is_Some (h !! a).
Proof.
  revert par. induction t as [|l IHl b c k v r IHr]; intros par; simpl.
  - intros _ H. by apply elem_of_nil in H.
  - intros (Hb & Hl & Hr). rewrite elem_of_app, elem_of_cons. intros [H|[->|H]]; eauto.
Qed.

Lemma rootp_not_in t a : a ∉ addrs t → rootp t ≠ Some a.
Proof.
  destruct t as [|l b c k v r]; simpl; [done|].
  rewrite not_elem_of_app, not_elem_of_cons. intros (_ & H & _). congruence.
Qed.

Lemma ptr_neq_rootp_l t a : a ∉ addrs t → Some a ≠ rootp t.
Proof. intros H E. by apply (rootp_not_in t a). Qed.

Lemma addrs_plug C s : addrs (plug C s) ≡ₚ addrs s ++ caddrs C.
Proof.
  revert s. induction C as [|F C IH]; intros s; simpl.
  - by rewrite app_nil_r.
  - rewrite IH. destruct F; simpl.
    + rewrite <- !app_assoc. done.
    + change (addrs s ++ a :: addrs l ++ caddrs C)
        with (addrs s ++ (a :: addrs l) ++ caddrs C).
      rewrite (app_assoc (addrs s)). apply Permutation_app_tail.
      rewrite <- !Permutation_middle. apply Permutation_skip, Permutation_app_comm.
Qed.

Lemma inorder_plug C s : inorder (plug C s) = ileft C ++ inorder s ++ iright C.
Proof.
  revert s. induction C as [|F C IH]; intros s; simpl.
  - by rewrite app_nil_r.
  - rewrite IH. destruct F; simpl; rewrite <- ?app_assoc; simpl; reflexivity.
Qed.

Lemma plug_app C1 C2 s : plug (C1 ++ C2) s = plug C2 (plug C1 s).
Proof. revert s. induction C1 as [|F C1 IH]; intros s; simpl; [done|]. apply IH. Qed.

Lemma rootp_plug C u u' : rootp u' = rootp u → rootp (plug C u') = rootp (plug C u).
Proof.
  revert u u'. induction C as [|F C IH]; intros u u' H; simpl; [done|].
  apply IH. destruct F; reflexivity.
Qed.

Lemma tcolor_plug C u u' :
  (tcolor u = RB_BLACK → tcolor u' = RB_BLACK) →
  tcolor (plug C u) = RB_BLACK → tcolor (plug C u') = RB_BLACK.
Proof.
  revert u u'. induction C as [|F C IH]; intros u u' H; simpl; [done|].
  apply IH. destruct F; simpl; done.
Qed.

Lemma Repr_plug_inner h par C s :
  Repr h par (plug C s) →
  Repr h (match C with [] => par | F :: _ => Some (faddr F) end) s.
Proof.
  revert s. induction C as [|F C IH]; intros s; simpl; [done|].
  intros H. apply IH in H. destruct F; simpl in *; tauto.
Qed.

Lemma NoDup_plug C s : NoDup (addrs (plug C s)) ↔ NoDup (addrs s ++ caddrs C).
Proof. by rewrite addrs_plug. Qed.

Lemma Repr_plug_rebuild h h' par C u u' :
  Repr h par (plug C u) → NoDup (addrs (plug C u)) →
  rootp u' = rootp u →
  (∀ a, a ∉ addrs u → h' !! a = h !! a) →
  Repr h' (match C with [] => par | F :: _ => Some (faddr F) end) u' →
  Repr h' par (plug C u').
Proof.
  revert u u'. induction C as [|F C IH]; intros u u' HR ND Hroot Hag Hu'; simpl in *; [done|].
  pose proof (Repr_plug_inner _ _ _ _ HR) as Hin.
  apply NoDup_plug in ND as ND'. apply NoDup_app in ND' as (NDf & _ & _).
  apply (IH (fill F u)); [done|done|by destruct F| |].
  - intros a Ha. apply Hag. intros Hu. apply Ha.
    destruct F; simpl; rewrite elem_of_app, ?elem_of_cons; auto.
  - destruct F as [a c k v r|l a c k v]; simpl in *.
    + destruct Hin as (Ha & Hl & Hr).
      apply NoDup_app in NDf as (_ & Hd & NDr). apply NoDup_cons in NDr as (Har & NDr).
      split_and!; [|done|].
      * rewrite Hag, Ha, Hroot; [done|]. intros Hin. apply (Hd _ Hin). left.
      * eapply Repr_agree; [|exact Hr]. intros b Hb. apply Hag.
        intros Hin. apply (Hd _ Hin). by right.
    + destruct Hin as (Ha & Hl & Hr).
      apply NoDup_app in NDf as (NDl & Hd & NDr). apply NoDup_cons in NDr as (Har & NDr).
      split_and!; [| |done].
      * rewrite Hag, Ha, Hroot; [done|]. intros Hin. apply Har. done.
      * eapply Repr_agree; [|exact Hl]. intros b Hb. apply Hag.
        intros Hin. apply (Hd _ Hb). by right.
Qed.

(** A change confined to a subtree [u] that keeps its root address. *)
Lemma WF_local m m' C u u' :
  WF m (plug C u) →
  root m' = root m →
  rootp u' = rootp u → NoDup (addrs u') → addrs u' ⊆ addrs u →
  (∀ a, a ∉ addrs u → nodes m' !! a = nodes m !! a) →
  Repr (nodes m') (cpar C) u' →
  WF m' (plug C u').
Proof.
  intros (Hr & HR & ND) Hm Hroot NDu' Hsub Hag Hu'. split_and!; simpl.
  - rewrite Hm, Hr. symmetry. by apply rootp_plug.
  - eapply Repr_plug_rebuild; eauto.
  - apply NoDup_plug. apply NoDup_plug in ND. apply NoDup_app in ND as (ND1 & ND2 & ND3).
    apply NoDup_app. split_and!; [done| |done]. intros a Ha. apply ND2. by apply Hsub.
Qed.

Lemma WF_open m C u :
  WF m (plug C u) → Repr (nodes m) (cpar C) u ∧ NoDup (addrs u).
Proof.
  intros (_ & HR & ND). split.
  - apply Repr_plug_inner in HR. by destruct C.
  - apply NoDup_plug, NoDup_app in ND. tauto.
Qed.

Lemma WF_focus m C l a c k v r :
  WF m (plug C (Node l a c k v r)) →
  nodes m !! a = Some (mkNode k v (rootp r) (rootp l) (cpar C) c).
Proof. intros H. apply WF_open in H as (H & _). simpl in H. tauto. Qed.

Lemma WF_size m t : WF m t → (length (addrs t) ≤ size (nodes m))%nat.
Proof.
  intros (_ & HR & ND).
  rewrite <- size_dom. rewrite <- (size_list_to_set (C := gset positive) (addrs t)) by done.
  apply subseteq_size. intros a Ha. apply elem_of_list_to_set in Ha.
  apply elem_of_dom. by eapply Repr_dom.
Qed.

Lemma length_plug C s : (length C + length (addrs s) ≤ length (addrs (plug C s)))%nat.
Proof.
  rewrite addrs_plug, length_app.
  assert (length C ≤ length (caddrs C))%nat; [|lia].
  induction C as [|F C IH]; simpl; [done|]. rewrite length_app.
  destruct F; simpl; lia.
Qed.

End Basics.

Ltac ptr_neq :=
  first [ discriminate
        | neq
        | apply ptr_neq_rootp_l; neq
        | apply not_eq_sym, ptr_neq_rootp_l; neq
        | let E := fresh in intros E; injection E; neq ].

Ltac munfold :=
  unfold set_right, set_left, set_parent, set_color, set_index, set_resource,
    RB_TREE_NULL_PTR.

Ltac msimpl :=
  cbn [nodes root retree relog index resource right left parent color
       index_typde_size rbTree_MatchRuleHandle rbTree_FreeRuleHandle
       rbTree_buffer errorCode released rootp fst snd].

(** One step of a computation on a memory given by its lookups. *)
Ltac mstep :=
  first
    [ rewrite bind_ret
    | rewrite bind_assoc
    | rewrite bind_gets
    | rewrite bind_set_root
    | rewrite bind_get_null
    | erewrite bind_get by look
    | erewrite bind_modify by look
    | erewrite modify_eq by look
    | erewrite get_eq by look
    | rewrite decide_True by reflexivity
    | rewrite decide_False by ptr_neq ];
  msimpl.

Ltac repr_goal :=
  cbn [Repr fill rootp plug nodes retree relog];
  repeat match goal with
         | |- _ ∧ _ => split
         | |- True => exact I
         | |- _ !! _ = Some _ => look
         | |- Repr (<[_ := _]> _) _ _ => apply Repr_insert_ne; [neq|]
         | |- Repr (delete _ _) _ _ => apply Repr_delete_ne; [neq|]
         | |- Repr _ _ _ => assumption
         end.

Ltac frame_goal :=
  let a := fresh "a" in let Ha := fresh "Ha" in
  intros a Ha; cbn [addrs fill] in Ha;
  repeat first [ rewrite not_elem_of_app in Ha | rewrite not_elem_of_cons in Ha ];
  destruct_and? Ha;
  cbn [nodes retree relog];
  repeat first [ rewrite lookup_insert_ne by neq | rewrite lookup_delete_ne by neq ];
  reflexivity.

Ltac sub_goal :=
  let a := fresh "a" in
  intros a; cbn [addrs fill];
  repeat first [ rewrite elem_of_app | rewrite elem_of_cons ]; tauto.

Ltac env_goal := unfold same_env; reflexivity.

Section Rotations.
Context {K : Type}.
Implicit Types (t l r s u : tree K) (h : gmap positive (rbTreeNode_t K))
  (m : rbTreeManager_t K) (C : list (@frame K)).

Lemma LeftRotate_spec m C l x cx kx vx rl y cy ky vy rr :
  WF m (plug C (Node l x cx kx vx (Node rl y cy ky vy rr))) →
  ∃ m', rbTreePrivate_LeftRotate (Some x) m = Done (tt, m')
        ∧ WF m' (plug C (Node (Node l x cx kx vx rl) y cy ky vy rr))
        ∧ same_env m m'.
Proof.
  intros HWF.
  destruct C as [|F C].
  - simpl in *. destruct HWF as (Hroot & HR & ND). simpl in HR.
    destruct HR as (Hx & Hl & Hy & Hrl & Hrr).
    unfold rbTreePrivate_LeftRotate. munfold.
    destruct rl as [|rll z cz kz vz rlr]; simpl in *;
      try destruct Hrl as (Hz & Hrll & Hrlr); nodup_norm ND.
    all: eexists; (split; [repeat mstep; reflexivity|]); (split; [|env_goal]).
    all: unfold WF; msimpl; split_and!; [reflexivity|repr_goal|nodup_goal].
  - simpl plug in *.
    pose proof (WF_open _ _ _ HWF) as (HR & ND).
    unfold rbTreePrivate_LeftRotate. munfold.
    destruct F as [p cp kp vp sib|sib p cp kp vp]; simpl in HR;
      destruct HR as (Hp & HR1 & HR2).
    + destruct HR1 as (Hx & Hl & Hy & Hrl & Hrr).
      destruct rl as [|rll z cz kz vz rlr]; simpl in *;
        try destruct Hrl as (Hz & Hrll & Hrlr); nodup_norm ND.
      all: eexists; (split; [repeat mstep; reflexivity|]); (split; [|env_goal]).
      all: eapply (WF_local _ _ _ _ (fill (FrL p cp kp vp sib) _) HWF);
        [reflexivity|reflexivity|nodup_goal|sub_goal|frame_goal|repr_goal].
    + destruct HR2 as (Hx & Hl & Hy & Hrl & Hrr).
      destruct rl as [|rll z cz kz vz rlr]; simpl in *;
        try destruct Hrl as (Hz & Hrll & Hrlr); nodup_norm ND.
      all: eexists; (split; [repeat mstep; reflexivity|]); (split; [|env_goal]).
      all: eapply (WF_local _ _ _ _ (fill (FrR sib p cp kp vp) _) HWF);
        [reflexivity|reflexivity|nodup_goal|sub_goal|frame_goal|repr_goal].
Qed.

Lemma RightRotate_spec m C ll y cy ky vy lr x cx kx vx r :
  WF m (plug C (Node (Node ll y cy ky vy lr) x cx kx vx r)) →
  ∃ m', rbTreePrivate_RightRotate (Some x) m = Done (tt, m')
        ∧ WF m' (plug C (Node ll y cy ky vy (Node lr x cx kx vx r)))
        ∧ same_env m m'.
Proof.
  intros HWF.
  destruct C as [|F C].
  - simpl in *. destruct HWF as (Hroot & HR & ND). simpl in HR.
    destruct HR as (Hx & (Hy & Hll & Hlr) & Hr).
    unfold rbTreePrivate_RightRotate. munfold.
    destruct lr as [|lrl z cz kz vz lrr]; simpl in *;
      try destruct Hlr as (Hz & Hlrl & Hlrr); nodup_norm ND.
    all: eexists; (split; [repeat mstep; reflexivity|]); (split; [|env_goal]).
    all: unfold WF; msimpl; split_and!; [reflexivity|repr_goal|nodup_goal].
  - simpl plug in *.
    pose proof (WF_open _ _ _ HWF) as (HR & ND).
    unfold rbTreePrivate_RightRotate. munfold.
    destruct F as [p cp kp vp sib|sib p cp kp vp]; simpl in HR;
      destruct HR as (Hp & HR1 & HR2).
    + destruct HR1 as (Hx & (Hy & Hll & Hlr) & Hr).
      destruct lr as [|lrl z cz kz vz lrr]; simpl in *;
        try destruct Hlr as (Hz & Hlrl & Hlrr); nodup_norm ND.
      all: eexists; (split; [repeat mstep; reflexivity|]); (split; [|env_goal]).
      all: eapply (WF_local _ _ _ _ (fill (FrL p cp kp vp sib) _) HWF);
        [reflexivity|reflexivity|nodup_goal|sub_goal|frame_goal|repr_goal].
    + destruct HR2 as (Hx & (Hy & Hll & Hlr) & Hr).
      destruct lr as [|lrl z cz kz vz lrr]; simpl in *;
        try destruct Hlr as (Hz & Hlrl & Hlrr); nodup_norm ND.
      all: eexists; (split; [repeat mstep; reflexivity|]); (split; [|env_goal]).
      all: eapply (WF_local _ _ _ _ (fill (FrR sib p cp kp vp) _) HWF);
        [reflexivity|reflexivity|nodup_goal|sub_goal|frame_goal|repr_goal].
Qed.

(** A rotation towards a missing child dereferences the null pointer. *)
Lemma LeftRotate_nil m C l x cx kx vx :
  WF m (plug C (Node l x cx kx vx Leaf)) →
  rbTreePrivate_LeftRotate (Some x) m = Fault.
Proof.
  intros HWF. pose proof (WF_focus _ _ _ _ _ _ _ _ HWF) as Hx.
  unfold rbTreePrivate_LeftRotate. repeat mstep. reflexivity.
Qed.

Lemma RightRotate_nil m C x cx kx vx r :
  WF m (plug C (Node Leaf x cx kx vx r)) →
  rbTreePrivate_RightRotate (Some x) m = Fault.
Proof.
  intros HWF. pose proof (WF_focus _ _ _ _ _ _ _ _ HWF) as Hx.
  unfold rbTreePrivate_RightRotate. repeat mstep. reflexivity.
Qed.

(** Writing the colour, key or resource of a node. *)
Lemma set_color_spec m C l a c k v r c' :
  WF m (plug C (Node l a c k v r)) →
  ∃ m', set_color (Some a) c' m = Done (tt, m')
        ∧ WF m' (plug C (Node l a c' k v r)) ∧ same_env m m'.
Proof.
  intros HWF. pose proof (WF_open _ _ _ HWF) as (HR & ND).
  simpl in HR. destruct HR as (Ha & Hl & Hr). nodup_norm ND.
  munfold. eexists. split; [repeat mstep; reflexivity|]. split; [|env_goal].
  eapply (WF_local _ _ _ _ _ HWF);
    [reflexivity|reflexivity|nodup_goal|sub_goal|frame_goal|repr_goal].
Qed.

Lemma set_index_spec m C l a c k v r k' :
  WF m (plug C (Node l a c k v r)) →
  ∃ m', set_index (Some a) k' m = Done (tt, m')
        ∧ WF m' (plug C (Node l a c k' v r)) ∧ same_env m m'.
Proof.
  intros HWF. pose proof (WF_open _ _ _ HWF) as (HR & ND).
  simpl in HR. destruct HR as (Ha & Hl & Hr). nodup_norm ND.
  munfold. eexists. split; [repeat mstep; reflexivity|]. split; [|env_goal].
  eapply (WF_local _ _ _ _ _ HWF);
    [reflexivity|reflexivity|nodup_goal|sub_goal|frame_goal|repr_goal].
Qed.

Lemma set_resource_spec m C l a c k v r v' :
  WF m (plug C (Node l a c k v r)) →
  ∃ m', set_resource (Some a) v' m = Done (tt, m')
        ∧ WF m' (plug C (Node l a c k v' r)) ∧ same_env m m'.
Proof.
  intros HWF. pose proof (WF_open _ _ _ HWF) as (HR & ND).
  simpl in HR. destruct HR as (Ha & Hl & Hr). nodup_norm ND.
  munfold. eexists. split; [repeat mstep; reflexivity|]. split; [|env_goal].
  eapply (WF_local _ _ _ _ _ HWF);
    [reflexivity|reflexivity|nodup_goal|sub_goal|frame_goal|repr_goal].
Qed.

End Rotations.

(** ** Stepping through a computation on a well-formed tree *)

(** Find the node at address [a] in the tree term [T] and call [tac] with
    the path to it. *)
Ltac find_focus a T tac :=
  let rec go t C :=
    lazymatch t with
    | Node ?l a ?c ?k ?v ?r => tac C l c k v r
    | Node ?l ?b ?c ?k ?v ?r =>
        first [ go l (FrL b c k v r :: C) | go r (FrR l b c k v :: C) ]
    end in
  lazymatch T with
  | plug ?C0 ?s => go s C0
  | _ => lazymatch type of T with
         | tree ?K => go T (@nil (@frame K))
         end
  end.

Ltac wf_done HWF HWF' Henv Henv' :=
  cbn [plug fill] in HWF';
  let H := fresh "Henv" in
  pose proof (same_env_trans _ _ _ Henv Henv') as H; clear Henv Henv' HWF;
  rename HWF' into HWF; rename H into Henv.

Ltac wsimpl :=
  cbn [index resource right left parent color rootp is_red cpar faddr fst snd].

Ltac wstep :=
  wsimpl;
  lazymatch goal with
  | |- context [bind (ret _) _ _] => rewrite bind_ret
  | |- context [bind (bind _ _) _ _] => rewrite bind_assoc
  | |- context [bind (gets _) _ _] => rewrite bind_gets
  | |- context [bind (get _ None) _ _] => rewrite bind_get_null
  | HWF : WF ?m ?T |- context [bind (get ?f (Some ?a)) ?k ?m] =>
      find_focus a T ltac:(fun C l c k0 v r =>
        rewrite (bind_get f a _ k m (WF_focus m C l a c k0 v r HWF)))
  | HWF : WF ?m ?T, Henv : same_env _ ?m
    |- context [bind (set_color (Some ?a) ?c') ?k ?m] =>
      find_focus a T ltac:(fun C l c k0 v r =>
        let m' := fresh "m" in
        let E := fresh "E" in
        let HWF' := fresh "HWF" in
        let Henv' := fresh "Henv" in
        destruct (set_color_spec m C l a c k0 v r c' HWF) as (m' & E & HWF' & Henv');
        rewrite (bind_Done _ k m tt m' E);
        clear E; wf_done HWF HWF' Henv Henv')
  | HWF : WF ?m ?T, Henv : same_env _ ?m
    |- context [bind (rbTreePrivate_LeftRotate (Some ?a)) ?k ?m] =>
      find_focus a T ltac:(fun C l c k0 v r =>
        lazymatch r with
        | Node ?rl ?y ?cy ?ky ?vy ?rr =>
            let m' := fresh "m" in
            let E := fresh "E" in
            let HWF' := fresh "HWF" in
            let Henv' := fresh "Henv" in
            destruct (LeftRotate_spec m C l a c k0 v rl y cy ky vy rr HWF)
              as (m' & E & HWF' & Henv');
            rewrite (bind_Done _ k m tt m' E);
            clear E; wf_done HWF HWF' Henv Henv'
        | Leaf => rewrite (bind_Fault _ k m (LeftRotate_nil m C l a c k0 v HWF))
        end)
  | HWF : WF ?m ?T, Henv : same_env _ ?m
    |- context [bind (rbTreePrivate_RightRotate (Some ?a)) ?k ?m] =>
      find_focus a T ltac:(fun C l c k0 v r =>
        lazymatch l with
        | Node ?ll ?y ?cy ?ky ?vy ?lr =>
            let m' := fresh "m" in
            let E := fresh "E" in
            let HWF' := fresh "HWF" in
            let Henv' := fresh "Henv" in
            destruct (RightRotate_spec m C ll y cy ky vy lr a c k0 v r HWF)
              as (m' & E & HWF' & Henv');
            rewrite (bind_Done _ k m tt m' E);
            clear E; wf_done HWF HWF' Henv Henv'
        | Leaf => rewrite (bind_Fault _ k m (RightRotate_nil m C a c k0 v r HWF))
        end)
  | HWF : WF ?m ?T, Henv : same_env _ ?m
    |- context [set_color (Some ?a) ?c' ?m] =>
      find_focus a T ltac:(fun C l c k0 v r =>
        let m' := fresh "m" in
        let E := fresh "E" in
        let HWF' := fresh "HWF" in
        let Henv' := fresh "Henv" in
        destruct (set_color_spec m C l a c k0 v r c' HWF) as (m' & E & HWF' & Henv');
        rewrite E;
        clear E; wf_done HWF HWF' Henv Henv')
  | HWF : WF ?m ?T, Henv : same_env _ ?m
    |- context [rbTreePrivate_LeftRotate (Some ?a) ?m] =>
      find_focus a T ltac:(fun C l c k0 v r =>
        lazymatch r with
        | Node ?rl ?y ?cy ?ky ?vy ?rr =>
            let m' := fresh "m" in
            let E := fresh "E" in
            let HWF' := fresh "HWF" in
            let Henv' := fresh "Henv" in
            destruct (LeftRotate_spec m C l a c k0 v rl y cy ky vy rr HWF)
              as (m' & E & HWF' & Henv');
            rewrite E;
            clear E; wf_done HWF HWF' Henv Henv'
        | Leaf => rewrite (LeftRotate_nil m C l a c k0 v HWF)
        end)
  | HWF : WF ?m ?T, Henv : same_env _ ?m
    |- context [rbTreePrivate_RightRotate (Some ?a) ?m] =>
      find_focus a T ltac:(fun C l c k0 v r =>
        lazymatch l with
        | Node ?ll ?y ?cy ?ky ?vy ?lr =>
            let m' := fresh "m" in
            let E := fresh "E" in
            let HWF' := fresh "HWF" in
            let Henv' := fresh "Henv" in
            destruct (RightRotate_spec m C ll y cy ky vy lr a c k0 v r HWF)
              as (m' & E & HWF' & Henv');
            rewrite E;
            clear E; wf_done HWF HWF' Henv Henv'
        | Leaf => rewrite (RightRotate_nil m C a c k0 v r HWF)
        end)
  | |- context [if decide (?x = ?x) then _ else _] => rewrite (decide_True (P := x = x)) by reflexivity
  | |- context [if decide (?x = ?y) then _ else _] => rewrite (decide_False (P := x = y)) by ptr_neq
  end;
  wsimpl.

Ltac wsteps := repeat wstep.

Ltac inorder_goal :=
  cbn [plug fill]; rewrite ?inorder_plug; cbn [inorder];
  repeat first [ rewrite <- app_assoc | progress cbn [app] ]; reflexivity.

Section Colours.
Context {K : Type}.
Implicit Types (t l r s u : tree K) (C : list (@frame K)).

Lemma rb_leaf n : rb (@Leaf K) n ↔ n = 0%nat.
Proof. unfold rb. simpl. naive_solver. Qed.

Lemma rb_node l a c k v r n :
  rb (Node l a c k v r) n ↔
  match c with
  | RB_RED => tcolor l ≠ RB_RED ∧ tcolor r ≠ RB_RED ∧ rb l n ∧ rb r n
  | RB_BLACK => ∃ n', n = S n' ∧ rb l n' ∧ rb r n'
  | RB_ERR => False
  end.
Proof.
  unfold rb. cbn [red_or_black no_red_red black_height].
  destruct (black_height l) as [hl|], (black_height r) as [hr|];
    destruct c; simpl; rewrite ?andb_true_iff, ?bool_decide_eq_true;
    try case_decide; naive_solver.
Qed.

Lemma rb_red_black t n : rb t n → red_black t.
Proof. unfold rb, red_black, black_balanced. intros (? & ? & ->). done. Qed.

Lemma red_black_rb t : red_black t → ∃ n, rb t n.
Proof.
  unfold rb, red_black, black_balanced. intros (? & ? & ?).
  destruct (black_height t) as [n|]; [|done]. eauto.
Qed.

(** A subtree that meets the colour conditions, in a path that does. *)
Lemma rb_plug C : ∀ u n, rb_path C n → rb u n → hole_ok C u → ∃ n', rb (plug C u) n'.
Proof.
  induction C as [|F C IH]; intros u n HP Hu Hok; [by exists n|].
  cbn [plug]. cbn [rb_path] in HP. destruct HP as (Hsib & HP).
  unfold hole_ok in Hok.
  destruct F as [a c k v q|q a c k v]; cbn [fcolor fsib fill] in *.
  all: destruct c; [| |done].
  all: try (destruct HP as (Hq & HC & HP); apply (IH _ n); [done| |by right];
            apply rb_node; naive_solver).
  all: apply (IH _ (S n)); [done| |by left]; apply rb_node; naive_solver.
Qed.

(** The conditions on a whole tree, split along a path. *)
Lemma rb_plug_inv C : ∀ u n', rb (plug C u) n' → ∃ n, rb u n ∧ rb_path C n ∧ hole_ok C u.
Proof.
  induction C as [|F C IH]; intros u n' H.
  { exists n'. split_and!; [done|done|by right]. }
  cbn [plug] in H. apply IH in H as (n1 & HF & HP & Hok).
  unfold hole_ok in *.
  destruct F as [a c k v q|q a c k v]; cbn [fcolor fsib fill tcolor rb_path] in *;
    apply rb_node in HF; destruct c; try done.
  all: try (destruct HF as (n2 & -> & ? & ?); exists n2; split_and!; [done|done|done|by right]).
  all: destruct HF as (? & ? & ? & ?); exists n1; destruct Hok as [?|?]; [done|].
  all: split_and!; [..|by left]; done.
Qed.

End Colours.

Ltac rb_simpl :=
  unfold ins_inv, hole_ok in *;
  cbn [rb_path fsib fcolor tcolor plug fill] in *;
  rewrite ?rb_node, ?rb_leaf in *.

Ltac rb_solve :=
  repeat first
    [ done | eassumption
    | match goal with |- _ ∧ _ => split | |- ∃ _, _ => eexists end
    | apply rb_node; cbn iota beta ].

(** The invariant of the insert fix-up loop after one round, from the
    invariant before it. *)
Ltac ins_goal :=
  let n := fresh "n" in
  let H := fresh "Hinv" in
  intros n H; rb_simpl; destruct_and?; simplify_eq;
  repeat match goal with c : RB_COLOR |- _ => destruct c; rb_simpl; try done end;
  repeat match goal with H : ∃ _, _ |- _ => destruct H end;
  destruct_and?; simplify_eq;
  eexists; rb_simpl; rb_solve.

Section InsertFix.
Context {K : Type}.
Implicit Types (t l r s u : tree K) (m : rbTreeManager_t K) (C : list (@frame K)).

Lemma black_top_tail F C : black_top (F :: C) → black_top C.
Proof. unfold black_top. destruct C as [|G C]; [done|]. by rewrite last_cons_cons. Qed.

Lemma black_top_cons F C : fcolor F = RB_BLACK → black_top C → black_top (F :: C).
Proof. unfold black_top. destruct C as [|G C]; [done|]. by rewrite last_cons_cons. Qed.

Lemma bool_decide_red (c : RB_COLOR) :
  bool_decide (c = RB_RED) = match c with RB_RED => true | _ => false end.
Proof. by destruct c. Qed.

Lemma InsertAdjust_post_mono m0 m C C' s s' o :
  same_env m0 m → inorder (plug C s) = inorder (plug C' s') →
  (black_top C' → black_top C) →
  (∀ n, ins_inv C' s' n → ∃ n', ins_inv C s n') →
  InsertAdjust_post m C s o → InsertAdjust_post m0 C' s' o.
Proof.
  intros Henv Hio Hb Hinv. destruct o as [[[] m']| |]; simpl; [|tauto|done].
  intros (t' & HWF & Ht' & Henv' & Hrb). exists t'.
  split_and!; [done|congruence|by eapply same_env_trans|].
  intros n Hn. destruct (Hinv n Hn) as (n1 & Hn1). eauto.
Qed.

Ltac ia_finish IH :=
  lazymatch goal with
  | HWF : WF ?m ?T, Henv : same_env _ ?m
    |- _ _ _ _ (InsertAdjust_loop ?fuel (Some ?a) ?m) =>
      find_focus a T ltac:(fun C l c k v r =>
        eapply InsertAdjust_post_mono;
          [ exact Henv | | |
          | eapply (IH m C l a c k v r); [exact HWF | cbn [length]; lia] ];
          [ inorder_goal
          | let Hb := fresh in
            intros Hb; do 2 apply black_top_tail in Hb;
            first [ exact Hb | apply black_top_cons; [reflexivity | exact Hb] ]
          | ins_goal ])
  end.

Lemma InsertAdjust_loop_spec fuel : ∀ m C l x c k v r,
  WF m (plug C (Node l x c k v r)) → (length C < fuel)%nat →
  InsertAdjust_post m C (Node l x c k v r) (InsertAdjust_loop fuel (Some x) m).
Proof.
  induction fuel as [|fuel IH]; intros m C l x c k v r HWF Hlen; [lia|].
  pose proof (same_env_refl m) as Henv.
  cbn [InsertAdjust_loop].
  assert (Hdone : WF m (plug C (Node l x c k v r)) → hole_ok C (Node l x c k v r) →
            InsertAdjust_post m C (Node l x c k v r) (Done (tt, m))).
  { intros H1 H2. simpl. exists (plug C (Node l x c k v r)).
    split_and!; [done|done|done|]. intros n (HP & Hs & _). by eapply rb_plug. }
  destruct C as [|F1 C1]; cbn [plug fill] in HWF.
  { wsteps. apply Hdone; [exact HWF|by right]. }
  destruct F1 as [p cp kp vp sib|sib p cp kp vp]; cbn [plug fill] in HWF.
  all: wsteps; rewrite bool_decide_red.
  all: destruct cp; cbn [ret]; wsteps; cbn [ret];
    try (apply Hdone; [exact HWF|by right]).
  all: destruct C1 as [|F2 C2]; cbn [plug fill] in HWF;
    [wsteps; intros Hb; discriminate Hb|].
  all: clear Hdone; cbn [length] in Hlen.
  all: destruct F2 as [g cg kg vg unc|unc g cg kg vg]; cbn [plug fill] in HWF.
  all: destruct unc as [|ul un cu ku vu ur].
  all: pose proof (proj2 (WF_open _ _ _ HWF)) as ND; nodup_norm ND.
  all: wsteps; rewrite ?bool_decide_red.
  all: try (destruct cu; wsteps).
  all: ia_finish IH.
Qed.

End InsertFix.

Section Insert.
Context {K : Type}.
Implicit Types (t l r s u : tree K) (h : gmap positive (rbTreeNode_t K))
  (m : rbTreeManager_t K) (C : list (@frame K)).

Lemma Repr_plug_rebuild' h h' par C u u' :
  Repr h par (plug C u) →
  rootp u' = rootp u →
  (∀ a, a ∈ caddrs C → h' !! a = h !! a) →
  Repr h' (match C with [] => par | F :: _ => Some (faddr F) end) u' →
  Repr h' par (plug C u').
Proof.
  revert u u'. induction C as [|F C IH]; intros u u' HR Hroot Hag Hu'; simpl in *; [done|].
  pose proof (Repr_plug_inner _ _ _ _ HR) as Hin.
  apply (IH (fill F u)); [done|by destruct F| |].
  - intros a Ha. apply Hag. apply elem_of_app. auto.
  - destruct F as [a c k v r|l a c k v]; simpl in *; destruct Hin as (Ha & Hl & Hr).
    + split_and!; [|done|].
      * rewrite Hag, Ha, Hroot; [done|]. left.
      * eapply Repr_agree; [|exact Hr]. intros b Hb. apply Hag.
        right. apply elem_of_app. by left.
    + split_and!; [| |done].
      * rewrite Hag, Ha, Hroot; [done|]. left.
      * eapply Repr_agree; [|exact Hl]. intros b Hb. apply Hag.
        right. apply elem_of_app. by left.
Qed.

(** A change below a path that may bring in new addresses. *)
Lemma WF_local_gen m m' C u u' :
  WF m (plug C u) →
  root m' = root m →
  rootp u' = rootp u → NoDup (addrs u') → apart (addrs u') (caddrs C) →
  (∀ a, a ∈ caddrs C → nodes m' !! a = nodes m !! a) →
  Repr (nodes m') (cpar C) u' →
  WF m' (plug C u').
Proof.
  intros (Hr & HR & ND) Hm Hroot NDu' Hap Hag Hu'. split_and!; simpl.
  - rewrite Hm, Hr. symmetry. by apply rootp_plug.
  - eapply Repr_plug_rebuild'; eauto.
  - apply NoDup_plug. apply NoDup_plug in ND. apply NoDup_app in ND as (ND1 & ND2 & ND3).
    apply NoDup_app. split_and!; done.
Qed.

Lemma WF_fresh m t a : WF m t → nodes m !! a = None → a ∉ addrs t.
Proof.
  intros (_ & HR & _) Ha Hin. destruct (Repr_dom _ _ _ _ HR Hin) as [n Hn]. congruence.
Qed.

Lemma height_le_size t : (height t ≤ length (addrs t))%nat.
Proof.
  induction t as [|l IHl a c k v r IHr]; simpl; [done|].
  rewrite length_app. simpl. lia.
Qed.

Lemma black_top_plug C s : tcolor (plug C s) = RB_BLACK → C ≠ [] → black_top C.
Proof.
  revert s. induction C as [|F C IH]; intros s Hc HC; [done|].
  destruct C as [|G C].
  - simpl in Hc. unfold black_top. simpl. by destruct F.
  - unfold black_top. rewrite last_cons_cons. apply (IH (fill F s)); done.
Qed.

Lemma bind_walk_bound {B} (k : nat → M K B) m :
  bind walk_bound k m = k (S (size (nodes m))) m.
Proof. reflexivity. Qed.

Lemma WF_not_leaf m t : WF m t → inorder t ≠ [] → ∃ l a c k v r, t = Node l a c k v r.
Proof. destruct t; [done|]. eauto 10. Qed.

Lemma rb_blacken l a c k v r n :
  rb (Node l a c k v r) n → red_black (Node l a RB_BLACK k v r).
Proof.
  intros H. apply rb_node in H. destruct c; [| |done].
  - destruct H as (_ & _ & ? & ?). apply (rb_red_black _ (S n)). apply rb_node. eauto.
  - apply (rb_red_black _ n). by apply rb_node.
Qed.

(** A new red node at a free position of a tree that meets the colour
    conditions. *)
Lemma ins_inv_new C a key (v : ptr) :
  red_black (plug C (@Leaf K)) → ins_inv C (Node Leaf a RB_RED key v Leaf) 0.
Proof.
  intros H. apply red_black_rb in H as (n' & H).
  apply rb_plug_inv in H as (n & Hn & HP & _). apply rb_leaf in Hn as ->.
  split_and!; [done| |done]. apply rb_node. by rewrite rb_leaf.
Qed.

(** The insert fix-up as a whole (rb_tree.c, line 313). *)
Lemma InsertAdjust_spec m C l x c k v r :
  WF m (plug C (Node l x c k v r)) →
  match rbTreePrivate_InsertAdjust (Some x) m with
  | Done (_, m') =>
      ∃ t', WF m' t' ∧ inorder t' = inorder (plug C (Node l x c k v r))
            ∧ same_env m m' ∧ tcolor t' = RB_BLACK
            ∧ (∀ n, ins_inv C (Node l x c k v r) n → red_black t')
  | Fault => ¬ black_top C
  | Timeout => False
  end.
Proof.
  intros HWF. unfold rbTreePrivate_InsertAdjust. rewrite bind_walk_bound.
  assert (length C < S (size (nodes m)))%nat as Hlen.
  { pose proof (WF_size _ _ HWF). pose proof (length_plug C (Node l x c k v r)).
    simpl in *. rewrite length_app in *. simpl in *. lia. }
  pose proof (InsertAdjust_loop_spec _ _ _ _ _ _ _ _ _ HWF Hlen) as Hloop.
  unfold bind at 1.
  destruct (InsertAdjust_loop _ _ m) as [[[] m1]| |]; simpl in Hloop; [|done|done].
  destruct Hloop as (t1 & HWF1 & Hio & Henv & Hrb).
  destruct (WF_not_leaf _ _ HWF1) as (l1 & a1 & c1 & k1 & v1 & r1 & ->).
  { rewrite Hio, inorder_plug. simpl. intros E. apply app_eq_nil in E as [_ E].
    apply app_eq_nil in E as [E _]. by apply app_eq_nil in E as [_ E]. }
  rewrite bind_gets. destruct HWF1 as (Hroot & HR & ND). rewrite Hroot. simpl rootp.
  destruct (set_color_spec m1 [] l1 a1 c1 k1 v1 r1 RB_BLACK) as (m2 & E & HWF2 & Henv2).
  { split_and!; done. }
  rewrite E. eexists. split_and!; [exact HWF2|exact Hio|by eapply same_env_trans|done|].
  intros n Hn. destruct (Hrb n Hn) as (n1 & Hn1). by eapply rb_blacken.
Qed.

(** The descent of an insertion follows [insert_path]. *)
Lemma AddNode_descend_spec t : ∀ fuel m C key,
  WF m (plug C t) → (height t < fuel)%nat →
  AddNode_descend fuel key (cpar C) (rootp t) m =
    match insert_path (rbTree_MatchRuleHandle m) key C t with
    | None =>
        Done (inl (- RBTREE_ERRNO_DUP_VAL),
              mkManager (root m) (index_typde_size m) (rbTree_MatchRuleHandle m)
                (rbTree_FreeRuleHandle m) (rbTree_buffer m) (- RBTREE_ERRNO_DUP_VAL)
                (nodes m) (released m))
    | Some C' => Done (inr (cpar C'), m)
    end.
Proof.
  induction t as [|l IHl a c k v r IHr]; intros fuel m C key HWF Hfuel.
  - destruct fuel; [simpl in Hfuel; lia|]. reflexivity.
  - destruct fuel as [|fuel]; [simpl in Hfuel; lia|]. simpl in Hfuel.
    cbn [AddNode_descend rootp insert_path].
    rewrite bind_gets. wstep.
    destruct (decide (rbTree_MatchRuleHandle m k key = 0)); [reflexivity|].
    destruct (decide (rbTree_MatchRuleHandle m k key < 0)).
    + wstep. apply (IHl fuel m (FrL a c k v r :: C) key); [exact HWF|lia].
    + wstep. apply (IHr fuel m (FrR l a c k v :: C) key); [exact HWF|lia].
Qed.

Lemma insert_path_plug cmp key t : ∀ C C',
  insert_path cmp key C t = Some C' → plug C' Leaf = plug C t.
Proof.
  induction t as [|l IHl a c k v r IHr]; intros C C'; simpl.
  - by intros [= ->].
  - repeat case_decide; [done| |]; intros Hp.
    + by rewrite (IHl _ _ Hp).
    + by rewrite (IHr _ _ Hp).
Qed.

Lemma insert_path_went cmp key t : ∀ C C',
  insert_path cmp key C t = Some C' → Forall (went cmp key) C → Forall (went cmp key) C'.
Proof.
  induction t as [|l IHl a c k v r IHr]; intros C C'; simpl.
  - by intros [= ->].
  - repeat case_decide; [done| |]; intros Hp HC.
    + apply (IHl _ _ Hp). by constructor.
    + apply (IHr _ _ Hp). by constructor.
Qed.

Lemma insert_path_none cmp key t : ∀ C,
  insert_path cmp key C t = None → ∃ e, e ∈ inorder t ∧ cmp e.1 key = 0.
Proof.
  induction t as [|l IHl a c k v r IHr]; intros C; simpl; [done|].
  repeat case_decide.
  - intros _. exists (k, v). split; [|done]. apply elem_of_app. right. left.
  - intros Hp. destruct (IHl _ Hp) as (e & He & Hz). exists e. split; [|done].
    apply elem_of_app. by left.
  - intros Hp. destruct (IHr _ Hp) as (e & He & Hz). exists e. split; [|done].
    apply elem_of_app. right. by right.
Qed.

Lemma locate_some cmp key t : ∀ C C' s,
  locate cmp key C t = Some (C', s) →
  plug C' s = plug C t ∧ ∃ l a c k v r, s = Node l a c k v r ∧ cmp key k = 0.
Proof.
  induction t as [|l IHl a c k v r IHr]; intros C C' s; simpl; [done|].
  repeat case_decide.
  - intros [= <- <-]. split; [done|]. eauto 10.
  - intros Hp. by destruct (IHl _ _ _ Hp) as (-> & ?).
  - intros Hp. by destruct (IHr _ _ _ Hp) as (-> & ?).
Qed.

Lemma locate_none cmp key t : ∀ C,
  (∀ e, e ∈ inorder t → cmp key e.1 ≠ 0) → locate cmp key C t = None.
Proof.
  induction t as [|l IHl a c k v r IHr]; intros C Hno; simpl; [done|].
  repeat case_decide.
  - exfalso. apply (Hno (k, v)); [|done]. apply elem_of_app. right. left.
  - apply IHl. intros e He. apply Hno. apply elem_of_app. by left.
  - apply IHr. intros e He. apply Hno. apply elem_of_app. right. by right.
Qed.

End Insert.

(** ** The comparator contract and the order of the tree *)

Section Contract.
Context {K : Type} (cmp : K → K → Z).
Hypothesis Hanti : cmp_antisym cmp.
Hypothesis Htrans : cmp_trans cmp.
Implicit Types (t l r s u : tree K) (C : list (@frame K)).

Lemma cmp_gt_lt a b : cmp a b > 0 ↔ cmp b a < 0.
Proof. specialize (Hanti a b). lia. Qed.

Lemma cmp_eq_sym a b : cmp a b = 0 ↔ cmp b a = 0.
Proof. specialize (Hanti a b). lia. Qed.

Lemma cmp_refl a : cmp a a = 0.
Proof. specialize (Hanti a a). lia. Qed.

Lemma cmp_gt_trans a b c : cmp a b > 0 → cmp b c > 0 → cmp a c > 0.
Proof.
  intros H1 H2. apply cmp_gt_lt in H1 as H1'. apply cmp_gt_lt in H2 as H2'.
  apply cmp_gt_lt.
  assert (cmp c a ≤ 0) as Hle by (apply (Htrans c b a); lia).
  destruct (decide (cmp c a = 0)) as [E|]; [|lia].
  apply cmp_eq_sym in E.
  assert (cmp a b ≤ 0) by (apply (Htrans a c b); lia). lia.
Qed.

Lemma cmp_eq_gt a b c : cmp a b = 0 → cmp b c > 0 → cmp a c > 0.
Proof.
  intros H1 H2. apply cmp_eq_sym in H1 as H1'. apply cmp_gt_lt in H2 as H2'.
  apply cmp_gt_lt.
  assert (cmp c a ≤ 0) as Hle by (apply (Htrans c b a); lia).
  destruct (decide (cmp c a = 0)) as [E|]; [|lia].
  apply cmp_eq_sym in E.
  assert (cmp b c ≤ 0) by (apply (Htrans b a c); lia). lia.
Qed.

Lemma cmp_gt_eq a b c : cmp a b > 0 → cmp b c = 0 → cmp a c > 0.
Proof.
  intros H1 H2. apply cmp_eq_sym in H2 as H2'. apply cmp_gt_lt in H1 as H1'.
  apply cmp_gt_lt.
  assert (cmp c a ≤ 0) as Hle by (apply (Htrans c b a); lia).
  destruct (decide (cmp c a = 0)) as [E|]; [|lia].
  apply cmp_eq_sym in E.
  assert (cmp a b ≤ 0) by (apply (Htrans a c b); lia). lia.
Qed.

Lemma cmp_eq_trans a b c : cmp a b = 0 → cmp b c = 0 → cmp a c = 0.
Proof.
  intros H1 H2. apply cmp_eq_sym in H1 as H1'. apply cmp_eq_sym in H2 as H2'.
  assert (cmp a c ≤ 0) by (apply (Htrans a b c); lia).
  assert (cmp c a ≤ 0) by (apply (Htrans c b a); lia).
  specialize (Hanti a c). lia.
Qed.

Lemma Ordered_app (L1 L2 : list (K * ptr)) :
  Ordered cmp (L1 ++ L2) ↔
    (∀ x y, x ∈ L1 → y ∈ L2 → cmp x.1 y.1 > 0) ∧ Ordered cmp L1 ∧ Ordered cmp L2.
Proof. apply StronglySorted_app. Qed.

Lemma Ordered_cons e (L : list (K * ptr)) :
  Ordered cmp (e :: L) ↔ (∀ y, y ∈ L → cmp e.1 y.1 > 0) ∧ Ordered cmp L.
Proof. unfold Ordered. rewrite StronglySorted_cons, Forall_forall. done. Qed.

Lemma Ordered_nil : Ordered cmp [].
Proof. constructor. Qed.

(** In an ordered tree the search finds the entry that compares equal. *)
Lemma locate_found key t : ∀ C e,
  Ordered cmp (inorder t) → e ∈ inorder t → cmp key e.1 = 0 →
  ∃ C' l a c r, locate cmp key C t = Some (C', Node l a c e.1 e.2 r).
Proof.
  induction t as [|l IHl a c k v r IHr]; intros C e Hord He Hz; simpl in *.
  { by apply elem_of_nil in He. }
  apply Ordered_app in Hord as (Hlr & Hl & Hr).
  apply Ordered_cons in Hr as (Hkr & Hr).
  apply elem_of_app in He as [He|He]; [|apply elem_of_cons in He as [->|He]].
  - assert (cmp key k > 0) as Hgt.
    { apply (cmp_eq_gt _ e.1); [done|]. apply (Hlr e (k, v)); [done|left]. }
    rewrite decide_False by lia. rewrite decide_True by done. by apply IHl.
  - simpl in Hz. rewrite decide_True by done. eauto 10.
  - assert (cmp key k < 0) as Hlt.
    { apply cmp_gt_lt. apply (cmp_gt_eq _ e.1); [by apply Hkr|by apply cmp_eq_sym]. }
    rewrite decide_False by lia. rewrite decide_False by lia. by apply IHr.
Qed.

(** In an ordered tree an insertion of a key that compares equal to an
    entry stops on a duplicate. *)
Lemma insert_path_dup key t : ∀ C e,
  Ordered cmp (inorder t) → e ∈ inorder t → cmp e.1 key = 0 →
  insert_path cmp key C t = None.
Proof.
  induction t as [|l IHl a c k v r IHr]; intros C e Hord He Hz; simpl in *.
  { by apply elem_of_nil in He. }
  apply Ordered_app in Hord as (Hlr & Hl & Hr).
  apply Ordered_cons in Hr as (Hkr & Hr).
  apply elem_of_app in He as [He|He]; [|apply elem_of_cons in He as [->|He]].
  - assert (cmp k key < 0) as Hlt.
    { apply cmp_gt_lt. apply (cmp_eq_gt _ e.1); [by apply cmp_eq_sym|].
      apply (Hlr e (k, v)); [done|left]. }
    rewrite decide_False by lia. rewrite decide_True by done. by eapply IHl.
  - simpl in Hz. by rewrite decide_True by done.
  - assert (cmp k key > 0) as Hgt.
    { apply (cmp_gt_eq _ e.1); [by apply Hkr|done]. }
    rewrite decide_False by lia. rewrite decide_False by lia. by eapply IHr.
Qed.

(** The entries around the position an insertion reaches. *)
Lemma went_bounds key C :
  Forall (went cmp key) C → Ordered cmp (ileft C ++ iright C) →
  (∀ e, e ∈ ileft C → cmp e.1 key > 0) ∧ (∀ e, e ∈ iright C → cmp key e.1 > 0).
Proof.
  induction C as [|F C IH]; intros HC Hord; simpl.
  { split; intros e He; by apply elem_of_nil in He. }
  apply Forall_cons in HC as (HF & HC).
  destruct F as [a c k v r|l a c k v]; simpl in *.
  - assert (Ordered cmp (ileft C ++ iright C)) as Hord'.
    { apply Ordered_app in Hord as (H1 & H2 & H3).
      apply Ordered_cons in H3 as (H3 & H4). apply Ordered_app in H4 as (H4 & H5 & H6).
      apply Ordered_app. split_and!; [|done|done].
      intros x y Hx Hy. apply H1; [done|]. right. apply elem_of_app. by right. }
    destruct (IH HC Hord') as (IH1 & IH2). split; [done|].
    assert (cmp key k > 0) as Hk by (by apply cmp_gt_lt).
    apply Ordered_app in Hord as (H1 & H2 & H3).
    apply Ordered_cons in H3 as (H3 & H4).
    intros e He. apply elem_of_cons in He as [->|He]; [done|].
    apply elem_of_app in He as [He|He]; [|by apply IH2].
    apply (cmp_gt_trans _ k); [done|]. apply (H3 e). apply elem_of_app. by left.
  - destruct HF as (Hne & Hnlt). assert (cmp k key > 0) as Hk by lia.
    rewrite <- !app_assoc in Hord.
    assert (Ordered cmp (ileft C ++ iright C)) as Hord'.
    { apply Ordered_app in Hord as (H1 & H2 & H3).
      apply Ordered_app in H3 as (H3 & H4 & H5). apply Ordered_app in H5 as (H5 & H6 & H7).
      apply Ordered_app. split_and!; [|done|done].
      intros x y Hx Hy. apply H1; [done|]. apply elem_of_app. right.
      apply elem_of_app. by right. }
    destruct (IH HC Hord') as (IH1 & IH2). split; [|done].
    apply Ordered_app in Hord as (H1 & H2 & H3).
    apply Ordered_app in H3 as (H3 & H4 & H5).
    intros e He. apply elem_of_app in He as [He|He]; [by apply IH1|].
    apply elem_of_app in He as [He|He].
    + apply (cmp_gt_trans _ k); [|done]. apply (H3 e (k, v)); [done|].
      apply elem_of_app. left. left.
    + apply list_elem_of_singleton in He as ->. done.
Qed.

Lemma Ordered_insert key v C :
  Forall (went cmp key) C → Ordered cmp (ileft C ++ iright C) →
  Ordered cmp (ileft C ++ (key, v) :: iright C).
Proof.
  intros HC Hord. destruct (went_bounds _ _ HC Hord) as (H1 & H2).
  apply Ordered_app in Hord as (H3 & H4 & H5).
  apply Ordered_app. split_and!; [|done|].
  - intros x y Hx Hy. apply elem_of_cons in Hy as [->|Hy]; [by apply H1|by apply H3].
  - apply Ordered_cons. done.
Qed.

End Contract.

Section SearchInsert.
Context {K : Type}.
Implicit Types (t l r s u : tree K) (h : gmap positive (rbTreeNode_t K))
  (m : rbTreeManager_t K) (C : list (@frame K)).

Lemma Search_loop_spec t : ∀ fuel m C key,
  WF m (plug C t) → (height t < fuel)%nat →
  Search_loop fuel key (rootp t) m =
    Done (found_ptr (locate (rbTree_MatchRuleHandle m) key C t), m).
Proof.
  induction t as [|l IHl a c k v r IHr]; intros fuel m C key HWF Hfuel.
  - destruct fuel; [simpl in Hfuel; lia|]. reflexivity.
  - destruct fuel as [|fuel]; [simpl in Hfuel; lia|]. simpl in Hfuel.
    cbn [Search_loop rootp locate].
    rewrite bind_gets. wstep.
    destruct (decide (rbTree_MatchRuleHandle m key k = 0)); [reflexivity|].
    destruct (decide (rbTree_MatchRuleHandle m key k > 0)).
    + wstep. apply (IHl fuel m (FrL a c k v r :: C) key); [exact HWF|lia].
    + wstep. apply (IHr fuel m (FrR l a c k v :: C) key); [exact HWF|lia].
Qed.

Lemma WF_height m t : WF m t → (height t < S (size (nodes m)))%nat.
Proof. intros H. pose proof (WF_size _ _ H). pose proof (height_le_size t). lia. Qed.

Lemma Search_spec m t key :
  WF m t →
  rbTreePrivate_Search key m =
    Done (found_ptr (locate (rbTree_MatchRuleHandle m) key [] t), m).
Proof.
  intros HWF. unfold rbTreePrivate_Search. rewrite bind_walk_bound, bind_gets.
  destruct HWF as (Hroot & HR & ND) eqn:E. rewrite Hroot.
  apply (Search_loop_spec t _ m []); [done|]. by apply WF_height.
Qed.

Lemma Search_body_spec m t key :
  WF m t →
  Search_body (Some key) m =
    Done (found_resource (locate (rbTree_MatchRuleHandle m) key [] t), m).
Proof.
  intros HWF. unfold Search_body.
  rewrite (bind_Done _ _ _ _ _ (Search_spec m t key HWF)).
  destruct (locate _ key [] t) as [[C' s]|] eqn:E; [|reflexivity].
  apply locate_some in E as (E & l & a & c & k & v & r & -> & Hz). simpl in E.
  rewrite <- E in HWF. cbn [found_ptr found_resource rootp].
  by rewrite (get_eq _ _ _ _ (WF_focus _ _ _ _ _ _ _ _ HWF)).
Qed.

Lemma bind_place {B} a n (k : unit → M K B) m :
  bind (place a n) k m = k tt (retree m (root m) (<[a := n]> (nodes m))).
Proof. reflexivity. Qed.

Lemma bind_set_errorCode {B} e (k : unit → M K B) m :
  bind (set_errorCode e) k m =
    k tt (mkManager (root m) (index_typde_size m) (rbTree_MatchRuleHandle m)
            (rbTree_FreeRuleHandle m) (rbTree_buffer m) e (nodes m) (released m)).
Proof. reflexivity. Qed.

(** An insertion that meets a duplicate. *)
Lemma AddNode_body_dup m t key v block :
  WF m t → insert_path (rbTree_MatchRuleHandle m) key [] t = None →
  AddNode_body (Some key) v block m =
    Done (- RBTREE_ERRNO_DUP_VAL,
          mkManager (root m) (index_typde_size m) (rbTree_MatchRuleHandle m)
            (rbTree_FreeRuleHandle m) (rbTree_buffer m) (- RBTREE_ERRNO_DUP_VAL)
            (nodes m) (released m)).
Proof.
  intros HWF Hp. unfold AddNode_body, RB_TREE_NULL_PTR. rewrite bind_walk_bound, bind_gets.
  pose proof (AddNode_descend_spec t (S (size (nodes m))) m [] key HWF (WF_height _ _ HWF)) as E.
  rewrite Hp in E. destruct HWF as (Hroot & _). rewrite <- Hroot in E.
  simpl cpar in E. by rewrite (bind_Done _ _ _ _ _ E).
Qed.

(** An insertion for which [malloc] fails. *)
Lemma AddNode_body_oom m t key v C' :
  WF m t → insert_path (rbTree_MatchRuleHandle m) key [] t = Some C' →
  AddNode_body (Some key) v None m =
    Done (- RBTREE_ERRNO_OUT_OF_MEM,
          mkManager (root m) (index_typde_size m) (rbTree_MatchRuleHandle m)
            (rbTree_FreeRuleHandle m) (rbTree_buffer m) (- RBTREE_ERRNO_OUT_OF_MEM)
            (nodes m) (released m)).
Proof.
  intros HWF Hp. unfold AddNode_body, RB_TREE_NULL_PTR. rewrite bind_walk_bound, bind_gets.
  pose proof (AddNode_descend_spec t (S (size (nodes m))) m [] key HWF (WF_height _ _ HWF)) as E.
  rewrite Hp in E. destruct HWF as (Hroot & _). rewrite <- Hroot in E.
  simpl cpar in E. by rewrite (bind_Done _ _ _ _ _ E).
Qed.

(** Linking the new red leaf at the position the descent reached. *)
Lemma AddNode_body_spec m t key v a C' :
  WF m t → insert_path (rbTree_MatchRuleHandle m) key [] t = Some C' →
  nodes m !! a = None →
  match AddNode_body (Some key) v (Some a) m with
  | Done (e, m') =>
      e = NO_ERROR ∧
      ∃ t', WF m' t' ∧ inorder t' = ileft C' ++ (key, v) :: iright C'
            ∧ same_env m m' ∧ tcolor t' = RB_BLACK
            ∧ (red_black t → red_black t')
  | Fault => tcolor t ≠ RB_BLACK
  | Timeout => False
  end.
Proof.
  intros HWF Hp Ha. unfold AddNode_body, RB_TREE_NULL_PTR. rewrite bind_walk_bound, bind_gets.
  pose proof (AddNode_descend_spec t (S (size (nodes m))) m [] key HWF (WF_height _ _ HWF)) as E.
  rewrite Hp in E. pose proof HWF as (Hroot & _). rewrite <- Hroot in E.
  simpl cpar in E. rewrite (bind_Done _ _ _ _ _ E). clear E.
  pose proof (insert_path_went _ _ _ _ _ Hp (Forall_nil_2 _)) as Hwent.
  apply insert_path_plug in Hp. simpl in Hp. subst t.
  pose proof (WF_fresh _ _ _ HWF Ha) as Hfresh.
  unfold rbTreePrivate_CreateNewNode. rewrite bind_assoc, bind_place, bind_ret.
  munfold.
  destruct C' as [|F C''].
  - simpl in HWF. msimpl. cbn [cpar]. repeat mstep.
    match goal with |- context [bind (rbTreePrivate_InsertAdjust _) _ ?m1] =>
      assert (WF m1 (plug [] (Node Leaf a RB_RED key v Leaf))) as HWF1
    end.
    { unfold WF; msimpl. split_and!; [reflexivity|repr_goal|nodup_goal]. }
    pose proof (InsertAdjust_spec _ _ _ _ _ _ _ _ HWF1) as Hfix.
    unfold bind at 1.
    destruct (rbTreePrivate_InsertAdjust _ _) as [[[] m2]| |]; [|by destruct Hfix|done].
    destruct Hfix as (t' & HWF2 & Hio & Henv & Hc & Hrb). split; [done|].
    exists t'. split_and!; [done|by rewrite Hio|exact Henv|done|].
    intros Hrbt. apply (Hrb 0%nat). by apply ins_inv_new.
  - cbn [plug] in HWF. pose proof (WF_open _ _ _ HWF) as (HR & _).
    pose proof HWF as (_ & _ & ND). apply NoDup_plug in ND.
    cbn [plug] in Hfresh. rewrite addrs_plug in Hfresh.
    apply Forall_cons in Hwent as (HF & _).
    destruct F as [p cp kp vp sib|sib p cp kp vp]; cbn [fill Repr] in HR;
      destruct HR as (Hp & HR1 & HR2); nodup_norm ND; nodup_norm Hfresh;
      simpl in HF; cbn [cpar faddr].
    + repeat mstep. rewrite ?decide_False by lia. repeat mstep.
      match goal with |- context [bind (rbTreePrivate_InsertAdjust _) _ ?m1] =>
        assert (WF m1 (plug (FrL p cp kp vp sib :: C'') (Node Leaf a RB_RED key v Leaf)))
          as HWF1
      end.
      { eapply (WF_local_gen _ _ _ _ (fill (FrL p cp kp vp sib) _) HWF);
          [reflexivity|reflexivity|nodup_goal|nodup_goal| |repr_goal].
        intros b Hb. cbn [nodes retree]. repeat rewrite lookup_insert_ne by (intros ->; done). done. }
      pose proof (InsertAdjust_spec _ _ _ _ _ _ _ _ HWF1) as Hfix.
      unfold bind at 1.
      destruct (rbTreePrivate_InsertAdjust _ _) as [[[] m2]| |]; [| |done].
      * destruct Hfix as (t' & HWF2 & Hio & Henv & Hc & Hrb). split; [done|].
        exists t'. split_and!; [done| |exact Henv|done|].
        -- rewrite Hio, inorder_plug. reflexivity.
        -- intros Hrbt. apply (Hrb 0%nat). by apply ins_inv_new.
      * intros Hc. apply Hfix. by eapply black_top_plug.
    + repeat mstep. rewrite ?decide_True by lia. repeat mstep.
      match goal with |- context [bind (rbTreePrivate_InsertAdjust _) _ ?m1] =>
        assert (WF m1 (plug (FrR sib p cp kp vp :: C'') (Node Leaf a RB_RED key v Leaf)))
          as HWF1
      end.
      { eapply (WF_local_gen _ _ _ _ (fill (FrR sib p cp kp vp) _) HWF);
          [reflexivity|reflexivity|nodup_goal|nodup_goal| |repr_goal].
        intros b Hb. cbn [nodes retree]. repeat rewrite lookup_insert_ne by (intros ->; done). done. }
      pose proof (InsertAdjust_spec _ _ _ _ _ _ _ _ HWF1) as Hfix.
      unfold bind at 1.
      destruct (rbTreePrivate_InsertAdjust _ _) as [[[] m2]| |]; [| |done].
      * destruct Hfix as (t' & HWF2 & Hio & Henv & Hc & Hrb). split; [done|].
        exists t'. split_and!; [done| |exact Henv|done|].
        -- rewrite Hio, inorder_plug. reflexivity.
        -- intros Hrbt. apply (Hrb 0%nat). by apply ins_inv_new.
      * intros Hc. apply Hfix. by eapply black_top_plug.
Qed.

End SearchInsert.

(** ** The delete fix-up *)

Section MoreMonad.
Context {K : Type}.

Lemma bind_modify_null {B} g (k : unit → M K B) (m : rbTreeManager_t K) :
  bind (modify g None) k m = Fault.
Proof. reflexivity. Qed.

Lemma WF_nodup (m : rbTreeManager_t K) t : WF m t → NoDup (addrs t).
Proof. by intros (_ & _ & H). Qed.

End MoreMonad.

(** Two pointers of a well-formed tree differ. *)
Ltac wf_neq :=
  lazymatch goal with
  | HWF : WF _ _ |- _ =>
      let ND := fresh "ND" in
      first [ pose proof (proj2 (WF_open _ _ _ HWF)) as ND
            | pose proof (WF_nodup _ _ HWF) as ND ];
      nodup_norm ND; ptr_neq
  end.

Ltac wf_refocus :=
  lazymatch goal with
  | HWF : WF _ _ |- _ => cbn [plug fill] in HWF
  end;
  repeat match goal with
  | Hlen : context [length (_ :: _)] |- _ => progress cbn [length] in Hlen
  end.

(** One step, splitting on the shape of the tree where the code looks at it. *)
Ltac rstep :=
  wsimpl;
  first
    [ wstep
    | lazymatch goal with
      | |- context [bind (modify _ None) _ _] => rewrite bind_modify_null
      | |- context [bind (set_color None _) _ _] => unfold set_color at 1; rewrite bind_modify_null
      | |- context [if decide (?x = ?y) then _ else _] =>
          first [ is_var x; destruct x
                | rewrite (decide_False (P := x = y)) by wf_neq ]
      | |- context [bool_decide (?c = ?d)] =>
          first [ is_var c; destruct c
                | rewrite (bool_decide_eq_true_2 (c = d)) by reflexivity
                | rewrite (bool_decide_eq_false_2 (c = d)) by discriminate ]
      | |- context [bind (_ (cpar ?C)) _ _] => is_var C; destruct C; wf_refocus
      | |- context [bind (_ (cpar ?C) _) _ _] => is_var C; destruct C; wf_refocus
      | |- context [bind (_ _ (cpar ?C)) _ _] => is_var C; destruct C; wf_refocus
      | |- context [bind (_ (Some (faddr ?F))) _ _] => is_var F; destruct F; wf_refocus
      | |- context [bind (_ (Some (faddr ?F)) _) _ _] => is_var F; destruct F; wf_refocus
      | |- context [bind (_ _ (Some (faddr ?F))) _ _] => is_var F; destruct F; wf_refocus
      | |- context [bind (_ (rootp ?t)) _ _] => is_var t; destruct t; wf_refocus
      | |- context [bind (_ (rootp ?t) _) _ _] => is_var t; destruct t; wf_refocus
      | |- context [bind (_ _ (rootp ?t)) _ _] => is_var t; destruct t; wf_refocus
      | |- context [match cpar ?C with Some _ => _ | None => _ end] =>
          is_var C; destruct C; wf_refocus
      | |- context [match rootp ?t with Some _ => _ | None => _ end] =>
          is_var t; destruct t; wf_refocus
      | HWF : WF ?m ?T |- context [rbTreePrivate_LeftRotate (Some ?a)] =>
          find_focus a T ltac:(fun C l c k0 v r => is_var r; destruct r; wf_refocus)
      | HWF : WF ?m ?T |- context [rbTreePrivate_RightRotate (Some ?a)] =>
          find_focus a T ltac:(fun C l c k0 v r => is_var l; destruct l; wf_refocus)
      end ];
  wsimpl.

Section DeleteFix.
Context {K : Type}.
Implicit Types (t l r s u : tree K) (h : gmap positive (rbTreeNode_t K))
  (m : rbTreeManager_t K) (C : list (@frame K)).

Lemma Readjust_post_mono m0 m t0 t o :
  same_env m0 m → inorder t = inorder t0 →
  (tcolor t0 = RB_BLACK → tcolor t = RB_BLACK) →
  Readjust_post m t o → Readjust_post m0 t0 o.
Proof.
  intros Henv Hio Hc. destruct o as [[[] m']| |]; simpl; [|done|done].
  intros (t' & HWF & Ht' & Henv' & Hc'). exists t'.
  split_and!; [done|congruence|by eapply same_env_trans|auto].
Qed.

Lemma DelBlack_readjust_null fuel m : DelBlack_readjust (S fuel) None m = Fault.
Proof. reflexivity. Qed.

Ltac root_goal :=
  cbn [plug fill];
  first [ apply tcolor_plug; cbn [tcolor]; congruence
        | cbn [tcolor]; congruence ].

Ltac rj_done :=
  lazymatch goal with
  | HWF : WF ?m ?T, Henv : same_env _ ?m |- Readjust_post _ _ (Done (_, ?m)) =>
      exists T; split_and!; [exact HWF | inorder_goal | exact Henv | root_goal]
  | |- Readjust_post _ _ Fault => exact I
  end.

Ltac rj_rec IH :=
  lazymatch goal with
  | HWF : WF ?m ?T, Henv : same_env _ ?m
    |- Readjust_post _ _ (DelBlack_readjust ?fuel (Some ?a) ?m) =>
      find_focus a T ltac:(fun C l c k v r =>
        eapply Readjust_post_mono;
          [ exact Henv | |
          | eapply (IH m C l a c k v r); [exact HWF | cbn [length]; lia] ];
          [ inorder_goal | root_goal ])
  | Hlen : (_ < S ?fuel)%nat |- Readjust_post _ _ (DelBlack_readjust ?fuel None ?m) =>
      destruct fuel; [cbn [length] in Hlen; lia | rewrite DelBlack_readjust_null; exact I]
  end.

Lemma DelBlack_readjust_spec fuel : ∀ m C ul un cu ku vu ur,
  WF m (plug C (Node ul un cu ku vu ur)) → (length C < fuel)%nat →
  Readjust_post m (plug C (Node ul un cu ku vu ur)) (DelBlack_readjust fuel (Some un) m).
Proof.
  induction fuel as [|fuel IH]; intros m C ul un cu ku vu ur HWF Hlen; [lia|].
  pose proof (same_env_refl m) as Henv.
  cbn [DelBlack_readjust].
  repeat rstep.
  all: unfold ret.
  all: try rj_done.
  all: try lazymatch goal with
       | |- context [DelBlack_readjust _ (rootp ?t) _] => destruct t; wf_refocus; cbn [rootp]
       end.
  all: rj_rec IH.
Qed.

End DeleteFix.

(** ** Removing a node *)

Section Free.
Context {K : Type}.
Implicit Types (t l r s u : tree K) (h : gmap positive (rbTreeNode_t K))
  (m : rbTreeManager_t K) (C : list (@frame K)).

Lemma FreeNodeMem_eq a n m :
  nodes m !! a = Some n →
  rbTreePrivate_FreeNodeMem (Some a) m =
    Done (tt, retree (relog m (resource n)) (root m) (delete a (nodes m))).
Proof.
  intros H. unfold rbTreePrivate_FreeNodeMem, relog, retree.
  rewrite bind_gets. destruct (rbTree_FreeRuleHandle m) eqn:E.
  - rewrite bind_assoc. erewrite bind_get by exact H.
    unfold bind, call_FreeRuleHandle, free. simpl. rewrite H, E. reflexivity.
  - rewrite bind_ret. unfold free. rewrite H, E. reflexivity.
Qed.

Lemma bind_FreeNodeMem {B} a n (k : unit → M K B) m :
  nodes m !! a = Some n →
  bind (rbTreePrivate_FreeNodeMem (Some a)) k m =
    k tt (retree (relog m (resource n)) (root m) (delete a (nodes m))).
Proof. intros H. unfold bind. by rewrite (FreeNodeMem_eq _ _ _ H). Qed.

Lemma same_env_relog m m' v : same_env m m' → same_env (relog m v) (relog m' v).
Proof. unfold same_env. intros ->. reflexivity. Qed.

End Free.

Ltac fstep :=
  first [ mstep
        | erewrite bind_FreeNodeMem by look
        | erewrite FreeNodeMem_eq by look ];
  msimpl.

Section Remove.
Context {K : Type}.
Implicit Types (t l r s u : tree K) (h : gmap positive (rbTreeNode_t K))
  (m : rbTreeManager_t K) (C : list (@frame K)).

(** A red leaf below a parent (rb_tree.c, line 420). *)
Lemma DelRed_spec m F C a c k v :
  WF m (plug (F :: C) (Node Leaf a c k v Leaf)) →
  ∃ m', rbTreePrivate_DelRedNodeAndAdjust (Some a) m = Done (tt, m')
        ∧ WF m' (plug (F :: C) Leaf) ∧ same_env (relog m v) m'.
Proof.
  intros HWF. cbn [plug] in *. pose proof (WF_open _ _ _ HWF) as (HR & ND).
  unfold rbTreePrivate_DelRedNodeAndAdjust. munfold.
  destruct F as [p cp kp vp sib|sib p cp kp vp]; cbn [fill Repr] in HR;
    destruct HR as (Hp & HR1 & HR2); nodup_norm ND.
  - destruct HR1 as (Ha & _ & _).
    eexists. split; [repeat fstep; reflexivity|]. split; [|env_goal].
    eapply (WF_local _ _ _ (fill (FrL p cp kp vp sib) _) (fill (FrL p cp kp vp sib) _) HWF);
      [reflexivity|reflexivity|nodup_goal|sub_goal|frame_goal|repr_goal].
  - destruct HR2 as (Ha & _ & _).
    eexists. split; [repeat fstep; reflexivity|]. split; [|env_goal].
    eapply (WF_local _ _ _ (fill (FrR sib p cp kp vp) _) (fill (FrR sib p cp kp vp) _) HWF);
      [reflexivity|reflexivity|nodup_goal|sub_goal|frame_goal|repr_goal].
Qed.

Lemma Readjust_post_Done m t m' t' :
  WF m' t' → inorder t' = inorder t → same_env m m' →
  (tcolor t = RB_BLACK → tcolor t' = RB_BLACK) →
  Readjust_post m t (Done (tt, m')).
Proof. intros. exists t'. done. Qed.

(** A black leaf below a parent (rb_tree.c, line 440). *)
Lemma DelBlack_spec m F C a c k v :
  WF m (plug (F :: C) (Node Leaf a c k v Leaf)) →
  Readjust_post (relog m v) (plug (F :: C) Leaf)
    (rbTreePrivate_DelBlackNodeAndAdjust (Some a) m).
Proof.
  intros HWF.
  assert (S (length C) < S (size (nodes m)))%nat as Hlen.
  { pose proof (WF_size _ _ HWF). pose proof (length_plug (F :: C) (Node Leaf a c k v Leaf)).
    simpl in *. lia. }
  cbn [plug] in *. pose proof (WF_open _ _ _ HWF) as (HR & ND).
  unfold rbTreePrivate_DelBlackNodeAndAdjust. rewrite bind_walk_bound. munfold.
  destruct F as [p cp kp vp sib|sib p cp kp vp]; cbn [fill Repr] in HR;
    destruct HR as (Hp & HR1 & HR2); nodup_norm ND.
  - destruct HR1 as (Ha & _ & _). repeat fstep.
    match goal with |- Readjust_post _ _ (match _ with Some _ => _ | None => _ end ?m1) =>
      assert (WF m1 (plug C (fill (FrL p cp kp vp sib) Leaf))) as HWF1;
      [|assert (same_env (relog m v) m1) as Henv1 by env_goal;
        set (mm := m1) in *; clearbody mm]
    end.
    { eapply (WF_local _ _ _ (fill (FrL p cp kp vp sib) _) (fill (FrL p cp kp vp sib) _) HWF);
        [reflexivity|reflexivity|nodup_goal|sub_goal|frame_goal|repr_goal]. }
    cbn [fill] in HWF1.
    destruct sib as [|sl w cw kw vw sr]; cbn [rootp].
    + by apply (Readjust_post_Done _ _ _ _ HWF1).
    + eapply Readjust_post_mono; [exact Henv1|reflexivity|done|].
      apply (DelBlack_readjust_spec _ mm (FrR Leaf p cp kp vp :: C)); [exact HWF1|].
      cbn [length]. lia.
  - destruct HR2 as (Ha & _ & _). repeat fstep.
    match goal with |- Readjust_post _ _ (match _ with Some _ => _ | None => _ end ?m1) =>
      assert (WF m1 (plug C (fill (FrR sib p cp kp vp) Leaf))) as HWF1;
      [|assert (same_env (relog m v) m1) as Henv1 by env_goal;
        set (mm := m1) in *; clearbody mm]
    end.
    { eapply (WF_local _ _ _ (fill (FrR sib p cp kp vp) _) (fill (FrR sib p cp kp vp) _) HWF);
        [reflexivity|reflexivity|nodup_goal|sub_goal|frame_goal|repr_goal]. }
    cbn [fill] in HWF1.
    destruct sib as [|sl w cw kw vw sr]; cbn [rootp].
    + by apply (Readjust_post_Done _ _ _ _ HWF1).
    + eapply Readjust_post_mono; [exact Henv1|reflexivity|done|].
      apply (DelBlack_readjust_spec _ mm (FrL p cp kp vp Leaf :: C)); [exact HWF1|].
      cbn [length]. lia.
Qed.

(** A node without children (rb_tree.c, line 394). *)
Lemma DelNoneChild_spec m C a c k v :
  WF m (plug C (Node Leaf a c k v Leaf)) →
  Readjust_post (relog m v) (plug C Leaf)
    (rbTreePrivate_DelNoneChildNodeAndAdjust (Some a) m).
Proof.
  intros HWF. pose proof (WF_focus _ _ _ _ _ _ _ _ HWF) as Ha.
  unfold rbTreePrivate_DelNoneChildNodeAndAdjust. munfold.
  destruct C as [|F C]; cbn [cpar faddr rootp] in Ha |- *.
  - repeat fstep. unfold set_root.
    apply (Readjust_post_Done _ _ _ Leaf); [|done|env_goal|done].
    split_and!; [done|done|constructor].
  - repeat fstep. destruct (decide (c = RB_BLACK)).
    + by apply (DelBlack_spec _ _ _ _ c k).
    + destruct (DelRed_spec _ _ _ _ _ _ _ HWF) as (m' & E & HWF' & Henv). rewrite E.
      by apply (Readjust_post_Done _ _ _ _ HWF').
Qed.

(** A node whose only child is the left one (rb_tree.c, line 718). *)
Lemma splice_left_spec m C chl b cb kb vb chr a c k v :
  WF m (plug C (Node (Node chl b cb kb vb chr) a c k v Leaf)) →
  ∃ m', splice (Some a) (Some b) m = Done (tt, m')
        ∧ WF m' (plug C (Node chl b RB_BLACK kb vb chr))
        ∧ same_env (relog m v) m'.
Proof.
  intros HWF. unfold splice. munfold.
  destruct C as [|F C].
  - simpl in HWF. destruct HWF as (Hroot & HR & ND). simpl in HR.
    destruct HR as (Ha & (Hb & Hl & Hr) & _). nodup_norm ND.
    eexists. split; [repeat fstep; reflexivity|]. split; [|env_goal].
    unfold WF; msimpl. split_and!; [reflexivity|repr_goal|nodup_goal].
  - cbn [plug] in *. pose proof (WF_open _ _ _ HWF) as (HR & ND).
    destruct F as [p cp kp vp sib|sib p cp kp vp]; cbn [fill Repr] in HR;
      destruct HR as (Hp & HR1 & HR2); nodup_norm ND.
    + destruct HR1 as (Ha & (Hb & Hl & Hr) & _).
      eexists. split; [repeat fstep; reflexivity|]. split; [|env_goal].
      eapply (WF_local _ _ _ (fill (FrL p cp kp vp sib) _) (fill (FrL p cp kp vp sib) _) HWF);
        [reflexivity|reflexivity|nodup_goal|sub_goal|frame_goal|repr_goal].
    + destruct HR2 as (Ha & (Hb & Hl & Hr) & _).
      eexists. split; [repeat fstep; reflexivity|]. split; [|env_goal].
      eapply (WF_local _ _ _ (fill (FrR sib p cp kp vp) _) (fill (FrR sib p cp kp vp) _) HWF);
        [reflexivity|reflexivity|nodup_goal|sub_goal|frame_goal|repr_goal].
Qed.

(** A node whose only child is the right one (rb_tree.c, line 737). *)
Lemma splice_right_spec m C chl b cb kb vb chr a c k v :
  WF m (plug C (Node Leaf a c k v (Node chl b cb kb vb chr))) →
  ∃ m', splice (Some a) (Some b) m = Done (tt, m')
        ∧ WF m' (plug C (Node chl b RB_BLACK kb vb chr))
        ∧ same_env (relog m v) m'.
Proof.
  intros HWF. unfold splice. munfold.
  destruct C as [|F C].
  - simpl in HWF. destruct HWF as (Hroot & HR & ND). simpl in HR.
    destruct HR as (Ha & _ & (Hb & Hl & Hr)). nodup_norm ND.
    eexists. split; [repeat fstep; reflexivity|]. split; [|env_goal].
    unfold WF; msimpl. split_and!; [reflexivity|repr_goal|nodup_goal].
  - cbn [plug] in *. pose proof (WF_open _ _ _ HWF) as (HR & ND).
    destruct F as [p cp kp vp sib|sib p cp kp vp]; cbn [fill Repr] in HR;
      destruct HR as (Hp & HR1 & HR2); nodup_norm ND.
    + destruct HR1 as (Ha & _ & (Hb & Hl & Hr)).
      eexists. split; [repeat fstep; reflexivity|]. split; [|env_goal].
      eapply (WF_local _ _ _ (fill (FrL p cp kp vp sib) _) (fill (FrL p cp kp vp sib) _) HWF);
        [reflexivity|reflexivity|nodup_goal|sub_goal|frame_goal|repr_goal].
    + destruct HR2 as (Ha & _ & (Hb & Hl & Hr)).
      eexists. split; [repeat fstep; reflexivity|]. split; [|env_goal].
      eapply (WF_local _ _ _ (fill (FrR sib p cp kp vp) _) (fill (FrR sib p cp kp vp) _) HWF);
        [reflexivity|reflexivity|nodup_goal|sub_goal|frame_goal|repr_goal].
Qed.

End Remove.

(** ** Deletion *)

Section Delete.
Context {K : Type}.
Implicit Types (t l r s u : tree K) (h : gmap positive (rbTreeNode_t K))
  (m : rbTreeManager_t K) (C : list (@frame K)).

Lemma ileft_app C1 C2 : ileft (C1 ++ C2) = ileft C2 ++ ileft C1.
Proof.
  induction C1 as [|F C1 IH]; simpl.
  - by rewrite app_nil_r.
  - destruct F; [done|]. by rewrite IH, <- !app_assoc.
Qed.

Lemma iright_app C1 C2 : iright (C1 ++ C2) = iright C1 ++ iright C2.
Proof.
  induction C1 as [|F C1 IH]; simpl.
  - done.
  - destruct F; [|done]. rewrite IH. by rewrite ?app_assoc.
Qed.

Lemma spine_plug t :
  t ≠ Leaf →
  plug (spine t).1 (spine t).2 = t ∧ ileft (spine t).1 = []
  ∧ ∃ am cm km vm rm, (spine t).2 = Node Leaf am cm km vm rm.
Proof.
  induction t as [|l IHl a c k v r _]; [done|]. intros _.
  destruct l as [|ll b cb kb vb lr].
  - simpl. split_and!; [done|done|]. eauto 10.
  - destruct IHl as (H1 & H2 & H3); [done|].
    change (spine (Node (Node ll b cb kb vb lr) a c k v r))
      with (let '(Cm, s) := spine (Node ll b cb kb vb lr) in (Cm ++ [FrL a c k v r], s)).
    destruct (spine (Node ll b cb kb vb lr)) as [Cm s]. simpl in *.
    split_and!; [|by rewrite ileft_app, H2|done].
    rewrite plug_app. simpl. by rewrite H1.
Qed.

Lemma leftmost_spec t : ∀ fuel m C,
  t ≠ Leaf → WF m (plug C t) → (height t ≤ fuel)%nat →
  leftmost fuel (rootp t) m = Done (rootp (spine t).2, m).
Proof.
  induction t as [|l IHl a c k v r _]; [done|]. intros fuel m C _ HWF Hfuel.
  destruct fuel as [|fuel]; [simpl in Hfuel; lia|]. simpl in Hfuel.
  cbn [leftmost rootp]. wstep.
  destruct l as [|ll b cb kb vb lr]; [reflexivity|].
  assert (leftmost fuel (rootp (Node ll b cb kb vb lr)) m
          = Done (rootp (spine (Node ll b cb kb vb lr)).2, m)) as E.
  { apply (IHl fuel m (FrL a c k v r :: C)); [done|exact HWF|simpl in *; lia]. }
  cbn [rootp] in E |- *. rewrite E.
  change (spine (Node (Node ll b cb kb vb lr) a c k v r))
    with (let '(Cm, s) := spine (Node ll b cb kb vb lr) in (Cm ++ [FrL a c k v r], s)).
  by destruct (spine (Node ll b cb kb vb lr)).
Qed.

(** The payload exchange of a two-child deletion (rb_tree.c, line 215). *)
Lemma Exchange_overrun m a b :
  ¬ (index_typde_size m ≤ rbTree_buffer m)%N →
  rbTreePrivate_ExchangeTwoNode (Some a) (Some b) m = Fault.
Proof.
  intros H. unfold rbTreePrivate_ExchangeTwoNode. rewrite !bind_gets.
  by rewrite decide_False.
Qed.

Lemma Exchange_spec m C0 l0 a0 c0 k0 v0 Cm am cm km vm rm :
  WF m (plug (Cm ++ FrR l0 a0 c0 k0 v0 :: C0) (Node Leaf am cm km vm rm)) →
  (index_typde_size m ≤ rbTree_buffer m)%N →
  ∃ m', rbTreePrivate_ExchangeTwoNode (Some a0) (Some am) m = Done (tt, m')
        ∧ WF m' (plug (Cm ++ FrR l0 a0 c0 km vm :: C0) (Node Leaf am cm k0 v0 rm))
        ∧ same_env m m'.
Proof.
  intros HWF Hroom. unfold rbTreePrivate_ExchangeTwoNode. rewrite !bind_gets.
  rewrite decide_True by done.
  assert (Hup : ∀ x y s, plug (Cm ++ FrR l0 a0 c0 x y :: C0) s
                         = plug C0 (Node l0 a0 c0 x y (plug Cm s))).
  { intros. by rewrite plug_app. }
  (* read both keys *)
  pose proof HWF as HWFa. rewrite Hup in HWFa.
  rewrite (bind_get _ _ _ _ _ (WF_focus _ _ _ _ _ _ _ _ HWFa)). simpl index.
  rewrite (bind_get _ _ _ _ _ (WF_focus _ _ _ _ _ _ _ _ HWF)). simpl index.
  (* write both keys *)
  destruct (set_index_spec _ _ _ _ _ _ _ _ km HWFa) as (m1 & E1 & HWF1 & Henv1).
  rewrite (bind_Done _ _ _ _ _ E1). clear E1 HWFa HWF.
  rewrite <- Hup in HWF1.
  destruct (set_index_spec _ _ _ _ _ _ _ _ k0 HWF1) as (m2 & E2 & HWF2 & Henv2).
  rewrite (bind_Done _ _ _ _ _ E2). clear E2 HWF1.
  (* read both resources *)
  pose proof HWF2 as HWFa. rewrite Hup in HWFa.
  rewrite (bind_get _ _ _ _ _ (WF_focus _ _ _ _ _ _ _ _ HWFa)). simpl resource.
  rewrite (bind_get _ _ _ _ _ (WF_focus _ _ _ _ _ _ _ _ HWF2)). simpl resource.
  (* write both resources *)
  destruct (set_resource_spec _ _ _ _ _ _ _ _ vm HWFa) as (m3 & E3 & HWF3 & Henv3).
  rewrite (bind_Done _ _ _ _ _ E3). clear E3 HWFa HWF2.
  rewrite <- Hup in HWF3.
  destruct (set_resource_spec _ _ _ _ _ _ _ _ v0 HWF3) as (m4 & E4 & HWF4 & Henv4).
  rewrite E4. exists m4. split_and!; [done|done|].
  eauto using same_env_trans.
Qed.

Lemma Delete_post_of_Readjust m0 m t0 t L v o :
  same_env (relog m0 v) (relog m v) → inorder t = L →
  (tcolor t0 = RB_BLACK → tcolor t = RB_BLACK) →
  Readjust_post (relog m v) t o → Delete_post m0 t0 L v o.
Proof.
  intros Henv Hio Hc. destruct o as [[[] m']| |]; simpl; [|done|done].
  intros (t' & HWF & Ht' & Henv' & Hc'). exists t'.
  split_and!; [done|congruence|by eapply same_env_trans|auto].
Qed.

Lemma Delete_post_Done m0 m t0 t L v m' :
  WF m' t → same_env (relog m0 v) (relog m v) → same_env (relog m v) m' →
  inorder t = L → (tcolor t0 = RB_BLACK → tcolor t = RB_BLACK) →
  Delete_post m0 t0 L v (Done (tt, m')).
Proof.
  intros HWF Henv Henv' Hio Hc. exists t.
  split_and!; [done|done|by eapply same_env_trans|done].
Qed.

(** Deleting the node a search has found (rb_tree.c, line 686). *)
Lemma DelNode_body_spec m t key C l a c k v r :
  WF m t →
  locate (rbTree_MatchRuleHandle m) key [] t = Some (C, Node l a c k v r) →
  Delete_post m t (ileft C ++ inorder l ++ inorder r ++ iright C) v
    (DelNode_body (Some key) m).
Proof.
  intros HWF Hloc. unfold DelNode_body.
  rewrite (bind_Done _ _ _ _ _ (Search_spec m t key HWF)). rewrite Hloc.
  cbn [found_ptr rootp].
  apply locate_some in Hloc as (Ht & _). simpl in Ht. subst t.
  pose proof (same_env_refl m) as Henv.
  do 2 wstep.
  destruct l as [|ll b cb kb vb lr]; destruct r as [|rl d cd kd vd rr]; cbn [rootp].
  - (* no child *)
    rewrite bind_ret. do 2 wstep.
    eapply Delete_post_of_Readjust;
      [apply same_env_refl| | |by eapply DelNoneChild_spec].
    + rewrite inorder_plug. reflexivity.
    + by apply tcolor_plug.
  - (* right child only *)
    rewrite bind_ret. do 2 wstep.
    destruct (splice_right_spec _ _ _ _ _ _ _ _ _ _ _ _ HWF) as (m' & E & HWF' & Henv').
    rewrite E. eapply Delete_post_Done; [exact HWF'|apply same_env_refl|exact Henv'| |].
    + rewrite inorder_plug. reflexivity.
    + by apply tcolor_plug.
  - (* left child only *)
    rewrite bind_ret. do 1 wstep.
    destruct (splice_left_spec _ _ _ _ _ _ _ _ _ _ _ _ HWF) as (m' & E & HWF' & Henv').
    rewrite E. eapply Delete_post_Done; [exact HWF'|apply same_env_refl|exact Henv'| |].
    + rewrite inorder_plug. simpl. reflexivity.
    + by apply tcolor_plug.
  - (* two children: exchange with the in-order successor, remove that *)
    set (R := Node rl d cd kd vd rr) in *.
    destruct (spine_plug R) as (H1 & H2 & am & cm & km & vm & rm & H3); [done|].
    rewrite !bind_assoc, bind_walk_bound, !bind_assoc.
    assert (leftmost (S (size (nodes m))) (Some d) m = Done (Some am, m)) as E.
    { pose proof (leftmost_spec R (S (size (nodes m))) m (FrR (Node ll b cb kb vb lr) a c k v :: C))
        as E. rewrite H3 in E. apply E; [done|exact HWF|].
      pose proof (WF_size _ _ HWF) as Hs. pose proof (height_le_size R) as Hh.
      pose proof (length_plug C (Node (Node ll b cb kb vb lr) a c k v R)) as Hl.
      change (addrs (Node (Node ll b cb kb vb lr) a c k v R))
        with (addrs (Node ll b cb kb vb lr) ++ a :: addrs R) in Hl.
      rewrite length_app in Hl. cbn [length] in Hl. lia. }
    rewrite (bind_Done _ _ _ _ _ E). clear E. cbn beta.
    destruct (spine R) as [Cm s]. simpl in H1, H2, H3. subst s.
    assert (HWFm : WF m (plug (Cm ++ FrR (Node ll b cb kb vb lr) a c k v :: C)
                           (Node Leaf am cm km vm rm))).
    { rewrite plug_app. simpl. by rewrite H1. }
    rewrite bind_assoc.
    destruct (decide (index_typde_size m ≤ rbTree_buffer m)%N) as [Hroom|Hroom];
      [|by rewrite (bind_Fault _ _ _ (Exchange_overrun _ _ _ Hroom))].
    destruct (Exchange_spec _ _ _ _ _ _ _ _ _ _ _ _ _ HWFm Hroom) as (m1 & E & HWF1 & Henv1).
    rewrite (bind_Done _ _ _ _ _ E). clear E HWF HWFm Henv. cbn beta.
    rewrite bind_ret.
    rewrite (bind_get _ _ _ _ _ (WF_focus _ _ _ _ _ _ _ _ HWF1)). cbn [left rootp].
    rewrite (bind_get _ _ _ _ _ (WF_focus _ _ _ _ _ _ _ _ HWF1)). cbn [right].
    assert (Hio : ileft (Cm ++ FrR (Node ll b cb kb vb lr) a c km vm :: C)
                  ++ inorder rm ++ iright (Cm ++ FrR (Node ll b cb kb vb lr) a c km vm :: C)
                  = ileft C ++ inorder (Node ll b cb kb vb lr) ++ inorder R ++ iright C).
    { rewrite ileft_app, iright_app, H2, <- H1, inorder_plug, H2. simpl.
      repeat first [ rewrite <- app_assoc | progress cbn [app] ]. reflexivity. }
    assert (Hcol : ∀ X, tcolor (plug C (Node (Node ll b cb kb vb lr) a c k v R)) = RB_BLACK →
              tcolor (plug (Cm ++ FrR (Node ll b cb kb vb lr) a c km vm :: C) X) = RB_BLACK).
    { intros X. rewrite plug_app. simpl. by apply tcolor_plug. }
    destruct rm as [|ml e ce ke ve mr]; cbn [rootp].
    + eapply Delete_post_of_Readjust;
        [by apply same_env_relog| |apply Hcol|by eapply DelNoneChild_spec].
      rewrite inorder_plug. exact Hio.
    + destruct (splice_right_spec _ _ _ _ _ _ _ _ _ _ _ _ HWF1) as (m' & E & HWF' & Henv').
      rewrite E.
      eapply Delete_post_Done; [exact HWF'|by apply same_env_relog|exact Henv'| |apply Hcol].
      rewrite inorder_plug. exact Hio.
Qed.

(** Deleting a key no entry compares equal to. *)
Lemma DelNode_body_absent m t key :
  WF m t → locate (rbTree_MatchRuleHandle m) key [] t = None →
  DelNode_body (Some key) m =
    Done (tt, mkManager (root m) (index_typde_size m) (rbTree_MatchRuleHandle m)
                (rbTree_FreeRuleHandle m) (rbTree_buffer m) (- RBTREE_ERRNO_NODE_INEXIT)
                (nodes m) (released m)).
Proof.
  intros HWF Hloc. unfold DelNode_body.
  rewrite (bind_Done _ _ _ _ _ (Search_spec m t key HWF)). by rewrite Hloc.
Qed.

End Delete.

(** ** The public operations *)

Section Public.
Context {K : Type}.
Implicit Types (t l r s u : tree K) (h : gmap positive (rbTreeNode_t K))
  (m : rbTreeManager_t K) (C : list (@frame K)).

Lemma same_env_cmp m m' :
  same_env m m' → rbTree_MatchRuleHandle m' = rbTree_MatchRuleHandle m.
Proof. unfold same_env. by intros ->. Qed.

Lemma same_env_relog_cmp m m' v :
  same_env (relog m v) m' → rbTree_MatchRuleHandle m' = rbTree_MatchRuleHandle m.
Proof. unfold same_env. by intros ->. Qed.

Lemma in_tree_focus t a :
  a ∈ addrs t → ∃ C l c k v r, t = plug C (Node l a c k v r).
Proof.
  assert (∀ C, a ∈ addrs t → ∃ C' l c k v r, plug C t = plug C' (Node l a c k v r)) as H.
  { induction t as [|l IHl b cb kb vb r IHr]; intros C; simpl.
    - intros H. by apply elem_of_nil in H.
    - rewrite elem_of_app, elem_of_cons. intros [H|[->|H]].
      + destruct (IHl (FrL b cb kb vb r :: C) H) as (C' & ? & ? & ? & ? & ? & E).
        simpl in E. eauto 10.
      + exists C. eauto 10.
      + destruct (IHr (FrR l b cb kb vb :: C) H) as (C' & ? & ? & ? & ? & ? & E).
        simpl in E. eauto 10. }
  intros Ha. apply (H [] Ha).
Qed.

Lemma Search_found m t key e :
  cmp_antisym (rbTree_MatchRuleHandle m) → cmp_trans (rbTree_MatchRuleHandle m) →
  WF m t → Ordered (rbTree_MatchRuleHandle m) (inorder t) →
  e ∈ inorder t → rbTree_MatchRuleHandle m key e.1 = 0 →
  rbTree_Search (Some m) (Some key) = Done (e.2, Some m).
Proof.
  intros Ha Ht HWF Hord He Hz. unfold rbTree_Search.
  rewrite (Search_body_spec m t key HWF).
  destruct (locate_found _ Ha Ht key t [] e Hord He Hz) as (C' & l & a & c & r & ->).
  reflexivity.
Qed.

Lemma Search_absent m t key :
  WF m t → (∀ e, e ∈ inorder t → rbTree_MatchRuleHandle m key e.1 ≠ 0) →
  rbTree_Search (Some m) (Some key) = Done (None, Some m).
Proof.
  intros HWF Hno. unfold rbTree_Search.
  rewrite (Search_body_spec m t key HWF). by rewrite locate_none.
Qed.

Lemma Ordered_remove cmp (L1 L2 : list (K * ptr)) e :
  Ordered cmp (L1 ++ e :: L2) → Ordered cmp (L1 ++ L2).
Proof.
  rewrite !Ordered_app, Ordered_cons. intros (H1 & H2 & H3 & H4).
  split_and!; [|done|done]. intros x y Hx Hy. apply H1; [done|]. by right.
Qed.

Lemma Ordered_distinct cmp (L1 L2 : list (K * ptr)) e e' :
  cmp_antisym cmp →
  Ordered cmp (L1 ++ e :: L2) → e' ∈ L1 ++ L2 → cmp e'.1 e.1 ≠ 0.
Proof.
  intros Ha. rewrite Ordered_app, Ordered_cons. intros (H1 & H2 & H3 & H4) Hin.
  apply elem_of_app in Hin as [Hin|Hin].
  - specialize (H1 e' e Hin (list_elem_of_here _ _)). lia.
  - specialize (H3 e' Hin). specialize (Ha e.1 e'.1). lia.
Qed.

End Public.

(** ** The public functions on every well-formed tree *)

Section Properties.
Context {K : Type}.
Implicit Types (t l r s u : tree K) (h : gmap positive (rbTreeNode_t K))
  (m : rbTreeManager_t K) (C : list (@frame K)).

(** What an insertion returns, by cases on the descent and on [malloc]. *)
Lemma AddNode_cases m t key res block :
  WF m t → (∀ a, block = Some a → nodes m !! a = None) →
  match rbTree_AddNode (Some m) (Some key) res block with
  | Done (e, Some m') =>
      (e = NO_ERROR ∧ ∃ C' t', insert_path (rbTree_MatchRuleHandle m) key [] t = Some C'
         ∧ WF m' t' ∧ inorder t' = ileft C' ++ (key, res) :: iright C'
         ∧ same_env m m' ∧ tcolor t' = RB_BLACK ∧ (red_black t → red_black t'))
      ∨ (e = - RBTREE_ERRNO_DUP_VAL ∧ m' = with_errorCode m e
         ∧ insert_path (rbTree_MatchRuleHandle m) key [] t = None)
      ∨ (e = - RBTREE_ERRNO_OUT_OF_MEM ∧ m' = with_errorCode m e ∧ block = None)
  | Done (_, None) => False
  | Fault => tcolor t ≠ RB_BLACK
  | Timeout => False
  end.
Proof.
  intros HWF Hblock. unfold rbTree_AddNode.
  destruct (insert_path (rbTree_MatchRuleHandle m) key [] t) as [C'|] eqn:Hp.
  - destruct block as [a|].
    + pose proof (AddNode_body_spec m t key res a C' HWF Hp (Hblock a eq_refl)) as H.
      destruct (AddNode_body _ _ _ m) as [[e m']| |]; [|done|done].
      destruct H as (-> & t' & ? & ? & ? & ? & ?). left. split; [done|]. eauto 10.
    + rewrite (AddNode_body_oom m t key res C' HWF Hp). right. right. done.
  - rewrite (AddNode_body_dup m t key res block HWF Hp). right. left. done.
Qed.

(** C5: after a successful [rbTree_AddNode (k, v)], [rbTree_Search k]
    returns exactly [v], for every comparator that is antisymmetric up to
    sign and transitive, although the insert path calls
    [compare (node_key, candidate)] and the search path
    [compare (candidate, node_key)]. *)
Theorem C5_insert_then_search m t key res block m' :
  cmp_antisym (rbTree_MatchRuleHandle m) → cmp_trans (rbTree_MatchRuleHandle m) →
  WF m t → Ordered (rbTree_MatchRuleHandle m) (inorder t) →
  (∀ a, block = Some a → nodes m !! a = None) →
  rbTree_AddNode (Some m) (Some key) res block = Done (NO_ERROR, Some m') →
  rbTree_Search (Some m') (Some key) = Done (res, Some m').
Proof.
  intros Ha Ht HWF Hord Hblock Hadd.
  pose proof (AddNode_cases m t key res block HWF Hblock) as H. rewrite Hadd in H.
  destruct H as [(_ & C' & t' & Hp & HWF' & Hio & Henv & _ & _)|[(E & _)|(E & _)]];
    [|discriminate E|discriminate E].
  pose proof (same_env_cmp _ _ Henv) as Hcmp.
  apply (Search_found m' t' key (key, res)); rewrite ?Hcmp; try done.
  - rewrite Hio. apply Ordered_insert; [done|done| |].
    + eapply insert_path_went; [exact Hp|constructor].
    + apply insert_path_plug in Hp. simpl in Hp. subst t.
      rewrite inorder_plug in Hord. exact Hord.
  - rewrite Hio. apply elem_of_app. right. left.
  - simpl. by apply cmp_refl.
Qed.

(** C9: for a non-null key [rbTree_Search] returns the resource of the one
    entry whose key the comparator reports equal, and the null pointer when
    there is none; the manager and its memory are returned as they were, and
    only a null key updates the diagnostic code. *)
Theorem C9_search_is_a_pure_lookup m t key :
  cmp_antisym (rbTree_MatchRuleHandle m) → cmp_trans (rbTree_MatchRuleHandle m) →
  WF m t → Ordered (rbTree_MatchRuleHandle m) (inorder t) →
  (∀ e, e ∈ inorder t → rbTree_MatchRuleHandle m key e.1 = 0 →
     rbTree_Search (Some m) (Some key) = Done (e.2, Some m)
     ∧ ∀ e', e' ∈ inorder t → rbTree_MatchRuleHandle m key e'.1 = 0 → e' = e)
  ∧ ((∀ e, e ∈ inorder t → rbTree_MatchRuleHandle m key e.1 ≠ 0) →
     rbTree_Search (Some m) (Some key) = Done (RB_TREE_NULL_PTR, Some m))
  ∧ rbTree_Search (Some m) None
      = Done (RB_TREE_NULL_PTR, Some (with_errorCode m (- RBTREE_ERRNO_ARG_ERR)))
  ∧ nodes (with_errorCode m (- RBTREE_ERRNO_ARG_ERR)) = nodes m
  ∧ root (with_errorCode m (- RBTREE_ERRNO_ARG_ERR)) = root m.
Proof.
  intros Ha Ht HWF Hord. split_and!; [| |reflexivity|reflexivity|reflexivity].
  - intros e He Hz. split; [by eapply Search_found|].
    intros e' He' Hz'.
    destruct (locate_found _ Ha Ht key t [] e Hord He Hz) as (C1 & l1 & a1 & c1 & r1 & E1).
    destruct (locate_found _ Ha Ht key t [] e' Hord He' Hz') as (C2 & l2 & a2 & c2 & r2 & E2).
    rewrite E1 in E2. injection E2 as _ _ _ _ Hk Hv _.
    destruct e, e'. simpl in *. congruence.
  - intros Hno. by eapply Search_absent.
Qed.

(** C3: inserting a key that is already present fails with the duplicate
    code and deleting an absent key fails with the not-found code; in both
    cases the manager is returned with the diagnostic code set and nothing
    else changed: same root, same node memory (no node allocated, none
    freed, no field rewritten), same cleanup record. *)
Theorem C3_failed_operations_change_nothing m t key res block :
  cmp_antisym (rbTree_MatchRuleHandle m) → cmp_trans (rbTree_MatchRuleHandle m) →
  WF m t → Ordered (rbTree_MatchRuleHandle m) (inorder t) →
  ((∃ e, e ∈ inorder t ∧ rbTree_MatchRuleHandle m e.1 key = 0) →
     rbTree_AddNode (Some m) (Some key) res block
       = Done (- RBTREE_ERRNO_DUP_VAL, Some (with_errorCode m (- RBTREE_ERRNO_DUP_VAL))))
  ∧ ((∀ e, e ∈ inorder t → rbTree_MatchRuleHandle m key e.1 ≠ 0) →
     rbTree_DelNode (Some m) (Some key)
       = Done (Some (with_errorCode m (- RBTREE_ERRNO_NODE_INEXIT))))
  ∧ (∀ e, root (with_errorCode m e) = root m ∧ nodes (with_errorCode m e) = nodes m
          ∧ released (with_errorCode m e) = released m ∧ WF (with_errorCode m e) t).
Proof.
  intros Ha Ht HWF Hord. split_and!.
  - intros (e & He & Hz). unfold rbTree_AddNode.
    rewrite (AddNode_body_dup m t key res block HWF); [done|].
    by eapply insert_path_dup.
  - intros Hno. unfold rbTree_DelNode.
    rewrite (DelNode_body_absent m t key HWF); [done|]. by apply locate_none.
  - intros e. split_and!; done.
Qed.

(** What a deletion of a present key returns. *)
Lemma DelNode_present m t key e m' :
  cmp_antisym (rbTree_MatchRuleHandle m) → cmp_trans (rbTree_MatchRuleHandle m) →
  WF m t → Ordered (rbTree_MatchRuleHandle m) (inorder t) →
  e ∈ inorder t → rbTree_MatchRuleHandle m key e.1 = 0 →
  rbTree_DelNode (Some m) (Some key) = Done (Some m') →
  ∃ t' L1 L2, WF m' t' ∧ inorder t = L1 ++ e :: L2 ∧ inorder t' = L1 ++ L2
              ∧ same_env (relog m e.2) m' ∧ (tcolor t = RB_BLACK → tcolor t' = RB_BLACK).
Proof.
  intros Ha Ht HWF Hord He Hz Hdel.
  destruct (locate_found _ Ha Ht key t [] e Hord He Hz) as (C & l & a & c & r & Hloc).
  pose proof (DelNode_body_spec m t key C l a c e.1 e.2 r HWF Hloc) as H.
  unfold rbTree_DelNode in Hdel.
  destruct (DelNode_body (Some key) m) as [[[] m1]| |]; [|done|done].
  injection Hdel as ->. destruct H as (t' & HWF' & Hio & Henv & Hc).
  apply locate_some in Hloc as (Hplug & _). simpl in Hplug.
  exists t', (ileft C ++ inorder l), (inorder r ++ iright C). split_and!; [done| | |done|done].
  - rewrite <- Hplug, inorder_plug. simpl. destruct e. simpl.
    by rewrite <- !app_assoc.
  - by rewrite Hio, <- !app_assoc.
Qed.

(** C2: after [rbTree_DelNode k] has returned for a key [k] that was
    present, [rbTree_Search k] returns the null pointer and every other
    entry is still found with its resource; the in-order sequence is the old
    one without the deleted entry (also when the deleted node had two
    children), and deleting the only entry leaves the empty tree, in which
    every search returns the null pointer. *)
Theorem C2_delete_then_search m t key e m' :
  cmp_antisym (rbTree_MatchRuleHandle m) → cmp_trans (rbTree_MatchRuleHandle m) →
  WF m t → Ordered (rbTree_MatchRuleHandle m) (inorder t) →
  e ∈ inorder t → rbTree_MatchRuleHandle m key e.1 = 0 →
  rbTree_DelNode (Some m) (Some key) = Done (Some m') →
  rbTree_Search (Some m') (Some key) = Done (RB_TREE_NULL_PTR, Some m')
  ∧ (∀ e', e' ∈ inorder t → e' ≠ e →
       rbTree_Search (Some m') (Some e'.1) = Done (e'.2, Some m'))
  ∧ (∃ t' L1 L2, WF m' t' ∧ inorder t = L1 ++ e :: L2 ∧ inorder t' = L1 ++ L2)
  ∧ (inorder t = [e] →
       root m' = RB_TREE_NULL_PTR
       ∧ ∀ key', rbTree_Search (Some m') (Some key') = Done (RB_TREE_NULL_PTR, Some m')).
Proof.
  intros Ha Ht HWF Hord He Hz Hdel.
  destruct (DelNode_present m t key e m' Ha Ht HWF Hord He Hz Hdel)
    as (t' & L1 & L2 & HWF' & Hio & Hio' & Henv & _).
  pose proof (same_env_relog_cmp _ _ _ Henv) as Hcmp.
  rewrite Hio in Hord.
  assert (Ordered (rbTree_MatchRuleHandle m') (inorder t')) as Hord'.
  { rewrite Hcmp, Hio'. by eapply Ordered_remove. }
  split_and!.
  - apply (Search_absent m' t'); [done|]. intros e' He'. rewrite Hcmp.
    rewrite Hio' in He'. intros Hz'.
    apply (Ordered_distinct _ _ _ _ _ Ha Hord He').
    apply (cmp_eq_trans _ Ha Ht _ key); [|done]. by apply cmp_eq_sym.
  - intros e' He' Hne. apply (Search_found m' t'); rewrite ?Hcmp; try done.
    + by rewrite <- Hcmp.
    + rewrite Hio'. rewrite Hio in He'.
      rewrite elem_of_app, elem_of_cons in He'. rewrite elem_of_app. tauto.
    + by apply cmp_refl.
  - eauto 10.
  - intros E. rewrite E in Hio.
    assert (L1 = [] ∧ L2 = []) as (-> & ->).
    { destruct L1 as [|x L1]; [by injection Hio as <-|].
      injection Hio as _ Hio. by destruct L1. }
    simpl in Hio'. destruct t' as [|? ? ? ? ? ?]; [|simpl in Hio'; by apply app_eq_nil in Hio' as [_ ?]].
    destruct HWF' as (Hroot & _). split; [done|].
    intros key'. apply (Search_absent m' Leaf); [by split_and!; [done|done|constructor]|].
    intros e' He'. by apply elem_of_nil in He'.
Qed.

(** C10: on every well-formed tree both fix-up loops end within the step
    budget, wherever in the tree they are started: the insert fix-up and the
    loop of the delete fix-up never run out of steps, nor do the removal of
    a black leaf and [rbTree_DelNode] as a whole; and when the root is
    black, an insertion of a new key whose node has been allocated completes
    and returns [NO_ERROR]. *)
Theorem C10_fixups_terminate m t :
  WF m t →
  (∀ x, x ∈ addrs t → rbTreePrivate_InsertAdjust (Some x) m ≠ Timeout)
  ∧ (∀ x fuel, x ∈ addrs t → (size (nodes m) < fuel)%nat →
       InsertAdjust_loop fuel (Some x) m ≠ Timeout
       ∧ DelBlack_readjust fuel (Some x) m ≠ Timeout)
  ∧ (∀ F C a c k v, t = plug (F :: C) (Node Leaf a c k v Leaf) →
       rbTreePrivate_DelBlackNodeAndAdjust (Some a) m ≠ Timeout)
  ∧ (∀ key, rbTree_DelNode (Some m) key ≠ Timeout)
  ∧ (tcolor t = RB_BLACK →
     ∀ key res a,
       (∀ e, e ∈ inorder t → rbTree_MatchRuleHandle m e.1 key ≠ 0) →
       nodes m !! a = None →
       ∃ m', rbTree_AddNode (Some m) (Some key) res (Some a) = Done (NO_ERROR, Some m')).
Proof.
  intros HWF. split_and!.
  - intros x Hx. destruct (in_tree_focus t x Hx) as (C & l & c & k & v & r & ->).
    pose proof (InsertAdjust_spec _ _ _ _ _ _ _ _ HWF) as H. intros E. by rewrite E in H.
  - intros x fuel Hx Hfuel. destruct (in_tree_focus t x Hx) as (C & l & c & k & v & r & ->).
    assert (length C < fuel)%nat as Hlen.
    { pose proof (WF_size _ _ HWF). pose proof (length_plug C (Node l x c k v r)).
      simpl in *. rewrite length_app in *. simpl in *. lia. }
    split; intros E.
    + pose proof (InsertAdjust_loop_spec fuel _ _ _ _ _ _ _ _ HWF Hlen) as H.
      by rewrite E in H.
    + pose proof (DelBlack_readjust_spec fuel _ _ _ _ _ _ _ _ HWF Hlen) as H.
      by rewrite E in H.
  - intros F C a c k v -> E.
    pose proof (DelBlack_spec _ _ _ _ _ _ _ HWF) as H. by rewrite E in H.
  - intros [key|]; [|done]. unfold rbTree_DelNode.
    destruct (locate (rbTree_MatchRuleHandle m) key [] t) as [[C s]|] eqn:Hloc.
    + pose proof Hloc as Hloc'.
      apply locate_some in Hloc' as (Hplug & l & a & c & k & v & r & -> & Hz).
      pose proof (DelNode_body_spec m t key C l a c k v r HWF Hloc) as H.
      by destruct (DelNode_body (Some key) m) as [[[] m1]| |].
    + by rewrite (DelNode_body_absent m t key HWF Hloc).
  - intros Hc key res a Hnew Ha.
    assert (∀ a0, Some a = Some a0 → nodes m !! a0 = None) as Hblock by (by intros ? [= <-]).
    pose proof (AddNode_cases m t key res (Some a) HWF Hblock) as H.
    destruct (rbTree_AddNode _ _ _ _) as [[e [m'|]]| |]; [|done|done|done].
    destruct H as [(-> & _)|[(_ & _ & Hp)|(_ & _ & [=])]]; [eauto|].
    apply insert_path_none in Hp as (e' & He' & Hz). by destruct (Hnew e' He').
Qed.

(** What one insertion or deletion keeps. *)
Lemma mutations_keep m t :
  cmp_antisym (rbTree_MatchRuleHandle m) → cmp_trans (rbTree_MatchRuleHandle m) →
  WF m t → Ordered (rbTree_MatchRuleHandle m) (inorder t) → tcolor t = RB_BLACK →
  (∀ key res block e m',
     (∀ a, block = Some a → nodes m !! a = None) →
     rbTree_AddNode (Some m) key res block = Done (e, Some m') →
     rbTree_MatchRuleHandle m' = rbTree_MatchRuleHandle m
     ∧ ∃ t', WF m' t' ∧ Ordered (rbTree_MatchRuleHandle m) (inorder t')
             ∧ tcolor t' = RB_BLACK ∧ (red_black t → red_black t'))
  ∧ (∀ key m',
     rbTree_DelNode (Some m) key = Done (Some m') →
     rbTree_MatchRuleHandle m' = rbTree_MatchRuleHandle m
     ∧ ∃ t', WF m' t' ∧ Ordered (rbTree_MatchRuleHandle m) (inorder t')
             ∧ tcolor t' = RB_BLACK).
Proof.
  intros Ha Ht HWF Hord Hc. split.
  - intros [key|] res block e m' Hblock Hadd.
    + pose proof (AddNode_cases m t key res block HWF Hblock) as H. rewrite Hadd in H.
      destruct H as [(_ & C' & t' & Hp & HWF' & Hio & Henv & Hc' & Hrb)
                    |[(_ & -> & _)|(_ & -> & _)]].
      * split; [by apply same_env_cmp|]. exists t'. split_and!; [done| |done|done].
        rewrite Hio. apply Ordered_insert; [done|done| |].
        -- eapply insert_path_went; [exact Hp|constructor].
        -- apply insert_path_plug in Hp. simpl in Hp. subst t.
           rewrite inorder_plug in Hord. exact Hord.
      * split; [done|]. exists t. done.
      * split; [done|]. exists t. done.
    + injection Hadd as _ <-. split; [done|]. exists t. done.
  - intros [key|] m' Hdel.
    + unfold rbTree_DelNode in Hdel.
      destruct (locate (rbTree_MatchRuleHandle m) key [] t) as [[C s]|] eqn:Hloc.
      * pose proof Hloc as Hloc'.
        apply locate_some in Hloc' as (Hplug & l & a & c & k & v & r & -> & Hz).
        pose proof (DelNode_body_spec m t key C l a c k v r HWF Hloc) as H.
        destruct (DelNode_body (Some key) m) as [[[] m1]| |]; [|done|done].
        injection Hdel as ->. destruct H as (t' & HWF' & Hio & Henv & Hc').
        split; [by eapply same_env_relog_cmp|].
        exists t'. split_and!; [done| |auto].
        simpl in Hplug. rewrite <- Hplug, inorder_plug in Hord. simpl in Hord.
        rewrite Hio. rewrite <- app_assoc in Hord. simpl in Hord.
        rewrite app_assoc in Hord. apply Ordered_remove in Hord.
        by rewrite <- app_assoc in Hord.
      * rewrite (DelNode_body_absent m t key HWF Hloc) in Hdel.
        injection Hdel as <-. split; [done|]. exists t. done.
    + injection Hdel as <-. split; [done|]. exists t. done.
Qed.

(** Every reachable manager holds a well-formed tree with a black root and
    in-order keys that are strictly decreasing for its comparator. *)
Lemma reachable_inv (cmp : K → K → Z) m :
  cmp_antisym cmp → cmp_trans cmp → reachable cmp m →
  rbTree_MatchRuleHandle m = cmp
  ∧ ∃ t, WF m t ∧ Ordered cmp (inorder t) ∧ tcolor t = RB_BLACK.
Proof.
  intros Ha Ht Hreach.
  induction Hreach as [su ts fr m Hc|m key res block e m' _ IH Hblock Hadd
                      |m key m' _ IH Hdel].
  - unfold rbTree_Create in Hc. simpl in Hc. case_bool_decide; [done|].
    injection Hc as <-. split; [done|]. exists Leaf.
    split_and!; [by split_and!; [| |constructor]|constructor|done].
  - destruct IH as (<- & t & HWF & Hord & Hc).
    destruct (mutations_keep m t Ha Ht HWF Hord Hc) as (H & _).
    destruct (H key res block e m' Hblock Hadd) as (E & t' & ? & ? & ? & _).
    split; [done|]. eauto.
  - destruct IH as (<- & t & HWF & Hord & Hc).
    destruct (mutations_keep m t Ha Ht HWF Hord Hc) as (_ & H).
    destruct (H key m' Hdel) as (E & t' & ? & ? & ?).
    split; [done|]. eauto.
Qed.

(** C1, as the code has it: every manager reachable by [rbTree_Create],
    [rbTree_AddNode] and [rbTree_DelNode] holds a well-formed tree whose root
    (if present) is black and whose in-order keys are strictly decreasing for
    the comparator (every key compares greater than all later ones); and when
    that tree meets the colour conditions (every node red or black, no red
    node with a red child, the same number of black nodes on every path), the
    tree after an [rbTree_AddNode] that returns meets them again. *)
Theorem C1_reachable_trees (cmp : K → K → Z) m :
  cmp_antisym cmp → cmp_trans cmp → reachable cmp m →
  ∃ t, WF m t ∧ tcolor t = RB_BLACK ∧ Ordered cmp (inorder t)
       ∧ ∀ key res block e m',
           (∀ a, block = Some a → nodes m !! a = None) →
           rbTree_AddNode (Some m) key res block = Done (e, Some m') →
           red_black t → ∃ t', WF m' t' ∧ red_black t'.
Proof.
  intros Ha Ht Hreach.
  destruct (reachable_inv cmp m Ha Ht Hreach) as (<- & t & HWF & Hord & Hc).
  exists t. split_and!; [done|done|done|].
  intros key res block e m' Hblock Hadd Hrb.
  destruct (mutations_keep m t Ha Ht HWF Hord Hc) as (H & _).
  destruct (H key res block e m' Hblock Hadd) as (_ & t' & ? & _ & _ & Hrb').
  exists t'. auto.
Qed.

End Properties.

(** ** Concrete runs *)

(** The side conditions of the general theorems, at the managers of the
    scenario: the comparator contract, the shape of the memory and the
    order of the keys are settled by evaluation. *)
Ltac scenario_contract :=
  lazymatch goal with
  | |- cmp_antisym _ => intros a b; change (Z.sgn (b - a) = - Z.sgn (a - b)); lia
  | |- cmp_trans _ =>
      intros a b c; change (a - b ≤ 0 → b - c ≤ 0 → a - c ≤ 0); lia
  end.

Ltac scenario_shape :=
  lazymatch goal with
  | |- WF _ _ =>
      split_and!; [vm_compute; reflexivity | simpl; split_and!; try exact I; vm_compute; reflexivity
                  | apply (bool_decide_unpack _); vm_compute; exact I]
  | |- Ordered _ _ =>
      unfold Ordered; simpl;
      repeat first [ apply SSorted_nil | apply SSorted_cons | apply Forall_nil_2
                   | apply Forall_cons_2 ];
      vm_compute; reflexivity
  end.

Ltac scenario := first [ scenario_contract | scenario_shape ].

(** One more insertion on a reachable manager of the scenario. *)
Ltac reach_insert H k a :=
  lazymatch type of H with
  | reachable ?cmp ?m =>
      let o := eval vm_compute in
        (rbTree_AddNode (Some m) (Some k) (Some (Z.to_pos (100 * k))) (Some a)) in
      lazymatch o with
      | Done (?e, Some ?m') =>
          let H' := fresh in
          assert (H' : reachable cmp m')
            by (apply (reach_add cmp m (Some k) (Some (Z.to_pos (100 * k))) (Some a) e m' H);
                [ intros ? [= <-]; vm_compute; reflexivity | vm_compute; reflexivity ]);
          clear H; rename H' into H
      end
  end.

Section Runs.

(** C5, at the tree holding 10, 20 and 30: 40 is found after its insertion. *)
Lemma C5_insert_then_search_witness :
  rbTree_AddNode (Some three_keys) (Some 40) (Some 4000%positive) (Some 4%positive)
    = Done (NO_ERROR, Some four_keys)
  ∧ rbTree_Search (Some four_keys) (Some 40) = Done (Some 4000%positive, Some four_keys).
Proof.
  split; [vm_compute; reflexivity|].
  apply (C5_insert_then_search three_keys three_keys_tree 40 (Some 4000%positive)
           (Some 4%positive) four_keys); [scenario|scenario|scenario|scenario| |].
  - intros a [= <-]. vm_compute. reflexivity.
  - vm_compute. reflexivity.
Defined.

(** C9, at the tree holding 10, 20 and 30: the search for 20 returns its
    resource and the manager as it was. *)
Lemma C9_search_is_a_pure_lookup_witness :
  rbTree_Search (Some three_keys) (Some 20) = Done (Some 2000%positive, Some three_keys)
  ∧ rbTree_Search (Some three_keys) (Some 25) = Done (RB_TREE_NULL_PTR, Some three_keys).
Proof.
  destruct (C9_search_is_a_pure_lookup three_keys three_keys_tree 20)
    as (Hfound & _); [scenario|scenario|scenario|scenario|].
  destruct (C9_search_is_a_pure_lookup three_keys three_keys_tree 25)
    as (_ & Habsent & _); [scenario|scenario|scenario|scenario|].
  split.
  - apply (Hfound (20, Some 2000%positive)); [|vm_compute; reflexivity].
    simpl. apply list_elem_of_In. simpl. tauto.
  - apply Habsent. intros e He. apply list_elem_of_In in He. simpl in He.
    destruct He as [<-|[<-|[<-|[]]]]; vm_compute; discriminate.
Defined.

(** C3, at the tree holding 10, 20 and 30: a second insertion of 20 and a
    deletion of 25 return the manager with only the diagnostic code set. *)
Lemma C3_failed_operations_change_nothing_witness :
  rbTree_AddNode (Some three_keys) (Some 20) (Some 7%positive) (Some 4%positive)
    = Done (- RBTREE_ERRNO_DUP_VAL, Some (with_errorCode three_keys (- RBTREE_ERRNO_DUP_VAL)))
  ∧ rbTree_DelNode (Some three_keys) (Some 25)
    = Done (Some (with_errorCode three_keys (- RBTREE_ERRNO_NODE_INEXIT))).
Proof.
  split.
  - destruct (C3_failed_operations_change_nothing three_keys three_keys_tree 20
                (Some 7%positive) (Some 4%positive)) as (Hdup & _);
      [scenario|scenario|scenario|scenario|].
    apply Hdup. exists (20, Some 2000%positive). split; [|vm_compute; reflexivity].
    simpl. apply list_elem_of_In. simpl. tauto.
  - destruct (C3_failed_operations_change_nothing three_keys three_keys_tree 25
                None None) as (_ & Habsent & _);
      [scenario|scenario|scenario|scenario|].
    apply Habsent. intros e He. apply list_elem_of_In in He. simpl in He.
    destruct He as [<-|[<-|[<-|[]]]]; vm_compute; discriminate.
Defined.

(** C2, at the tree holding 10, 20 and 30: after the deletion of 20 (a node
    with two children) 20 is not found, and 10 and 30 are. *)
Lemma C2_delete_then_search_witness :
  rbTree_DelNode (Some three_keys) (Some 20) = Done (Some two_keys)
  ∧ rbTree_Search (Some two_keys) (Some 20) = Done (RB_TREE_NULL_PTR, Some two_keys)
  ∧ rbTree_Search (Some two_keys) (Some 10) = Done (Some 1000%positive, Some two_keys)
  ∧ rbTree_Search (Some two_keys) (Some 30) = Done (Some 3000%positive, Some two_keys).
Proof.
  split; [vm_compute; reflexivity|].
  destruct (C2_delete_then_search three_keys three_keys_tree 20 (20, Some 2000%positive)
              two_keys) as (Hgone & Hkept & _);
    [scenario|scenario|scenario|scenario| | | |].
  - simpl. apply list_elem_of_In. simpl. tauto.
  - vm_compute. reflexivity.
  - vm_compute. reflexivity.
  - split_and!; [exact Hgone| |].
    + apply (Hkept (10, Some 1000%positive)); [|discriminate].
      simpl. apply list_elem_of_In. simpl. tauto.
    + apply (Hkept (30, Some 3000%positive)); [|discriminate].
      simpl. apply list_elem_of_In. simpl. tauto.
Defined.

(** C10, at the tree holding 10, 20 and 30: the insert fix-up started at the
    node of 30 ends, and the insertion of 40 completes. *)
Lemma C10_fixups_terminate_witness :
  rbTreePrivate_InsertAdjust (Some 3%positive) three_keys ≠ Timeout
  ∧ ∃ m', rbTree_AddNode (Some three_keys) (Some 40) (Some 4000%positive) (Some 4%positive)
          = Done (NO_ERROR, Some m').
Proof.
  destruct (C10_fixups_terminate three_keys three_keys_tree) as (Hins & _ & _ & _ & Hadd);
    [scenario|].
  split.
  - apply Hins. simpl. apply list_elem_of_In. simpl. tauto.
  - apply Hadd; [reflexivity| |vm_compute; reflexivity].
    intros e He. apply list_elem_of_In in He. simpl in He.
    destruct He as [<-|[<-|[<-|[]]]]; vm_compute; discriminate.
Defined.

(** C1, at the tree holding 10, 20 and 30, which three insertions reach from
    [rbTree_Create]: it is well-formed, black at the root and in decreasing
    order, and the tree after the insertion of 40 meets the colour
    conditions. *)
Lemma C1_reachable_trees_witness :
  reachable compare_int three_keys
  ∧ ∃ t, WF three_keys t ∧ tcolor t = RB_BLACK ∧ Ordered compare_int (inorder t)
         ∧ ∀ key res block e m',
             (∀ a, block = Some a → nodes three_keys !! a = None) →
             rbTree_AddNode (Some three_keys) key res block = Done (e, Some m') →
             red_black t → ∃ t', WF m' t' ∧ red_black t'.
Proof.
  assert (reachable compare_int three_keys) as Hreach.
  { assert (reachable compare_int (mkManager None 4 compare_int true 4 0 ∅ [])) as H0.
    { apply (reach_create compare_int 4%N 4%N true). vm_compute. reflexivity. }
    reach_insert H0 10 1%positive. reach_insert H0 20 2%positive.
    reach_insert H0 30 3%positive. exact H0. }
  split; [exact Hreach|].
  apply (C1_reachable_trees compare_int three_keys); [scenario|scenario|exact Hreach].
Defined.

End Runs.

Section Divergences.

(** C1, as stated, fails on three runs with the comparator [a - b], in
    which every operation returns without an error code.  After the
    insertions 1, 2, 4, 3 the deletion of 1 leaves the root 2 with an empty
    right side and two black nodes below each other on the left: the paths
    do not hold the same number of black nodes.  After the insertions
    1, 2, 4, 5, 6, 3 the deletion of 1 leaves the red node 2 with the red
    child 3.  And after the insertions 10, 20, 30 the in-order keys are
    30, 20, 10, which is not increasing for the comparator. *)
Lemma C1_counterexample :
  (final_tree (run compare_int [1; 2; 4; 3] [1]) = Some lopsided_tree
   ∧ last_error (run compare_int [1; 2; 4; 3] [1]) = Some NO_ERROR
   ∧ black_balanced lopsided_tree = false)
  ∧ (final_tree (run compare_int [1; 2; 4; 5; 6; 3] [1]) = Some red_pair_tree
     ∧ last_error (run compare_int [1; 2; 4; 5; 6; 3] [1]) = Some NO_ERROR
     ∧ no_red_red red_pair_tree = false)
  ∧ (final_tree (run compare_int [10; 20; 30] []) = Some three_keys_tree
     ∧ last_error (run compare_int [10; 20; 30] []) = Some NO_ERROR
     ∧ keys three_keys_tree = [30; 20; 10]
     ∧ increasing compare_int three_keys_tree = false).
Proof. split_and!; vm_compute; reflexivity. Qed.

(** C4: with the comparator [a - b], after the insertions 1, 2, 6, 7, 3, 5, 4
    the deletions of 2 and of 1 return without an error code, and the
    deletion of 4 that follows reads a field of a null pointer: the round
    trip that deletes all seven keys in the order 2, 1, 4, 3, 5, 6, 7 does
    not end with an empty tree. *)
Theorem C4_round_trip_reads_null :
  last_error (run compare_int [1; 2; 6; 7; 3; 5; 4] [2; 1]) = Some NO_ERROR
  ∧ run compare_int [1; 2; 6; 7; 3; 5; 4] [2; 1; 4] = Fault
  ∧ run compare_int [1; 2; 6; 7; 3; 5; 4] [2; 1; 4; 3; 5; 6; 7] = Fault.
Proof. split_and!; vm_compute; reflexivity. Qed.

(** C6: [rbTree_Free] on a handle to any manager stores the null pointer in
    the caller's variable and leaves the manager and all its nodes
    allocated; on the tree holding 10, 20 and 30 the three nodes are still
    allocated afterwards and the cleanup callback has not been called. *)
Theorem C6_free_releases_nothing :
  (∀ m : rbTreeManager_t Z, rbTree_Free (Some (Some m)) = (Some RB_TREE_NULL_PTR, Some m))
  ∧ rbTree_FreeRuleHandle three_keys = true
  ∧ allocated (Done (rbTree_Free (Some (Some three_keys))).2)
    = Some [3%positive; 2%positive; 1%positive]
  ∧ cleaned (Done (rbTree_Free (Some (Some three_keys))).2) = Some [].
Proof. split_and!; [reflexivity|vm_compute; reflexivity..]. Qed.

(** C7: where [unsigned int] has 4 bytes, [rbTree_Create] accepts the key
    width 8 and gives the manager a swap buffer of 4 bytes; the deletion of
    20 from the tree holding 10, 20 and 30, a node with two children, then
    copies 8 bytes into that buffer. *)
Theorem C7_swap_buffer_is_too_small :
  (created_wide compare_int).1 = NO_ERROR
  ∧ option_map index_typde_size (created_wide compare_int).2 = Some 8%N
  ∧ option_map rbTree_buffer (created_wide compare_int).2 = Some 4%N
  ∧ last_error (run_from (created_wide compare_int).2 [10; 20; 30] []) = Some NO_ERROR
  ∧ run_from (created_wide compare_int).2 [10; 20; 30] [20] = Fault.
Proof. split_and!; vm_compute; reflexivity. Qed.

(** C8, as stated, fails with the comparator [a - b], which is negative
    when its first argument is the smaller integer: after the insertions
    10, 20, 30 the root 20 has 30 as its left and 10 as its right child. *)
Lemma C8_counterexample :
  compare_int 10 20 < 0
  ∧ final_tree (run compare_int [10; 20; 30] []) = Some three_keys_tree
  ∧ family three_keys_tree = Some (Some 30, 20, Some 10)
  ∧ family three_keys_tree ≠ Some (Some 10, 20, Some 30).
Proof. split_and!; [reflexivity|vm_compute; reflexivity|reflexivity|discriminate]. Qed.

(** C8, as the code has it, with the comparator [a - b]: the insertions
    10, 20, 30 give the black root 20 with the red children 30 on the left
    and 10 on the right.  The deletion of 20 then gives the black root 10
    with the red left child 30: the keys are exactly 30 and 10, the colour
    conditions hold and the in-order keys are decreasing; the cleanup
    callback has been called once, with the resource of 20; the search for
    20 returns the null pointer, the searches for 10 and 30 return their
    resources.  With the comparator [b - a] the insertions give 10 on the
    left and 30 on the right. *)
Theorem C8_scenario_mirrored :
  final_tree (run compare_int [10; 20; 30] []) = Some three_keys_tree
  ∧ final_tree (run compare_int [10; 20; 30] [20]) = Some two_keys_tree
  ∧ last_error (run compare_int [10; 20; 30] [20]) = Some NO_ERROR
  ∧ keys two_keys_tree = [30; 10]
  ∧ root_black two_keys_tree && red_or_black two_keys_tree && no_red_red two_keys_tree
    && black_balanced two_keys_tree && decreasing compare_int two_keys_tree = true
  ∧ cleaned (run compare_int [10; 20; 30] [20]) = Some [Some 2000%positive]
  ∧ search_in (run compare_int [10; 20; 30] [20]) 20 = Some RB_TREE_NULL_PTR
  ∧ search_in (run compare_int [10; 20; 30] [20]) 10 = Some (Some 1000%positive)
  ∧ search_in (run compare_int [10; 20; 30] [20]) 30 = Some (Some 3000%positive)
  ∧ option_map family (final_tree (run compare_int_flipped [10; 20; 30] []))
    = Some (Some (Some 10, 20, Some 30)).
Proof. split_and!; vm_compute; reflexivity. Qed.

End Divergences.

(** ** Node blocks: what is allocated and what is freed *)

Section Blocks.
Context {K : Type}.
Implicit Types (t l r s u : tree K) (m : rbTreeManager_t K) (C : list (@frame K)).

Lemma bind_inv {A B} (c : M K A) (k : A → M K B) m (o : B * rbTreeManager_t K) :
  bind c k m = Done o → ∃ a m1, c m = Done (a, m1) ∧ k a m1 = Done o.
Proof. unfold bind. destruct (c m) as [[a m1]| |]; [eauto|done|done]. Qed.

Lemma keeps_ret {A} (a : A) : keeps_blocks (K:=K) (ret a).
Proof. by intros m x m' [= _ <-]. Qed.

Lemma keeps_fault {A} : keeps_blocks (K:=K) (A:=A) fault.
Proof. by intros m x m'. Qed.

Lemma keeps_timeout {A} : keeps_blocks (K:=K) (A:=A) timeout.
Proof. by intros m x m'. Qed.

Lemma keeps_bind {A B} (c : M K A) (k : A → M K B) :
  keeps_blocks c → (∀ a, keeps_blocks (k a)) → keeps_blocks (bind c k).
Proof.
  intros Hc Hk m b m' H. apply bind_inv in H as (a & m1 & H1 & H2).
  rewrite (Hk _ _ _ _ H2). by eapply Hc.
Qed.

Lemma keeps_gets {A} (f : rbTreeManager_t K → A) : keeps_blocks (gets f).
Proof. by intros m x m' [= _ <-]. Qed.

Lemma keeps_get {A} (f : rbTreeNode_t K → A) p : keeps_blocks (get f p).
Proof.
  intros m x m'. unfold get. destruct p as [a|]; [|done].
  destruct (nodes m !! a); [|done]. by intros [= _ <-].
Qed.

Lemma keeps_modify g p : keeps_blocks (K:=K) (modify g p).
Proof.
  intros m x m'. unfold modify. destruct p as [a|]; [|done].
  destruct (nodes m !! a) as [n|] eqn:E; [|done]. intros [= _ <-].
  unfold blocks. simpl. rewrite dom_insert_L.
  apply elem_of_dom_2 in E. set_solver.
Qed.

Lemma keeps_set_root q : keeps_blocks (K:=K) (set_root q).
Proof. by intros m x m' [= _ <-]. Qed.

Lemma keeps_set_errorCode e : keeps_blocks (K:=K) (set_errorCode e).
Proof. by intros m x m' [= _ <-]. Qed.

Lemma keeps_call_FreeRuleHandle v : keeps_blocks (K:=K) (call_FreeRuleHandle v).
Proof. by intros m x m' [= _ <-]. Qed.

Lemma keeps_walk_bound : keeps_blocks (K:=K) walk_bound.
Proof. by intros m x m' [= _ <-]. Qed.

End Blocks.

(** Follow the structure of a computation that only reads and rewrites
    blocks. *)
Ltac keeps_step :=
  first
    [ assumption
    | match goal with H : context [keeps_blocks] |- _ => apply H end
    | apply keeps_ret | apply keeps_fault | apply keeps_timeout
    | apply keeps_gets | apply keeps_get | apply keeps_modify
    | apply keeps_set_root | apply keeps_set_errorCode
    | apply keeps_call_FreeRuleHandle | apply keeps_walk_bound
    | apply keeps_bind; [|intros ?]
    | match goal with
      | |- keeps_blocks (match ?x with _ => _ end) => destruct x
      end ].

Ltac keeps :=
  unfold is_red, set_index, set_resource, set_right, set_left, set_parent, set_color;
  repeat keeps_step.

Section BlocksOfFunctions.
Context {K : Type}.
Implicit Types (t l r s u : tree K) (m : rbTreeManager_t K) (C : list (@frame K)).

Lemma keeps_LeftRotate p : keeps_blocks (K:=K) (rbTreePrivate_LeftRotate p).
Proof. unfold rbTreePrivate_LeftRotate. keeps. Qed.

Lemma keeps_RightRotate p : keeps_blocks (K:=K) (rbTreePrivate_RightRotate p).
Proof. unfold rbTreePrivate_RightRotate. keeps. Qed.

Lemma keeps_InsertAdjust_loop fuel : ∀ p, keeps_blocks (K:=K) (InsertAdjust_loop fuel p).
Proof.
  induction fuel as [|fuel IH]; intros p; cbn [InsertAdjust_loop]; [keeps|].
  pose proof (@keeps_LeftRotate) as HL. pose proof (@keeps_RightRotate) as HR.
  keeps.
Qed.

Lemma keeps_InsertAdjust p : keeps_blocks (K:=K) (rbTreePrivate_InsertAdjust p).
Proof.
  unfold rbTreePrivate_InsertAdjust. pose proof keeps_InsertAdjust_loop as H. keeps.
Qed.

Lemma keeps_Search_loop fuel key : ∀ p, keeps_blocks (K:=K) (Search_loop fuel key p).
Proof. induction fuel as [|fuel IH]; intros p; cbn [Search_loop]; keeps. Qed.

Lemma keeps_Search key : keeps_blocks (K:=K) (rbTreePrivate_Search key).
Proof. unfold rbTreePrivate_Search. pose proof (keeps_Search_loop) as H. keeps. Qed.

Lemma keeps_Search_body key : keeps_blocks (K:=K) (Search_body key).
Proof. unfold Search_body. pose proof (keeps_Search) as H. keeps. Qed.

Lemma keeps_Exchange p q : keeps_blocks (K:=K) (rbTreePrivate_ExchangeTwoNode p q).
Proof. unfold rbTreePrivate_ExchangeTwoNode. keeps. Qed.

Lemma keeps_leftmost fuel : ∀ p, keeps_blocks (K:=K) (leftmost fuel p).
Proof. induction fuel as [|fuel IH]; intros p; cbn [leftmost]; keeps. Qed.

Lemma keeps_AddNode_descend fuel key :
  ∀ slow fast, keeps_blocks (K:=K) (AddNode_descend fuel key slow fast).
Proof.
  induction fuel as [|fuel IH]; intros slow fast; cbn [AddNode_descend]; keeps.
Qed.

Lemma keeps_DelBlack_readjust fuel : ∀ p, keeps_blocks (K:=K) (DelBlack_readjust fuel p).
Proof.
  induction fuel as [|fuel IH]; intros p; cbn [DelBlack_readjust]; [keeps|].
  pose proof (@keeps_LeftRotate) as HL. pose proof (@keeps_RightRotate) as HR.
  keeps.
Qed.

Lemma frees_bind_keeps {A B} (c : M K A) (k : A → M K B) :
  keeps_blocks c → (∀ a, frees_block (k a)) → frees_block (bind c k).
Proof.
  intros Hc Hk m b m' H. apply bind_inv in H as (a & m1 & H1 & H2).
  destruct (Hk _ _ _ _ H2) as (x & Hx & E). rewrite (Hc _ _ _ H1) in Hx, E. eauto.
Qed.

Lemma frees_then_keeps {A B} (c : M K A) (k : A → M K B) :
  frees_block c → (∀ a, keeps_blocks (k a)) → frees_block (bind c k).
Proof.
  intros Hc Hk m b m' H. apply bind_inv in H as (a & m1 & H1 & H2).
  destruct (Hc _ _ _ H1) as (x & Hx & E). rewrite (Hk _ _ _ _ H2), E. eauto.
Qed.

(** A read through a null pointer does not return: what follows it runs
    with a pointer that is not null. *)
Lemma frees_get_guard {A B} (f : rbTreeNode_t K → A) p (k : A → M K B) :
  (∀ a, p = Some a → ∀ x, frees_block (k x)) → frees_block (bind (get f p) k).
Proof.
  intros Hk. destruct p as [a|]; [|by intros m b m'].
  apply frees_bind_keeps; [apply keeps_get|]. by apply (Hk a).
Qed.

Lemma frees_free a : frees_block (K:=K) (free (Some a)).
Proof.
  intros m x m'. unfold free. destruct (nodes m !! a) as [n|] eqn:E; [|done].
  intros [= _ <-]. exists a. unfold blocks. simpl. rewrite dom_delete_L.
  split; [by apply elem_of_dom_2 in E|done].
Qed.

Lemma frees_FreeNodeMem a : frees_block (K:=K) (rbTreePrivate_FreeNodeMem (Some a)).
Proof.
  unfold rbTreePrivate_FreeNodeMem.
  apply frees_bind_keeps; [keeps|]. intros h.
  apply frees_bind_keeps; [keeps|]. intros _. apply frees_free.
Qed.

End BlocksOfFunctions.

(** Follow the structure of a computation that frees one node. *)
Ltac frees_step :=
  first
    [ apply frees_FreeNodeMem
    | match goal with H : context [frees_block] |- _ => apply H end
    | apply frees_get_guard; intros ? ? ?; simplify_eq
    | apply frees_bind_keeps; [solve [keeps]|intros ?]
    | apply frees_then_keeps; [|intros ?; solve [keeps]]
    | match goal with
      | |- frees_block (match ?x with _ => _ end) => destruct x
      end ].

Section Frees.
Context {K : Type}.
Implicit Types (t l r s u : tree K) (m : rbTreeManager_t K) (C : list (@frame K)).

Lemma frees_splice a child : frees_block (K:=K) (splice (Some a) child).
Proof. unfold splice. repeat frees_step. Qed.

Lemma frees_DelRed a : frees_block (K:=K) (rbTreePrivate_DelRedNodeAndAdjust (Some a)).
Proof. unfold rbTreePrivate_DelRedNodeAndAdjust. repeat frees_step. Qed.

Lemma frees_DelBlack a : frees_block (K:=K) (rbTreePrivate_DelBlackNodeAndAdjust (Some a)).
Proof.
  unfold rbTreePrivate_DelBlackNodeAndAdjust.
  pose proof (@keeps_DelBlack_readjust K) as Hr. repeat frees_step.
Qed.

Lemma frees_DelNoneChild a :
  frees_block (K:=K) (rbTreePrivate_DelNoneChildNodeAndAdjust (Some a)).
Proof.
  unfold rbTreePrivate_DelNoneChildNodeAndAdjust.
  pose proof (@frees_DelRed) as H1. pose proof (@frees_DelBlack) as H2.
  repeat frees_step.
Qed.

(** What is left of [DelNode_body] once the search has found a node. *)
Lemma DelNode_body_frees key m p m1 o m' :
  rbTreePrivate_Search key m = Done (Some p, m1) →
  DelNode_body (Some key) m = Done (o, m') →
  ∃ x, x ∈ blocks m ∧ blocks m' = blocks m ∖ {[x]}.
Proof.
  intros Hs H. unfold DelNode_body in H.
  apply bind_inv in H as (target & m2 & H1 & H2).
  rewrite Hs in H1. injection H1 as <- <-.
  rewrite <- (keeps_Search _ _ _ _ Hs).
  revert H2. generalize m1 o m'.
  lazymatch goal with
  | |- ∀ m0 o0 m0', ?c m0 = Done (o0, m0') → _ => change (frees_block c)
  end.
  pose proof (@keeps_leftmost K) as H1. pose proof (@keeps_Exchange K) as H2.
  pose proof frees_splice as H3. pose proof frees_DelNoneChild as H4.
  repeat frees_step.
Qed.

Lemma DelNode_body_keeps key m m1 o m' :
  rbTreePrivate_Search key m = Done (None, m1) →
  DelNode_body (Some key) m = Done (o, m') →
  blocks m' = blocks m.
Proof.
  intros Hs H. unfold DelNode_body in H.
  apply bind_inv in H as (target & m2 & H1 & H2).
  rewrite Hs in H1. injection H1 as <- <-.
  rewrite <- (keeps_Search _ _ _ _ Hs). by apply (keeps_set_errorCode _ _ _ _ H2).
Qed.

Lemma AddNode_descend_inl fuel key : ∀ slow fast m e m',
  AddNode_descend (K:=K) fuel key slow fast m = Done (inl e, m') →
  e = - RBTREE_ERRNO_DUP_VAL.
Proof.
  induction fuel as [|fuel IH]; intros slow fast m e m'; cbn [AddNode_descend]; [done|].
  destruct fast as [a|]; [|by intros [= ]].
  intros H. apply bind_inv in H as (cmp & m1 & H1 & H).
  apply bind_inv in H as (fk & m2 & H2 & H).
  repeat case_decide.
  - apply bind_inv in H as (? & m3 & _ & H). by injection H as <-.
  - apply bind_inv in H as (? & m3 & _ & H). by eapply IH.
  - apply bind_inv in H as (? & m3 & _ & H). by eapply IH.
Qed.

(** The blocks after [AddNode_body]: the one [malloc] returned is added
    when the result is [NO_ERROR], none otherwise. *)
Lemma AddNode_body_blocks key res block m e m' :
  AddNode_body (K:=K) key res block m = Done (e, m') →
  (e = NO_ERROR ∧ ∃ a, block = Some a ∧ blocks m' = {[a]} ∪ blocks m)
  ∨ (e ≠ NO_ERROR ∧ blocks m' = blocks m).
Proof.
  unfold AddNode_body. destruct key as [key|].
  2:{ intros [= <- <-]. by right. }
  intros H. apply bind_inv in H as (fuel & ma & [= <- <-] & H).
  apply bind_inv in H as (fast & mb & [= <- <-] & H).
  apply bind_inv in H as (d & mc & Hd & H).
  pose proof (keeps_AddNode_descend _ _ _ _ _ _ _ Hd) as E1.
  destruct d as [e1|slow].
  { injection H as <- <-. apply AddNode_descend_inl in Hd as ->. by right. }
  apply bind_inv in H as (new_node & md & Hn & H).
  unfold rbTreePrivate_CreateNewNode in Hn. destruct block as [a|].
  - apply bind_inv in Hn as (u0 & me & Hpl & Hn). injection Hn as <- <-.
    destruct (bind_inv _ _ _ _ H) as (u1 & mf & Hf & H1).
    destruct (bind_inv _ _ _ _ H1) as (u2 & mg & Hg & H2).
    destruct (bind_inv _ _ _ _ H2) as (u3 & mh & Hh & H3). injection H3 as <- <-.
    left. split; [done|]. exists a. split; [done|].
    rewrite (keeps_InsertAdjust _ _ _ _ Hh).
    assert (blocks mg = blocks mf) as Hk.
    { lazymatch type of Hg with
      | ?c _ = _ => assert (keeps_blocks c) as Hc by keeps; exact (Hc _ _ _ Hg)
      end. }
    rewrite Hk. rewrite (keeps_modify _ _ _ _ _ Hf).
    unfold place in Hpl. simplify_eq. unfold blocks in *. simpl.
    rewrite dom_insert_L. by rewrite E1.
  - apply bind_inv in Hn as (u0 & me & Hpl & Hn). injection Hn as <- <-.
    injection H as <- <-. right. split; [done|].
    by rewrite (keeps_set_errorCode _ _ _ _ Hpl).
Qed.

End Frees.

Section LiveBlocks.
Context {K : Type}.
Implicit Types (t l r s u : tree K) (m : rbTreeManager_t K) (C : list (@frame K)).

Lemma length_addrs_inorder t : length (addrs t) = length (inorder t).
Proof.
  induction t as [|l IHl a c k v r IHr]; [done|].
  simpl. rewrite !length_app. simpl. lia.
Qed.

Lemma length_addrs_count t : length (addrs t) = count t.
Proof.
  induction t as [|l IHl a c k v r IHr]; [done|].
  simpl. rewrite !length_app. simpl. lia.
Qed.

(** A well-formed tree with as many nodes as there are live blocks uses all
    of them. *)
Lemma tight_of_count m t :
  WF m t → size (blocks m) = length (addrs t) → blocks m = list_to_set (addrs t).
Proof.
  intros (_ & HR & ND) Hsize.
  symmetry. apply set_subseteq_size_eq.
  - intros a Ha. apply elem_of_list_to_set in Ha.
    apply elem_of_dom. by eapply Repr_dom.
  - rewrite size_list_to_set by done. lia.
Qed.

Lemma AddNode_blocks m key res block e m' :
  rbTree_AddNode (Some m) key res block = Done (e, Some m') →
  (e = NO_ERROR ∧ ∃ a, block = Some a ∧ blocks m' = {[a]} ∪ blocks m)
  ∨ (e ≠ NO_ERROR ∧ blocks m' = blocks m).
Proof.
  unfold rbTree_AddNode. intros H.
  destruct (AddNode_body key res block m) as [[e1 m1]| |] eqn:E; [|done|done].
  injection H as <- <-. by eapply AddNode_body_blocks.
Qed.

(** X1: an [rbTree_AddNode] that returns [NO_ERROR] has allocated exactly
    the block [malloc] handed to it, and one that returns an error code has
    allocated nothing; no call frees a block. *)
Theorem AddNode_allocates_only_on_success m key res block e m' :
  rbTree_AddNode (Some m) key res block = Done (e, Some m') →
  (e = NO_ERROR ∧ ∃ a, block = Some a ∧ blocks m' = {[a]} ∪ blocks m)
  ∨ (e ≠ NO_ERROR ∧ blocks m' = blocks m).
Proof. apply AddNode_blocks. Qed.

(** X2: an [rbTree_DelNode] that returns has freed exactly one node block
    when its search found the key, and none when the key is null or not
    found; it never allocates. *)
Theorem DelNode_frees_one_block_when_found m key m' :
  rbTree_DelNode (Some m) key = Done (Some m') →
  match key with
  | None => blocks m' = blocks m
  | Some k =>
      ∃ p m1, rbTreePrivate_Search k m = Done (p, m1) ∧
        match p with
        | None => blocks m' = blocks m
        | Some _ => ∃ x, x ∈ blocks m ∧ blocks m' = blocks m ∖ {[x]}
        end
  end.
Proof.
  unfold rbTree_DelNode. intros H.
  destruct (DelNode_body key m) as [[o m1]| |] eqn:E; [|done|done].
  injection H as <-. destruct key as [k|].
  - pose proof E as E'. unfold DelNode_body in E'.
    apply bind_inv in E' as (p & m2 & Hs & _). exists p, m2. split; [done|].
    destruct p as [p|]; [by eapply DelNode_body_frees|by eapply DelNode_body_keeps].
  - by apply (keeps_set_errorCode _ _ _ _ E).
Qed.

(** What one insertion or deletion keeps of the correspondence between
    live blocks and tree nodes. *)
Lemma live_blocks_step_add m t key res block e m' :
  WF m t → blocks m = list_to_set (addrs t) → tcolor t = RB_BLACK →
  (∀ a, block = Some a → nodes m !! a = None) →
  rbTree_AddNode (Some m) key res block = Done (e, Some m') →
  ∃ t', WF m' t' ∧ blocks m' = list_to_set (addrs t') ∧ tcolor t' = RB_BLACK.
Proof.
  intros HWF Ht Hc Hblock Hadd.
  pose proof (AddNode_blocks m key res block e m' Hadd) as Hb.
  destruct key as [key|].
  2:{ injection Hadd as _ <-. exists t. by split. }
  pose proof (AddNode_cases m t key res block HWF Hblock) as H. rewrite Hadd in H.
  destruct H as [(-> & C' & t' & Hp & HWF' & Hio & _ & Hc' & _)
                |[(_ & -> & _)|(_ & -> & _)]];
    [|by exists t|by exists t].
  exists t'. split_and!; [done| |done]. apply tight_of_count; [done|].
  destruct Hb as [(_ & a & -> & ->)|(? & _)]; [|done].
  rewrite size_union.
  - rewrite size_singleton, Ht, size_list_to_set by apply HWF.
    rewrite !length_addrs_inorder, Hio.
    apply insert_path_plug in Hp. simpl in Hp. subst t. rewrite inorder_plug.
    simpl. rewrite !length_app. simpl. lia.
  - apply disjoint_singleton_l. intros Ha. unfold blocks in Ha.
    apply elem_of_dom in Ha as [n Hn].
    by rewrite (Hblock a eq_refl) in Hn.
Qed.

Lemma live_blocks_step_del m t key m' :
  WF m t → blocks m = list_to_set (addrs t) → tcolor t = RB_BLACK →
  rbTree_DelNode (Some m) key = Done (Some m') →
  ∃ t', WF m' t' ∧ blocks m' = list_to_set (addrs t') ∧ tcolor t' = RB_BLACK.
Proof.
  intros HWF Ht Hc Hdel. unfold rbTree_DelNode in Hdel.
  destruct (DelNode_body key m) as [[o m1]| |] eqn:E; [|done|done].
  injection Hdel as ->. destruct key as [key|].
  2:{ cbv [DelNode_body set_errorCode] in E. simplify_eq. by exists t. }
  destruct (locate (rbTree_MatchRuleHandle m) key [] t) as [[C s]|] eqn:Hloc.
  2:{ rewrite (DelNode_body_absent m t key HWF Hloc) in E. simplify_eq.
      by exists t. }
  pose proof Hloc as Hloc'.
  apply locate_some in Hloc' as (Hplug & l & a & c & k & v & r & -> & Hz).
  pose proof (DelNode_body_spec m t key C l a c k v r HWF Hloc) as H.
  rewrite E in H. destruct H as (t' & HWF' & Hio & _ & Hc').
  exists t'. split_and!; [done| |auto]. apply tight_of_count; [done|].
  pose proof (Search_spec m t key HWF) as Hs. rewrite Hloc in Hs. simpl in Hs.
  destruct (DelNode_body_frees _ _ _ _ _ _ Hs E) as (x & Hx & ->).
  rewrite size_difference by set_solver. rewrite size_singleton, Ht.
  rewrite size_list_to_set by apply HWF.
  rewrite !length_addrs_inorder, Hio. simpl in Hplug. rewrite <- Hplug, inorder_plug.
  simpl. repeat (rewrite ?length_app; simpl). lia.
Qed.

Lemma tight_count m t :
  WF m t → blocks m = list_to_set (addrs t) → size (nodes m) = count t.
Proof.
  intros HWF Ht.
  rewrite <- length_addrs_count, <- (size_list_to_set (C:=gset positive)) by apply HWF.
  rewrite <- Ht. unfold blocks. by rewrite size_dom.
Qed.

(** Without any assumption on the comparator: a reachable manager holds a
    well-formed tree with a black root, and its nodes are the live blocks. *)
Lemma reachable_shape (cmp : K → K → Z) m :
  reachable cmp m →
  ∃ t, WF m t ∧ blocks m = list_to_set (addrs t) ∧ tcolor t = RB_BLACK.
Proof.
  intros Hreach.
  induction Hreach as [su ts fr m Hc|m key res block e m' _ IH Hblock Hadd
                      |m key m' _ IH Hdel].
  - unfold rbTree_Create in Hc. simpl in Hc. case_bool_decide; [done|].
    injection Hc as <-. exists Leaf. split_and!; [by split_and!; [| |constructor]| |done].
    unfold blocks. simpl. by rewrite dom_empty_L.
  - destruct IH as (t & HWF & Ht & Hc). by eapply live_blocks_step_add.
  - destruct IH as (t & HWF & Ht & Hc). by eapply live_blocks_step_del.
Qed.

(** X3: every manager reachable by [rbTree_Create], [rbTree_AddNode] and
    [rbTree_DelNode] holds a well-formed tree whose nodes are exactly the
    live node blocks: no block is leaked, and no node of the tree has been
    freed.  No assumption on the comparator is needed. *)
Theorem reachable_blocks_are_the_tree (cmp : K → K → Z) m :
  reachable cmp m →
  ∃ t, WF m t ∧ blocks m = list_to_set (addrs t) ∧ size (nodes m) = count t.
Proof.
  intros Hreach. destruct (reachable_shape cmp m Hreach) as (t & HWF & Ht & _).
  exists t. split_and!; [done|done|by apply tight_count].
Qed.

End LiveBlocks.

(** ** Lookups, the cleanup callback and the diagnostic code *)

Section Lookups.
Context {K : Type}.
Implicit Types (t l r s u : tree K) (m : rbTreeManager_t K) (C : list (@frame K)).

Lemma locate_in cmp key t C' l a c k v r :
  locate cmp key [] t = Some (C', Node l a c k v r) → (k, v) ∈ inorder t.
Proof.
  intros H. apply locate_some in H as (Hplug & _). simpl in Hplug.
  rewrite <- Hplug, inorder_plug. simpl.
  rewrite !elem_of_app, elem_of_cons. tauto.
Qed.

Lemma locate_none_absent cmp key t :
  cmp_antisym cmp → cmp_trans cmp → Ordered cmp (inorder t) →
  locate cmp key [] t = None → ∀ e, e ∈ inorder t → cmp key e.1 ≠ 0.
Proof.
  intros Ha Ht Hord Hloc e He Hz.
  destruct (locate_found cmp Ha Ht key t [] e Hord He Hz) as (? & ? & ? & ? & ? & E).
  by rewrite Hloc in E.
Qed.

(** A search on a well-formed, ordered tree: the value of the equal entry,
    or the null pointer when there is none. *)
Lemma Search_cases m t key :
  cmp_antisym (rbTree_MatchRuleHandle m) → cmp_trans (rbTree_MatchRuleHandle m) →
  WF m t → Ordered (rbTree_MatchRuleHandle m) (inorder t) →
  (∃ e, e ∈ inorder t ∧ rbTree_MatchRuleHandle m key e.1 = 0
        ∧ rbTree_Search (Some m) (Some key) = Done (e.2, Some m))
  ∨ ((∀ e, e ∈ inorder t → rbTree_MatchRuleHandle m key e.1 ≠ 0)
     ∧ rbTree_Search (Some m) (Some key) = Done (RB_TREE_NULL_PTR, Some m)).
Proof.
  intros Ha Ht HWF Hord.
  destruct (locate (rbTree_MatchRuleHandle m) key [] t) as [[C s]|] eqn:Hloc.
  - pose proof Hloc as Hloc'.
    apply locate_some in Hloc' as (_ & l & a & c & k & v & r & -> & Hz).
    apply locate_in in Hloc. left. exists (k, v). split_and!; [done|done|].
    by apply (Search_found m t key (k, v)).
  - right. pose proof (locate_none_absent _ _ _ Ha Ht Hord Hloc) as Hno.
    split; [done|]. by apply (Search_absent m t).
Qed.

(** X4: a successful [rbTree_AddNode] changes no other lookup: for every
    key that the comparator tells apart from the inserted one,
    [rbTree_Search] returns after the insertion what it returned before. *)
Theorem AddNode_keeps_other_lookups m t key res block m' key' :
  cmp_antisym (rbTree_MatchRuleHandle m) → cmp_trans (rbTree_MatchRuleHandle m) →
  WF m t → Ordered (rbTree_MatchRuleHandle m) (inorder t) →
  (∀ a, block = Some a → nodes m !! a = None) →
  rbTree_AddNode (Some m) (Some key) res block = Done (NO_ERROR, Some m') →
  rbTree_MatchRuleHandle m key' key ≠ 0 →
  ∃ v, rbTree_Search (Some m) (Some key') = Done (v, Some m)
       ∧ rbTree_Search (Some m') (Some key') = Done (v, Some m').
Proof.
  intros Ha Ht HWF Hord Hblock Hadd Hne.
  pose proof (AddNode_cases m t key res block HWF Hblock) as H. rewrite Hadd in H.
  destruct H as [(_ & C' & t' & Hp & HWF' & Hio & Henv & _)|[(E & _)|(E & _)]];
    [|discriminate E|discriminate E].
  pose proof (same_env_cmp _ _ Henv) as Hcmp.
  assert (Ordered (rbTree_MatchRuleHandle m) (inorder t')) as Hord'.
  { rewrite Hio. apply Ordered_insert; [done|done| |].
    - eapply insert_path_went; [exact Hp|constructor].
    - apply insert_path_plug in Hp. simpl in Hp. subst t.
      rewrite inorder_plug in Hord. exact Hord. }
  assert (∀ e, e ∈ inorder t' ↔ e = (key, res) ∨ e ∈ inorder t) as Hin.
  { intros e. rewrite Hio. apply insert_path_plug in Hp. simpl in Hp. subst t.
    rewrite inorder_plug. simpl. rewrite !elem_of_app, elem_of_cons. tauto. }
  destruct (Search_cases m t key' Ha Ht HWF Hord) as [(e & He & Hz & Hs)|(Hno & Hs)].
  - exists e.2. split; [done|].
    apply (Search_found m' t' key' e); rewrite ?Hcmp; try done. apply Hin. by right.
  - exists RB_TREE_NULL_PTR. split; [done|].
    apply (Search_absent m' t'); [done|]. intros e He. rewrite Hcmp.
    apply Hin in He as [->|He]; [done|by apply Hno].
Qed.

(** X5: an insertion under a key that is already present does not replace
    the stored resource: it returns the duplicate code, and the search for
    the key still returns the resource stored before. *)
Theorem AddNode_duplicate_keeps_the_old_resource m t key res block e :
  cmp_antisym (rbTree_MatchRuleHandle m) → cmp_trans (rbTree_MatchRuleHandle m) →
  WF m t → Ordered (rbTree_MatchRuleHandle m) (inorder t) →
  e ∈ inorder t → rbTree_MatchRuleHandle m key e.1 = 0 →
  ∃ m', rbTree_AddNode (Some m) (Some key) res block
          = Done (- RBTREE_ERRNO_DUP_VAL, Some m')
        ∧ rbTree_Search (Some m') (Some key) = Done (e.2, Some m').
Proof.
  intros Ha Ht HWF Hord He Hz. eexists. split.
  - unfold rbTree_AddNode. rewrite (AddNode_body_dup m t key res block HWF); [done|].
    eapply insert_path_dup; [done|done|done|done|]. by apply cmp_eq_sym.
  - by apply (Search_found _ t key e).
Qed.

(** X6: when [malloc] fails on the insertion of a new key, [rbTree_AddNode]
    returns the out-of-memory code and the manager differs from the old one
    in the diagnostic code only; the key is not found afterwards. *)
Theorem AddNode_out_of_memory_changes_nothing m t key res :
  WF m t → (∀ e, e ∈ inorder t → rbTree_MatchRuleHandle m e.1 key ≠ 0) →
  rbTree_AddNode (Some m) (Some key) res None
    = Done (- RBTREE_ERRNO_OUT_OF_MEM, Some (with_errorCode m (- RBTREE_ERRNO_OUT_OF_MEM)))
  ∧ WF (with_errorCode m (- RBTREE_ERRNO_OUT_OF_MEM)) t
  ∧ (cmp_antisym (rbTree_MatchRuleHandle m) →
     rbTree_Search (Some (with_errorCode m (- RBTREE_ERRNO_OUT_OF_MEM))) (Some key)
       = Done (RB_TREE_NULL_PTR, Some (with_errorCode m (- RBTREE_ERRNO_OUT_OF_MEM)))).
Proof.
  intros HWF Hnew. split_and!.
  - unfold rbTree_AddNode.
    destruct (insert_path (rbTree_MatchRuleHandle m) key [] t) as [C'|] eqn:Hp.
    + by rewrite (AddNode_body_oom m t key res C' HWF Hp).
    + apply insert_path_none in Hp as (e & He & Hz). by destruct (Hnew e He).
  - done.
  - intros Ha. apply (Search_absent _ t); [done|]. intros e He Hz. simpl in Hz.
    apply (Hnew e He). by apply cmp_eq_sym.
Qed.

(** X7: on every reachable manager, whatever deletions have done to the
    colours, [rbTree_AddNode] and [rbTree_Search] return: they dereference no
    null pointer and their loops end. *)
Theorem reachable_insert_and_search_return (cmp : K → K → Z) m :
  reachable cmp m →
  (∀ key res block, (∀ a, block = Some a → nodes m !! a = None) →
     ∃ e m', rbTree_AddNode (Some m) key res block = Done (e, Some m'))
  ∧ (∀ key, ∃ v m', rbTree_Search (Some m) key = Done (v, Some m')).
Proof.
  intros Hreach. destruct (reachable_shape cmp m Hreach) as (t & HWF & _ & Hc).
  split.
  - intros [key|] res block Hblock; [|by eexists _, _].
    pose proof (AddNode_cases m t key res block HWF Hblock) as H.
    destruct (rbTree_AddNode _ _ _ _) as [[e [m'|]]| |]; [by eauto|done|done|done].
  - intros [key|]; [|by eexists _, _].
    unfold rbTree_Search. rewrite (Search_body_spec m t key HWF). by eexists _, _.
Qed.

End Lookups.

Section Callback.
Context {K : Type}.
Implicit Types (t l r s u : tree K) (m : rbTreeManager_t K) (C : list (@frame K)).

Lemma same_env_released m m' : same_env m m' → released m' = released m.
Proof. intros ->. done. Qed.


(** What an insertion leaves as it was: everything but the tree on
    success, everything but the diagnostic code on failure. *)
Lemma AddNode_env m t key res block e m' :
  WF m t → (∀ a, block = Some a → nodes m !! a = None) →
  rbTree_AddNode (Some m) key res block = Done (e, Some m') →
  (e = NO_ERROR ∧ same_env m m') ∨ (e ≠ NO_ERROR ∧ m' = with_errorCode m e).
Proof.
  intros HWF Hblock Hadd. destruct key as [key|].
  2:{ injection Hadd as <- <-. by right. }
  pose proof (AddNode_cases m t key res block HWF Hblock) as H. rewrite Hadd in H.
  destruct H as [(-> & C' & t' & _ & _ & _ & Henv & _)|[(-> & -> & _)|(-> & -> & _)]];
    [by left|by right|by right].
Qed.

(** What a deletion that returns leaves as it was. *)
Lemma DelNode_env m t key m' :
  WF m t → rbTree_DelNode (Some m) key = Done (Some m') →
  match key with
  | None => m' = with_errorCode m (- RBTREE_ERRNO_ARG_ERR)
  | Some k =>
      match locate (rbTree_MatchRuleHandle m) k [] t with
      | Some (_, Node _ _ _ _ v _) => same_env (relog m v) m'
      | _ => m' = with_errorCode m (- RBTREE_ERRNO_NODE_INEXIT)
      end
  end.
Proof.
  intros HWF Hdel. unfold rbTree_DelNode in Hdel.
  destruct (DelNode_body key m) as [[o m1]| |] eqn:E; [|done|done].
  injection Hdel as ->. destruct key as [key|].
  2:{ cbv [DelNode_body set_errorCode] in E. by simplify_eq. }
  destruct (locate (rbTree_MatchRuleHandle m) key [] t) as [[C s]|] eqn:Hloc.
  2:{ rewrite (DelNode_body_absent m t key HWF Hloc) in E. by simplify_eq. }
  pose proof Hloc as Hloc'.
  apply locate_some in Hloc' as (Hplug & l & a & c & k & v & r & -> & Hz).
  pose proof (DelNode_body_spec m t key C l a c k v r HWF Hloc) as H.
  rewrite E in H. by destruct H as (t' & _ & _ & Henv & _).
Qed.

(** X8: the cleanup callback is called by deletions only, once per node
    removed and with the resource stored under the deleted key, also when
    the node had two children and its payload was exchanged with its
    successor's.  Insertions, searches and deletions of absent keys never
    call it, and nothing is called when no callback was supplied. *)
Theorem cleanup_is_called_once_per_deleted_key m t :
  cmp_antisym (rbTree_MatchRuleHandle m) → cmp_trans (rbTree_MatchRuleHandle m) →
  WF m t → Ordered (rbTree_MatchRuleHandle m) (inorder t) →
  (∀ key e m', e ∈ inorder t → rbTree_MatchRuleHandle m key e.1 = 0 →
     rbTree_DelNode (Some m) (Some key) = Done (Some m') →
     released m' = if rbTree_FreeRuleHandle m then released m ++ [e.2] else released m)
  ∧ (∀ key m', (∀ e, e ∈ inorder t → rbTree_MatchRuleHandle m key e.1 ≠ 0) →
     rbTree_DelNode (Some m) (Some key) = Done (Some m') → released m' = released m)
  ∧ (∀ key res block e m', (∀ a, block = Some a → nodes m !! a = None) →
     rbTree_AddNode (Some m) key res block = Done (e, Some m') →
     released m' = released m)
  ∧ (∀ key v m', rbTree_Search (Some m) key = Done (v, Some m') →
     released m' = released m).
Proof.
  intros Ha Ht HWF Hord. split_and!.
  - intros key e m' He Hz Hdel.
    destruct (DelNode_present m t key e m' Ha Ht HWF Hord He Hz Hdel)
      as (_ & _ & _ & _ & _ & _ & Henv & _).
    by rewrite (same_env_released _ _ Henv).
  - intros key m' Hno Hdel. pose proof (DelNode_env m t (Some key) m' HWF Hdel) as H.
    simpl in H. rewrite (locate_none _ _ _ _ Hno) in H. by subst m'.
  - intros key res block e m' Hblock Hadd.
    destruct (AddNode_env m t key res block e m' HWF Hblock Hadd) as [(_ & H)|(_ & ->)];
      [by apply same_env_released|done].
  - intros [key|] v m'; unfold rbTree_Search.
    + rewrite (Search_body_spec m t key HWF). by intros [= _ <-].
    + by intros [= _ <-].
Qed.



End Callback.

(** ** Trees built by insertions alone *)

Section Grown.
Context {K : Type}.
Implicit Types (t l r s u : tree K) (m : rbTreeManager_t K) (C : list (@frame K)).

Lemma Repr_unique h t : ∀ par t',
  Repr h par t → Repr h par t' → rootp t = rootp t' → t = t'.
Proof.
  induction t as [|l IHl a c k v r IHr]; intros par t' H H' E.
  { by destruct t'. }
  destruct t' as [|l' a' c' k' v' r']; [done|].
  simpl in E. injection E as <-. simpl in H, H'.
  destruct H as (Hn & Hl & Hr). destruct H' as (Hn' & Hl' & Hr').
  rewrite Hn in Hn'. injection Hn' as <- <- Er El <-.
  by rewrite (IHl _ _ Hl Hl' El), (IHr _ _ Hr Hr' Er).
Qed.

(** The memory determines the tree it holds. *)
Lemma WF_unique m t t' : WF m t → WF m t' → t = t'.
Proof.
  intros (Hr & HR & _) (Hr' & HR' & _). eapply Repr_unique; [done|done|congruence].
Qed.

Lemma grown_reachable (cmp : K → K → Z) m : grown cmp m → reachable cmp m.
Proof.
  induction 1 as [su ts fr m Hc|m key res block e m' _ IH Hblock Hadd].
  - by eapply reach_create.
  - by eapply reach_add.
Qed.

Lemma grown_inv (cmp : K → K → Z) m :
  cmp_antisym cmp → cmp_trans cmp → grown cmp m →
  rbTree_MatchRuleHandle m = cmp
  ∧ ∃ t, WF m t ∧ red_black t ∧ tcolor t = RB_BLACK ∧ Ordered cmp (inorder t).
Proof.
  intros Ha Ht Hg.
  induction Hg as [su ts fr m Hc|m key res block e m' _ IH Hblock Hadd].
  - unfold rbTree_Create in Hc. simpl in Hc. case_bool_decide; [done|].
    injection Hc as <-. split; [done|]. exists Leaf.
    split_and!; [by split_and!; [| |constructor]|done|done|constructor].
  - destruct IH as (<- & t & HWF & Hrb & Hc & Hord).
    destruct (mutations_keep m t Ha Ht HWF Hord Hc) as (H & _).
    destruct (H key res block e m' Hblock Hadd) as (E & t' & ? & ? & ? & Hrb').
    split; [done|]. exists t'. auto.
Qed.

(** A red-black subtree with [n] black nodes on every path is at most
    [2 n + 1] high ([2 n] under a black root) and has at least [2 ^ n - 1]
    nodes. *)
Lemma rb_height t : ∀ n,
  rb t n →
  (height t ≤ 2 * n + (if decide (tcolor t = RB_RED) then 1 else 0))%nat
  ∧ (2 ^ n ≤ S (count t))%nat.
Proof.
  induction t as [|l IHl a c k v r IHr]; intros n H.
  { apply rb_leaf in H as ->. simpl. lia. }
  apply rb_node in H. destruct c; [| |done].
  - destruct H as (Hl & Hr & Hl' & Hr').
    destruct (IHl n Hl') as (H1 & H2). destruct (IHr n Hr') as (H3 & H4).
    rewrite decide_False in H1 by done. rewrite decide_False in H3 by done.
    cbn [height count tcolor]. rewrite decide_True by done. lia.
  - destruct H as (n' & -> & Hl' & Hr').
    destruct (IHl n' Hl') as (H1 & H2). destruct (IHr n' Hr') as (H3 & H4).
    cbn [height count tcolor]. rewrite decide_False by done.
    rewrite Nat.pow_succ_r'.
    repeat case_decide; lia.
Qed.

Lemma red_black_height t :
  red_black t → tcolor t = RB_BLACK → (height t ≤ 2 * Nat.log2 (S (count t)))%nat.
Proof.
  intros Hrb Hc. apply red_black_rb in Hrb as (n & Hn).
  destruct (rb_height t n Hn) as (H1 & H2).
  rewrite decide_False in H1 by (by rewrite Hc).
  apply Nat.log2_le_pow2 in H2; lia.
Qed.

(** X10: every tree built by [rbTree_Create] and calls of [rbTree_AddNode]
    alone meets all the red-black conditions: its root is black, every node
    is red or black, no red node has a red child, all paths hold the same
    number of black nodes, and the in-order keys are strictly decreasing for
    the comparator; so its height is at most twice the binary logarithm of
    the number of nodes plus one. *)
Theorem grown_trees_are_red_black (cmp : K → K → Z) m :
  cmp_antisym cmp → cmp_trans cmp → grown cmp m →
  ∃ t, WF m t ∧ tcolor t = RB_BLACK ∧ red_black t ∧ Ordered cmp (inorder t)
       ∧ size (nodes m) = count t
       ∧ (height t ≤ 2 * Nat.log2 (S (count t)))%nat.
Proof.
  intros Ha Ht Hg. destruct (grown_inv cmp m Ha Ht Hg) as (_ & t & HWF & Hrb & Hc & Hord).
  exists t. split_and!; [done|done|done|done| |by apply red_black_height].
  destruct (reachable_shape cmp m (grown_reachable _ _ Hg)) as (t' & HWF' & Ht' & _).
  rewrite (tight_count m t' HWF' Ht').
  by rewrite (WF_unique m t' t HWF' HWF).
Qed.

(** X11: on a tree of [n] nodes built by insertions alone, the descent of
    a search and the descent of an insertion end within
    [2 * log2 (n + 1) + 1] rounds of their loops. *)
Theorem grown_descents_are_logarithmic (cmp : K → K → Z) m key :
  cmp_antisym cmp → cmp_trans cmp → grown cmp m →
  (∃ p, Search_loop (S (2 * Nat.log2 (S (size (nodes m))))) key (root m) m = Done (p, m)
        ∧ rbTreePrivate_Search key m = Done (p, m))
  ∧ AddNode_descend (S (2 * Nat.log2 (S (size (nodes m))))) key RB_TREE_NULL_PTR (root m) m
    ≠ Timeout.
Proof.
  intros Ha Ht Hg. destruct (grown_inv cmp m Ha Ht Hg) as (_ & t & HWF & Hrb & Hc & Hord).
  destruct (reachable_shape cmp m (grown_reachable _ _ Hg)) as (t' & HWF' & Ht' & _).
  rewrite (tight_count m t' HWF' Ht'), (WF_unique m t' t HWF' HWF).
  pose proof (red_black_height t Hrb Hc) as Hh.
  pose proof HWF as (Hroot & _). rewrite Hroot. split.
  - eexists. split.
    + apply (Search_loop_spec t _ m [] key HWF). lia.
    + rewrite (Search_spec m t key HWF). done.
  - pose proof (AddNode_descend_spec t (S (2 * Nat.log2 (S (count t)))) m [] key HWF) as E.
    simpl cpar in E. unfold RB_TREE_NULL_PTR. rewrite E by lia.
    by destruct (insert_path _ _ _ _).
Qed.

End Grown.

(** ** The test function [print] and the rotations *)

Section Print.
Context {K : Type}.
Implicit Types (t l r s u : tree K) (m : rbTreeManager_t K) (C : list (@frame K)).

Lemma bind_eq {A B} (c : M K A) (k : A → M K B) m o :
  c m = o →
  bind c k m = match o with Done (a, m') => k a m' | Fault => Fault | Timeout => Timeout end.
Proof. by intros <-. Qed.

(** The walk of [func] over a subtree: the resources in in-order, unless
    one of them is null. *)
Lemma func_spec t : ∀ fuel m C,
  WF m (plug C t) → (height t < fuel)%nat →
  func fuel (rootp t) m =
    if decide (Forall (λ e : K * ptr, e.2 ≠ None) (inorder t))
    then Done (omap snd (inorder t), m) else Fault.
Proof.
  induction t as [|l IHl a c k v r IHr]; intros fuel m C HWF Hfuel.
  - destruct fuel; [simpl in Hfuel; lia|]. cbn [func rootp inorder].
    case_decide as H; [done|]. destruct H. constructor.
  - destruct fuel as [|fuel]; [simpl in Hfuel; lia|]. simpl in Hfuel.
    cbn [func rootp inorder]. wstep.
    rewrite (bind_eq _ _ _ _ (IHl fuel m (FrL a c k v r :: C) HWF ltac:(lia))).
    destruct (decide (Forall (λ e : K * ptr, e.2 ≠ None) (inorder l))) as [Hl|Hl].
    2:{ rewrite decide_False; [done|]. rewrite Forall_app. tauto. }
    wstep. destruct v as [x|].
    2:{ rewrite decide_False; [done|]. rewrite Forall_app, Forall_cons. simpl. tauto. }
    wstep.
    rewrite (bind_eq _ _ _ _ (IHr fuel m (FrR l a c k (Some x) :: C) HWF ltac:(lia))).
    destruct (decide (Forall (λ e : K * ptr, e.2 ≠ None) (inorder r))) as [Hr|Hr].
    2:{ rewrite decide_False; [done|]. rewrite Forall_app, Forall_cons. tauto. }
    unfold ret.
    rewrite decide_True by (rewrite Forall_app, Forall_cons; done).
    by rewrite omap_app.
Qed.

(** X12: the test function [print] walks the tree in in-order and reads
    the resource of every node: on a well-formed tree whose resources are
    all non-null it returns their addresses in in-order (for the comparator
    [a - b] that is from the greatest key down) and leaves the manager as
    it is; when some resource is null it dereferences the null pointer. *)
Theorem print_walks_in_order m t :
  WF m t →
  ((∀ e, e ∈ inorder t → e.2 ≠ None) →
     ∃ out, print m = Done (out, m) ∧ Some <$> out = (inorder t).*2)
  ∧ ((∃ e, e ∈ inorder t ∧ e.2 = None) → print m = Fault).
Proof.
  intros HWF. unfold print. rewrite bind_walk_bound, bind_gets.
  pose proof HWF as (Hroot & _). rewrite Hroot.
  rewrite (func_spec t _ m [] HWF (WF_height _ _ HWF)). split.
  - intros Hall. rewrite decide_True by (by apply Forall_forall).
    eexists. split; [done|].
    clear HWF Hroot. induction (inorder t) as [|[k [x|]] L IH]; simpl; [done| |].
    + f_equal. apply IH. intros e He. apply Hall. by right.
    + destruct (Hall (k, None)); [left|done].
  - intros (e & He & Hnull). rewrite decide_False; [done|].
    rewrite Forall_forall. intros H. by destruct (H e He).
Qed.

End Print.

Section RotateBack.
Context {K : Type}.
Implicit Types (t l r s u : tree K) (h : gmap positive (rbTreeNode_t K))
  (m : rbTreeManager_t K) (C : list (@frame K)).

Lemma Repr_lookup_eq h h' t : ∀ par a,
  Repr h par t → Repr h' par t → a ∈ addrs t → h !! a = h' !! a.
Proof.
  induction t as [|l IHl b c k v r IHr]; intros par a H H' Ha; simpl in *.
  { by apply elem_of_nil in Ha. }
  destruct H as (Hb & Hl & Hr). destruct H' as (Hb' & Hl' & Hr').
  rewrite elem_of_app, elem_of_cons in Ha. destruct Ha as [Ha|[->|Ha]].
  - by eapply IHl.
  - by rewrite Hb, Hb'.
  - by eapply IHr.
Qed.

(** Two managers that hold the same tree in the same blocks, and agree on
    everything else, are equal. *)
Lemma same_tree_same_manager m m' t :
  WF m t → WF m' t → blocks m = list_to_set (addrs t) → blocks m' = blocks m →
  same_env m m' → m' = m.
Proof.
  intros HWF HWF' Ht Hb Henv. rewrite Henv.
  destruct HWF as (Hroot & HR & _). destruct HWF' as (Hroot' & HR' & _).
  rewrite Hroot', <- Hroot.
  assert (nodes m' = nodes m) as ->; [|by destruct m].
  apply map_eq. intros i. destruct (decide (i ∈ addrs t)) as [Hi|Hi].
  - by eapply Repr_lookup_eq.
  - assert (i ∉ blocks m) as H1 by (rewrite Ht; by rewrite elem_of_list_to_set).
    assert (i ∉ blocks m') as H2 by by rewrite Hb.
    unfold blocks in *. apply not_elem_of_dom in H1, H2. by rewrite H1, H2.
Qed.

(** X13: a rotation keeps the in-order sequence, and the two rotations undo
    each other: on a manager whose live blocks are the nodes of its tree, a
    left rotation at a node with a right child, followed by a right rotation
    at that child, gives back the manager it started from, memory
    included.  A left rotation at a node without a right child dereferences
    the null pointer. *)
Theorem rotations_undo_each_other m C l x cx kx vx rl y cy ky vy rr :
  WF m (plug C (Node l x cx kx vx (Node rl y cy ky vy rr))) →
  blocks m = list_to_set (addrs (plug C (Node l x cx kx vx (Node rl y cy ky vy rr)))) →
  (∃ m1, rbTreePrivate_LeftRotate (Some x) m = Done (tt, m1)
         ∧ WF m1 (plug C (Node (Node l x cx kx vx rl) y cy ky vy rr))
         ∧ inorder (plug C (Node (Node l x cx kx vx rl) y cy ky vy rr))
           = inorder (plug C (Node l x cx kx vx (Node rl y cy ky vy rr)))
         ∧ rbTreePrivate_RightRotate (Some y) m1 = Done (tt, m))
  ∧ (rr = Leaf → rbTreePrivate_LeftRotate (Some y) m = Fault).
Proof.
  intros HWF Ht. split.
  - destruct (LeftRotate_spec _ _ _ _ _ _ _ _ _ _ _ _ _ HWF) as (m1 & E1 & HWF1 & Henv1).
    destruct (RightRotate_spec _ _ _ _ _ _ _ _ _ _ _ _ _ HWF1) as (m2 & E2 & HWF2 & Henv2).
    exists m1. split_and!; [done|done| |].
    + rewrite !inorder_plug. simpl.
      repeat first [ rewrite <- app_assoc | progress cbn [app] ]. done.
    + rewrite E2. do 2 f_equal.
      apply (same_tree_same_manager m m2 _ HWF HWF2 Ht); [|exact (same_env_trans _ _ _ Henv1 Henv2)].
      rewrite (keeps_RightRotate _ _ _ _ E2). by rewrite (keeps_LeftRotate _ _ _ _ E1).
  - intros ->.
    change (plug C (Node l x cx kx vx (Node rl y cy ky vy Leaf)))
      with (plug (FrR l x cx kx vx :: C) (Node rl y cy ky vy Leaf)) in HWF.
    by rewrite (LeftRotate_nil _ _ _ _ _ _ _ HWF).
Qed.

End RotateBack.

(** ** Round trips of the scenario *)

Section RoundTrip.

Variable cmp : Z → Z → Z.
Hypothesis Hanti : cmp_antisym cmp.
Hypothesis Htrans : cmp_trans cmp.
Hypothesis Hsep : ∀ a b, cmp a b = 0 → a = b.

Lemma holds_insert m live next k e mo :
  holds cmp m live → (∀ a, a ∈ blocks m → (a < next)%positive) →
  rbTree_AddNode (Some m) (Some k) (resource_of k) (Some next) = Done (e, mo) →
  ∃ m', mo = Some m' ∧ holds cmp m' (λ x, live x ∨ x = k)
        ∧ released m' = released m
        ∧ (∀ a, a ∈ blocks m' → (a < Pos.succ next)%positive).
Proof.
  intros (Hcmp & Hfree & t & HWF & Ht & Hc & Hord & Hin) Hnext Hadd.
  assert (∀ a, Some next = Some a → nodes m !! a = None) as Hblock.
  { intros a [= <-]. apply not_elem_of_dom. intros Ha. apply Hnext in Ha. lia. }
  pose proof (AddNode_cases m t k (resource_of k) (Some next) HWF Hblock) as H.
  pose proof (AddNode_blocks m (Some k) (resource_of k) (Some next)) as Hb.
  rewrite Hadd in H. destruct mo as [m'|]; [|done]. specialize (Hb _ _ Hadd).
  exists m'. split; [done|]. rewrite Hcmp in *.
  destruct H as [(-> & C' & t' & Hp & HWF' & Hio & Henv & Hc' & _)
                |[(-> & -> & Hp)|(_ & _ & [=])]].
  - destruct Hb as [(_ & a & [= <-] & Hb)|(? & _)]; [|done].
    split_and!.
    + split_and!; [by rewrite (same_env_cmp _ _ Henv)|by rewrite Henv|].
      exists t'. split_and!; [done| |done| |].
      * apply tight_of_count; [done|]. rewrite Hb, size_union.
        -- rewrite size_singleton, Ht, size_list_to_set by apply HWF.
           rewrite !length_addrs_inorder, Hio.
           apply insert_path_plug in Hp. simpl in Hp. subst t. rewrite inorder_plug.
           simpl. rewrite !length_app. simpl. lia.
        -- apply disjoint_singleton_l. intros Ha. apply Hnext in Ha. lia.
      * rewrite Hio. apply Ordered_insert; [done|done| |].
        -- eapply insert_path_went; [exact Hp|constructor].
        -- apply insert_path_plug in Hp. simpl in Hp. subst t.
           rewrite inorder_plug in Hord. exact Hord.
      * intros e. rewrite Hio. pose proof (Hin e) as He.
        apply insert_path_plug in Hp. simpl in Hp. subst t.
        rewrite inorder_plug in He. simpl in He.
        rewrite !elem_of_app, elem_of_cons. rewrite !elem_of_app in He.
        destruct e as [k' v']. simpl in *. split.
        -- intros [H|[H|H]]; [tauto| |tauto]. injection H as -> ->. by split; [right|].
        -- intros ([?| ->] & ->); [tauto|]. right. by left.
    + by rewrite Henv.
    + intros a Ha. rewrite Hb in Ha. apply elem_of_union in Ha as [Ha|Ha].
      * apply elem_of_singleton in Ha as ->. lia.
      * apply Hnext in Ha. lia.
  - destruct Hb as [(? & _)|(_ & Hb)]; [done|].
    apply insert_path_none in Hp as (e & He & Hz). apply Hsep in Hz.
    split_and!; [|done|].
    + split_and!; [done|done|]. exists t. split_and!; [done|done|done|done|].
      intros [k' v']. rewrite Hin. apply Hin in He as (Hl & _). simpl. split; [tauto|].
      intros ([?|E] & E2); [tauto|]. subst. tauto.
    + intros a Ha. rewrite Hb in Ha. apply Hnext in Ha. lia.
Qed.

Lemma holds_insert_all ks : ∀ m live next mo,
  holds cmp m live → (∀ a, a ∈ blocks m → (a < next)%positive) →
  insert_all ks next (Some m) = Done mo →
  ∃ m', mo = Some m' ∧ holds cmp m' (λ x, live x ∨ x ∈ ks) ∧ released m' = released m.
Proof.
  induction ks as [|k ks IH]; intros m live next mo Hh Hnext Hrun; cbn [insert_all] in Hrun.
  - injection Hrun as <-. exists m. split_and!; [done| |done].
    destruct Hh as (? & ? & t & ? & ? & ? & ? & Hin). split_and!; [done|done|].
    exists t. split_and!; [done..|]. intros e. rewrite Hin. set_solver.
  - destruct (rbTree_AddNode (Some m) (Some k) _ (Some next)) as [[e mo1]| |] eqn:E;
      [|done|done].
    destruct (holds_insert m live next k e mo1 Hh Hnext E) as (m1 & -> & Hh1 & Hr1 & Hn1).
    destruct (IH m1 _ _ mo Hh1 Hn1 Hrun) as (m' & -> & Hh' & Hr').
    exists m'. split_and!; [done| |congruence].
    destruct Hh' as (? & ? & t & ? & ? & ? & ? & Hin). split_and!; [done|done|].
    exists t. split_and!; [done..|]. intros e'. rewrite Hin. set_solver.
Qed.

Lemma holds_delete m live k mo :
  holds cmp m live → live k →
  rbTree_DelNode (Some m) (Some k) = Done mo →
  ∃ m', mo = Some m' ∧ holds cmp m' (λ x, live x ∧ x ≠ k)
        ∧ released m' = released m ++ [resource_of k].
Proof.
  intros (Hcmp & Hfree & t & HWF & Ht & Hc & Hord & Hin) Hk Hdel.
  assert ((k, resource_of k) ∈ inorder t) as He by (by apply Hin).
  destruct mo as [m'|]; [|by unfold rbTree_DelNode in Hdel; destruct (DelNode_body _ _) as [[]| |]].
  exists m'. split; [done|]. rewrite <- Hcmp in Hanti, Htrans, Hord.
  destruct (DelNode_present m t k _ m' Hanti Htrans HWF Hord He) as
    (t' & L1 & L2 & HWF' & Hio & Hio' & Henv & Hc'); [by apply cmp_refl|done|].
  destruct (live_blocks_step_del m t (Some k) m' HWF Ht Hc Hdel) as (t'' & HWF'' & Ht'' & _).
  rewrite (WF_unique m' t'' t' HWF'' HWF') in Ht''.
  pose proof (same_env_relog_cmp _ _ _ Henv) as Hcmp'.
  split.
  - split_and!; [congruence|by rewrite Henv|].
    exists t'. split_and!; [done|done|auto| |].
    + rewrite <- Hcmp, Hio'. rewrite Hio in Hord. by eapply Ordered_remove.
    + intros e. rewrite Hio'. pose proof (Hin e) as He'. rewrite Hio in He', Hord.
      pose proof (Ordered_distinct _ L1 L2 _ e Hanti Hord) as Hd.
      rewrite elem_of_app, elem_of_cons in He'. rewrite elem_of_app in Hd |- *.
      destruct e as [k' v']. simpl in *. split.
      * intros H. split_and!; [tauto| |tauto]. intros ->. apply (Hd H). by apply cmp_refl.
      * intros ((? & Hne) & ->). destruct (proj2 He') as [?|[E|?]]; [tauto|tauto| |tauto].
        injection E as ?. done.
  - rewrite Henv. simpl. by rewrite Hfree.
Qed.

Lemma holds_delete_all ks : ∀ m live mo,
  holds cmp m live → NoDup ks → (∀ k, k ∈ ks → live k) →
  delete_all ks (Some m) = Done mo →
  ∃ m', mo = Some m' ∧ holds cmp m' (λ x, live x ∧ x ∉ ks)
        ∧ released m' = released m ++ (resource_of <$> ks).
Proof.
  induction ks as [|k ks IH]; intros m live mo Hh ND Hks Hrun; cbn [delete_all] in Hrun.
  - injection Hrun as <-. exists m. split_and!; [done| |by rewrite app_nil_r].
    destruct Hh as (? & ? & t & ? & ? & ? & ? & Hin). split_and!; [done|done|].
    exists t. split_and!; [done..|]. intros e. rewrite Hin. set_solver.
  - apply NoDup_cons in ND as (Hk & ND).
    destruct (rbTree_DelNode (Some m) (Some k)) as [mo1| |] eqn:E; [|done|done].
    destruct (holds_delete m live k mo1 Hh (Hks k ltac:(left)) E) as (m1 & -> & Hh1 & Hr1).
    destruct (IH m1 _ mo Hh1 ND) as (m' & -> & Hh' & Hr'); [|done|].
    { intros k' Hk'. split; [apply Hks; by right|]. intros ->. done. }
    exists m'. split_and!; [done| |].
    + destruct Hh' as (? & ? & t & ? & ? & ? & ? & Hin). split_and!; [done|done|].
      exists t. split_and!; [done..|]. intros e'. rewrite Hin. set_solver.
    + rewrite Hr', Hr1, <- app_assoc. done.
Qed.

(** X14: a round trip of insertions followed by deletions, for a
    comparator that meets the contract and tells different keys apart.  When
    the run returns, the cleanup callback has been called exactly once for
    every deleted key, in the order of the deletions and with the resource
    inserted with that key; the tree holds exactly the keys inserted and not
    deleted; and when every inserted key has been deleted the tree is empty
    and no node block is left. *)
Theorem round_trip_when_it_returns ins del m :
  NoDup del → (∀ k, k ∈ del → k ∈ ins) →
  run cmp ins del = Done (Some m) →
  released m = resource_of <$> del
  ∧ ∃ t, WF m t ∧ (∀ k, k ∈ keys t ↔ k ∈ ins ∧ k ∉ del)
         ∧ ((∀ k, k ∈ ins → k ∈ del) →
            t = Leaf ∧ root m = RB_TREE_NULL_PTR ∧ nodes m = ∅).
Proof.
  intros ND Hsub Hrun. unfold run, run_from in Hrun.
  destruct (insert_all ins 1 (created cmp)) as [mo1| |] eqn:E1; [|done|done].
  assert (holds cmp (mkManager None 4%N cmp true 4%N 0 ∅ []) (λ _, False)) as H0.
  { split_and!; [done|done|]. exists Leaf.
    split_and!; [by split_and!; [| |constructor]|done|done|constructor|].
    intros e. split; [by intros ?%elem_of_nil|tauto]. }
  destruct (holds_insert_all ins _ _ 1%positive mo1 H0) as (m1 & -> & Hh1 & Hr1);
    [by intros a ?%elem_of_empty|exact E1|].
  destruct (holds_delete_all del m1 _ (Some m) Hh1 ND) as (m2 & [= <-] & Hh2 & Hr2);
    [intros k Hk; right; by apply Hsub|exact Hrun|].
  split; [by rewrite Hr2, Hr1|].
  destruct Hh2 as (_ & _ & t & HWF & Ht & _ & _ & Hin). exists t.
  assert (∀ k, k ∈ keys t ↔ k ∈ ins ∧ k ∉ del) as Hkeys.
  { intros k. unfold keys. rewrite list_elem_of_fmap. split.
    - intros (e & -> & He). apply Hin in He. tauto.
    - intros (? & ?). exists (k, resource_of k). split; [done|]. apply Hin. simpl. tauto. }
  split_and!; [done|done|]. intros Hall.
  assert (t = Leaf) as ->.
  { destruct t as [|l a c k v r]; [done|]. exfalso.
    assert (k ∈ keys (Node l a c k v r)) as Hk.
    { unfold keys. simpl. rewrite fmap_app, elem_of_app, fmap_cons, elem_of_cons. tauto. }
    apply Hkeys in Hk as (? & ?). auto. }
  split_and!; [done|apply HWF|]. simpl in Ht.
  unfold blocks in Ht. by apply dom_empty_inv_L in Ht.
Qed.

End RoundTrip.

(** ** Deletion on a red-black tree returns *)

(** Take the state of the delete fix-up apart. *)
Ltac inv_open :=
  lazymatch goal with
  | Hinv : del_inv _ _ |- _ =>
      cbv beta iota delta [del_inv] in Hinv;
      first
        [ exfalso; exact Hinv
        | let n := fresh "n" in
          let Hu := fresh "Hu" in
          let Hp := fresh "Hp" in
          destruct Hinv as (n & Hu & Hp); cbn [fcolor] in Hp;
          try specialize (Hp eq_refl) ]
  end.

Ltac rb_open :=
  cbn [rb_path fsib fcolor tcolor] in *;
  repeat match goal with
         | H : rb (Node _ _ _ _ _ _) _ |- _ => apply rb_node in H; cbn iota beta in H
         | H : rb Leaf _ |- _ => apply rb_leaf in H
         | H : _ ∧ _ |- _ => destruct H
         | H : ∃ _, _ |- _ => destruct H
         | H : False |- _ => destruct H
         end.

Section DeleteReturns.
Context {K : Type}.
Implicit Types (t l r s u : tree K) (h : gmap positive (rbTreeNode_t K))
  (m : rbTreeManager_t K) (C : list (@frame K)).

Ltac safe_done :=
  lazymatch goal with
  | |- ∃ o, Done _ = Done o => eexists; reflexivity
  | |- ∃ o, Fault = Done o => exfalso; inv_open; rb_open; (done || lia || congruence)
  end.

Ltac safe_rec IH :=
  lazymatch goal with
  | HWF : WF ?m ?T |- ∃ o, DelBlack_readjust ?fuel (Some ?a) ?m = Done o =>
      find_focus a T ltac:(fun C l c k v r =>
        apply (IH m C l a c k v r); [exact HWF | cbn [length]; lia | ]);
      inv_open; cbn [rb_path fsib fcolor] in *;
      cbv beta iota delta [del_inv]; cbn [fcolor];
      lazymatch goal with
      | Hp : rb ?s ?n ∧ _ |- ∃ _, rb ?s _ ∧ _ =>
          let Hs := fresh "Hs" in
          destruct Hp as (Hs & Hp); eexists; split; [exact Hs|];
          let E := fresh in
          intros E; first [ discriminate E | subst; cbn iota in Hp; exact Hp ]
      end
  | Hlen : (_ < S ?fuel)%nat |- ∃ o, DelBlack_readjust ?fuel None ?m = Done o =>
      exfalso; inv_open; rb_open; (done || lia || congruence)
  end.

Lemma DelBlack_readjust_safe fuel : ∀ m C ul un cu ku vu ur,
  WF m (plug C (Node ul un cu ku vu ur)) → (length C < fuel)%nat →
  del_inv C (Node ul un cu ku vu ur) →
  ∃ o, DelBlack_readjust fuel (Some un) m = Done o.
Proof.
  induction fuel as [|fuel IH]; intros m C ul un cu ku vu ur HWF Hlen Hinv; [lia|].
  pose proof (same_env_refl m) as Henv.
  cbn [DelBlack_readjust].
  repeat rstep.
  all: unfold ret.
  all: try safe_done.
  all: try lazymatch goal with
       | |- context [DelBlack_readjust _ (rootp ?t) _] => destruct t; wf_refocus; cbn [rootp]
       end.
  all: safe_rec IH.
Qed.

(** The colour conditions do not depend on the key and resource a node
    holds. *)
Lemma red_black_payload C l a c k v r k' (v' : ptr) :
  red_black (plug C (Node l a c k v r)) → red_black (plug C (Node l a c k' v' r)).
Proof.
  intros H. apply red_black_rb in H as (n & H).
  apply rb_plug_inv in H as (n0 & Hs & HP & Hok).
  destruct (rb_plug C (Node l a c k' v' r) n0 HP) as (n1 & H1); [|done|by eapply rb_red_black].
  apply rb_node. by apply rb_node in Hs.
Qed.

(** A black leaf below a parent, in a red-black tree. *)
Lemma DelBlack_safe m F C a k v :
  WF m (plug (F :: C) (Node Leaf a RB_BLACK k v Leaf)) →
  red_black (plug (F :: C) (Node Leaf a RB_BLACK k v Leaf)) →
  ∃ o, rbTreePrivate_DelBlackNodeAndAdjust (Some a) m = Done o.
Proof.
  intros HWF Hrb.
  assert (S (length C) < S (size (nodes m)))%nat as Hlen.
  { pose proof (WF_size _ _ HWF). pose proof (length_plug (F :: C) (Node Leaf a RB_BLACK k v Leaf)).
    simpl in *. lia. }
  apply red_black_rb in Hrb as (n & Hrb).
  apply rb_plug_inv in Hrb as (n0 & Hs & HP & _).
  apply rb_node in Hs as (n1 & -> & Hn1 & _). apply rb_leaf in Hn1 as ->.
  cbn [rb_path] in HP. destruct HP as (Hsib & HP).
  cbn [plug] in *. pose proof (WF_open _ _ _ HWF) as (HR & ND).
  unfold rbTreePrivate_DelBlackNodeAndAdjust. rewrite bind_walk_bound. munfold.
  destruct F as [p cp kp vp sib|sib p cp kp vp]; cbn [fill Repr fsib fcolor] in HR, Hsib, HP;
    destruct HR as (Hp & HR1 & HR2); nodup_norm ND.
  - destruct HR1 as (Ha & _ & _). repeat fstep.
    match goal with |- ∃ o, (match _ with Some _ => _ | None => _ end ?m1) = _ =>
      assert (WF m1 (plug C (fill (FrL p cp kp vp sib) Leaf))) as HWF1;
      [|set (mm := m1) in *; clearbody mm]
    end.
    { eapply (WF_local _ _ _ (fill (FrL p cp kp vp sib) _) (fill (FrL p cp kp vp sib) _) HWF);
        [reflexivity|reflexivity|nodup_goal|sub_goal|frame_goal|repr_goal]. }
    cbn [fill] in HWF1.
    destruct sib as [|sl w cw kw vw sr]; cbn [rootp].
    + by eexists.
    + apply (DelBlack_readjust_safe _ mm (FrR Leaf p cp kp vp :: C) sl w cw kw vw sr); [exact HWF1| |].
      * cbn [length]. lia.
      * exists 0%nat. split; [done|]. cbn [fcolor]. by intros ->.
  - destruct HR2 as (Ha & _ & _). repeat fstep.
    match goal with |- ∃ o, (match _ with Some _ => _ | None => _ end ?m1) = _ =>
      assert (WF m1 (plug C (fill (FrR sib p cp kp vp) Leaf))) as HWF1;
      [|set (mm := m1) in *; clearbody mm]
    end.
    { eapply (WF_local _ _ _ (fill (FrR sib p cp kp vp) _) (fill (FrR sib p cp kp vp) _) HWF);
        [reflexivity|reflexivity|nodup_goal|sub_goal|frame_goal|repr_goal]. }
    cbn [fill] in HWF1.
    destruct sib as [|sl w cw kw vw sr]; cbn [rootp].
    + by eexists.
    + apply (DelBlack_readjust_safe _ mm (FrL p cp kp vp Leaf :: C) sl w cw kw vw sr); [exact HWF1| |].
      * cbn [length]. lia.
      * exists 0%nat. split; [done|]. cbn [fcolor]. by intros ->.
Qed.

(** A node without children, in a red-black tree. *)
Lemma DelNoneChild_safe m C a c k v :
  WF m (plug C (Node Leaf a c k v Leaf)) →
  red_black (plug C (Node Leaf a c k v Leaf)) →
  ∃ o, rbTreePrivate_DelNoneChildNodeAndAdjust (Some a) m = Done o.
Proof.
  intros HWF Hrb. pose proof (WF_focus _ _ _ _ _ _ _ _ HWF) as Ha.
  unfold rbTreePrivate_DelNoneChildNodeAndAdjust. munfold.
  destruct C as [|F C]; cbn [cpar faddr rootp] in Ha |- *.
  - repeat fstep. by eexists.
  - repeat fstep. destruct (decide (c = RB_BLACK)) as [->|].
    + by apply (DelBlack_safe m F C a k v).
    + destruct (DelRed_spec _ _ _ _ _ _ _ HWF) as (m' & E & _). rewrite E. by eexists.
Qed.

(** [DelNode_body] on a red-black tree, with a swap buffer as wide as the
    keys. *)
Lemma DelNode_body_safe m t key :
  WF m t → red_black t → (index_typde_size m ≤ rbTree_buffer m)%N →
  ∃ o, DelNode_body key m = Done o.
Proof.
  intros HWF Hrb Hroom. destruct key as [key|]; [|by eexists].
  destruct (locate (rbTree_MatchRuleHandle m) key [] t) as [[C s]|] eqn:Hloc.
  2:{ rewrite (DelNode_body_absent m t key HWF Hloc). by eexists. }
  pose proof Hloc as Hloc'.
  apply locate_some in Hloc' as (Ht & l & a & c & k & v & r & -> & _).
  unfold DelNode_body.
  rewrite (bind_Done _ _ _ _ _ (Search_spec m t key HWF)). rewrite Hloc.
  cbn [found_ptr rootp]. simpl in Ht. subst t.
  do 2 wstep.
  destruct l as [|ll b cb kb vb lr]; destruct r as [|rl d cd kd vd rr]; cbn [rootp].
  - rewrite bind_ret. do 2 wstep. by eapply DelNoneChild_safe.
  - rewrite bind_ret. do 2 wstep.
    destruct (splice_right_spec _ _ _ _ _ _ _ _ _ _ _ _ HWF) as (m' & E & _).
    rewrite E. by eexists.
  - rewrite bind_ret. do 1 wstep.
    destruct (splice_left_spec _ _ _ _ _ _ _ _ _ _ _ _ HWF) as (m' & E & _).
    rewrite E. by eexists.
  - set (R := Node rl d cd kd vd rr) in *.
    destruct (spine_plug R) as (H1 & H2 & am & cm & km & vm & rm & H3); [done|].
    rewrite !bind_assoc, bind_walk_bound, !bind_assoc.
    assert (leftmost (S (size (nodes m))) (Some d) m = Done (Some am, m)) as E.
    { pose proof (leftmost_spec R (S (size (nodes m))) m (FrR (Node ll b cb kb vb lr) a c k v :: C))
        as E. rewrite H3 in E. apply E; [done|exact HWF|].
      pose proof (WF_size _ _ HWF) as Hs. pose proof (height_le_size R) as Hh.
      pose proof (length_plug C (Node (Node ll b cb kb vb lr) a c k v R)) as Hl.
      change (addrs (Node (Node ll b cb kb vb lr) a c k v R))
        with (addrs (Node ll b cb kb vb lr) ++ a :: addrs R) in Hl.
      rewrite length_app in Hl. cbn [length] in Hl. lia. }
    rewrite (bind_Done _ _ _ _ _ E). clear E. cbn beta.
    destruct (spine R) as [Cm s]. simpl in H1, H2, H3. subst s.
    assert (HWFm : WF m (plug (Cm ++ FrR (Node ll b cb kb vb lr) a c k v :: C)
                           (Node Leaf am cm km vm rm))).
    { rewrite plug_app. simpl. by rewrite H1. }
    assert (red_black (plug (Cm ++ FrR (Node ll b cb kb vb lr) a c km vm :: C)
                         (Node Leaf am cm k v rm))) as Hrb1.
    { apply red_black_payload with (k := km) (v := vm).
      rewrite plug_app. simpl. rewrite H1.
      by apply red_black_payload with (k := k) (v := v). }
    rewrite bind_assoc.
    destruct (Exchange_spec _ _ _ _ _ _ _ _ _ _ _ _ _ HWFm Hroom) as (m1 & E & HWF1 & Henv1).
    rewrite (bind_Done _ _ _ _ _ E). clear E HWF HWFm. cbn beta.
    rewrite bind_ret.
    rewrite (bind_get _ _ _ _ _ (WF_focus _ _ _ _ _ _ _ _ HWF1)). cbn [left rootp].
    rewrite (bind_get _ _ _ _ _ (WF_focus _ _ _ _ _ _ _ _ HWF1)). cbn [right].
    destruct rm as [|ml e ce ke ve mr]; cbn [rootp].
    + by eapply DelNoneChild_safe.
    + destruct (splice_right_spec _ _ _ _ _ _ _ _ _ _ _ _ HWF1) as (m' & E & _).
      rewrite E. by eexists.
Qed.

(** X15: on a tree that meets the colour conditions, with a swap buffer as
    wide as the keys, [rbTree_DelNode] returns for every key: it
    dereferences no null pointer and its loops end.  (The tree it leaves
    need not meet the colour conditions again.) *)
Theorem DelNode_returns_on_red_black_trees m t key :
  WF m t → red_black t → (index_typde_size m ≤ rbTree_buffer m)%N →
  ∃ m', rbTree_DelNode (Some m) key = Done (Some m').
Proof.
  intros HWF Hrb Hroom. unfold rbTree_DelNode.
  destruct (DelNode_body_safe m t key HWF Hrb Hroom) as ([[] m'] & ->). by eexists.
Qed.

End DeleteReturns.

(** ** The further properties, at concrete runs *)

(** One more insertion on a manager of the scenario grown by insertions. *)
Ltac grow_insert H k a :=
  lazymatch type of H with
  | grown ?cmp ?m =>
      let o := eval vm_compute in
        (rbTree_AddNode (Some m) (Some k) (Some (Z.to_pos (100 * k))) (Some a)) in
      lazymatch o with
      | Done (?e, Some ?m') =>
          let H' := fresh in
          assert (H' : grown cmp m')
            by (apply (grown_add cmp m (Some k) (Some (Z.to_pos (100 * k))) (Some a) e m' H);
                [ intros ? [= <-]; vm_compute; reflexivity | vm_compute; reflexivity ]);
          clear H; rename H' into H
      end
  end.

(** The manager holding 10, 20 and 30 is grown by three insertions. *)
Ltac three_keys_grown :=
  let H0 := fresh in
  assert (grown compare_int (mkManager None 4 compare_int true 4 0 ∅ [])) as H0
    by (apply (grown_create compare_int 4%N 4%N true); vm_compute; reflexivity);
  grow_insert H0 10 1%positive; grow_insert H0 20 2%positive;
  grow_insert H0 30 3%positive; exact H0.

Ltac three_keys_reachable :=
  let H0 := fresh in
  assert (reachable compare_int (mkManager None 4 compare_int true 4 0 ∅ [])) as H0
    by (apply (reach_create compare_int 4%N 4%N true); vm_compute; reflexivity);
  reach_insert H0 10 1%positive; reach_insert H0 20 2%positive;
  reach_insert H0 30 3%positive; exact H0.

Ltac in_three_keys :=
  simpl; apply list_elem_of_In; simpl; tauto.

Ltac not_in_three_keys :=
  let e := fresh "e" in let He := fresh "He" in
  intros e He; apply list_elem_of_In in He; simpl in He;
  destruct He as [<-|[<-|[<-|[]]]]; vm_compute; discriminate.

Section FurtherRuns.

(** X1, at the tree holding 10, 20 and 30: the insertion of 40 allocates
    the block at address 4 and no other. *)
Lemma AddNode_allocates_only_on_success_witness :
  rbTree_AddNode (Some three_keys) (Some 40) (Some 4000%positive) (Some 4%positive)
    = Done (NO_ERROR, Some four_keys)
  ∧ ((NO_ERROR = NO_ERROR
      ∧ ∃ a, Some 4%positive = Some a ∧ blocks four_keys = {[a]} ∪ blocks three_keys)
     ∨ (NO_ERROR ≠ NO_ERROR ∧ blocks four_keys = blocks three_keys)).
Proof.
  split; [vm_compute; reflexivity|].
  apply (AddNode_allocates_only_on_success three_keys (Some 40) (Some 4000%positive)
           (Some 4%positive) NO_ERROR four_keys).
  vm_compute. reflexivity.
Defined.

(** X2, at the tree holding 10, 20 and 30: the deletion of 20 frees one
    block. *)
Lemma DelNode_frees_one_block_when_found_witness :
  rbTree_DelNode (Some three_keys) (Some 20) = Done (Some two_keys)
  ∧ ∃ p m1, rbTreePrivate_Search 20 three_keys = Done (p, m1) ∧
      match p with
      | None => blocks two_keys = blocks three_keys
      | Some _ => ∃ x, x ∈ blocks three_keys ∧ blocks two_keys = blocks three_keys ∖ {[x]}
      end.
Proof.
  split; [vm_compute; reflexivity|].
  apply (DelNode_frees_one_block_when_found three_keys (Some 20) two_keys).
  vm_compute. reflexivity.
Defined.

(** X3, at the tree holding 10, 20 and 30. *)
Lemma reachable_blocks_are_the_tree_witness :
  reachable compare_int three_keys
  ∧ ∃ t, WF three_keys t ∧ blocks three_keys = list_to_set (addrs t)
         ∧ size (nodes three_keys) = count t.
Proof.
  assert (reachable compare_int three_keys) as Hreach by three_keys_reachable.
  split; [exact Hreach|].
  apply (reachable_blocks_are_the_tree compare_int three_keys Hreach).
Defined.

(** X4, at the tree holding 10, 20 and 30: the insertion of 40 leaves the
    lookup of 20 as it was. *)
Lemma AddNode_keeps_other_lookups_witness :
  ∃ v, rbTree_Search (Some three_keys) (Some 20) = Done (v, Some three_keys)
       ∧ rbTree_Search (Some four_keys) (Some 20) = Done (v, Some four_keys).
Proof.
  apply (AddNode_keeps_other_lookups three_keys three_keys_tree 40 (Some 4000%positive)
           (Some 4%positive) four_keys 20); [scenario|scenario|scenario|scenario| | |].
  - intros a [= <-]. vm_compute. reflexivity.
  - vm_compute. reflexivity.
  - vm_compute. discriminate.
Defined.

(** X5, at the tree holding 10, 20 and 30: a second insertion of 20. *)
Lemma AddNode_duplicate_keeps_the_old_resource_witness :
  ∃ m', rbTree_AddNode (Some three_keys) (Some 20) (Some 7%positive) (Some 4%positive)
          = Done (- RBTREE_ERRNO_DUP_VAL, Some m')
        ∧ rbTree_Search (Some m') (Some 20) = Done (Some 2000%positive, Some m').
Proof.
  apply (AddNode_duplicate_keeps_the_old_resource three_keys three_keys_tree 20
           (Some 7%positive) (Some 4%positive) (20, Some 2000%positive));
    [scenario|scenario|scenario|scenario| |].
  - in_three_keys.
  - vm_compute. reflexivity.
Defined.

(** X6, at the tree holding 10, 20 and 30: the insertion of 40 when [malloc]
    fails. *)
Lemma AddNode_out_of_memory_changes_nothing_witness :
  rbTree_AddNode (Some three_keys) (Some 40) (Some 4000%positive) None
    = Done (- RBTREE_ERRNO_OUT_OF_MEM,
            Some (with_errorCode three_keys (- RBTREE_ERRNO_OUT_OF_MEM)))
  ∧ WF (with_errorCode three_keys (- RBTREE_ERRNO_OUT_OF_MEM)) three_keys_tree.
Proof.
  destruct (AddNode_out_of_memory_changes_nothing three_keys three_keys_tree 40
              (Some 4000%positive)) as (H1 & H2 & _); [scenario|not_in_three_keys|].
  split; [exact H1|exact H2].
Defined.

(** X7, at the tree holding 10, 20 and 30. *)
Lemma reachable_insert_and_search_return_witness :
  reachable compare_int three_keys
  ∧ ∃ v m', rbTree_Search (Some three_keys) (Some 25) = Done (v, Some m').
Proof.
  assert (reachable compare_int three_keys) as Hreach by three_keys_reachable.
  split; [exact Hreach|].
  destruct (reachable_insert_and_search_return compare_int three_keys Hreach) as (_ & H).
  apply H.
Defined.

(** X8, at the tree holding 10, 20 and 30: the deletion of 20, a node with
    two children, hands the resource of 20 to the callback. *)
Lemma cleanup_is_called_once_per_deleted_key_witness :
  rbTree_DelNode (Some three_keys) (Some 20) = Done (Some two_keys)
  ∧ released two_keys = released three_keys ++ [Some 2000%positive].
Proof.
  split; [vm_compute; reflexivity|].
  destruct (cleanup_is_called_once_per_deleted_key three_keys three_keys_tree)
    as (H & _); [scenario|scenario|scenario|scenario|].
  apply (H 20 (20, Some 2000%positive) two_keys).
  - in_three_keys.
  - vm_compute. reflexivity.
  - vm_compute. reflexivity.
Defined.


(** X10, at the tree holding 10, 20 and 30. *)
Lemma grown_trees_are_red_black_witness :
  grown compare_int three_keys
  ∧ ∃ t, WF three_keys t ∧ tcolor t = RB_BLACK ∧ red_black t
         ∧ Ordered compare_int (inorder t)
         ∧ size (nodes three_keys) = count t
         ∧ (height t ≤ 2 * Nat.log2 (S (count t)))%nat.
Proof.
  assert (grown compare_int three_keys) as Hg by three_keys_grown.
  split; [exact Hg|].
  apply (grown_trees_are_red_black compare_int three_keys); [scenario|scenario|exact Hg].
Defined.

(** X11, at the tree holding 10, 20 and 30 and the key 25. *)
Lemma grown_descents_are_logarithmic_witness :
  grown compare_int three_keys
  ∧ (∃ p, Search_loop (S (2 * Nat.log2 (S (size (nodes three_keys))))) 25
            (root three_keys) three_keys = Done (p, three_keys)
          ∧ rbTreePrivate_Search 25 three_keys = Done (p, three_keys))
  ∧ AddNode_descend (S (2 * Nat.log2 (S (size (nodes three_keys))))) 25 RB_TREE_NULL_PTR
      (root three_keys) three_keys ≠ Timeout.
Proof.
  assert (grown compare_int three_keys) as Hg by three_keys_grown.
  split; [exact Hg|].
  apply (grown_descents_are_logarithmic compare_int three_keys 25);
    [scenario|scenario|exact Hg].
Defined.

(** X12, at the tree holding 10, 20 and 30: the resources are read from the
    greatest key down. *)
Lemma print_walks_in_order_witness :
  ∃ out, print three_keys = Done (out, three_keys)
         ∧ Some <$> out = [Some 3000; Some 2000; Some 1000]%positive.
Proof.
  destruct (print_walks_in_order three_keys three_keys_tree) as (H & _); [scenario|].
  apply H. intros e He. apply list_elem_of_In in He. simpl in He.
  destruct He as [<-|[<-|[<-|[]]]]; discriminate.
Defined.

(** X13, at the root of the tree holding 10, 20 and 30. *)
Lemma rotations_undo_each_other_witness :
  ∃ m1, rbTreePrivate_LeftRotate (Some 2%positive) three_keys = Done (tt, m1)
        ∧ rbTreePrivate_RightRotate (Some 1%positive) m1 = Done (tt, three_keys).
Proof.
  destruct (rotations_undo_each_other three_keys []
              (Node Leaf 3 RB_RED 30 (Some 3000%positive) Leaf) 2 RB_BLACK 20
              (Some 2000%positive) Leaf 1 RB_RED 10 (Some 1000%positive) Leaf)
    as ((m1 & H1 & _ & _ & H2) & _).
  - change (WF three_keys three_keys_tree). scenario.
  - vm_compute. reflexivity.
  - exists m1. split; [exact H1|exact H2].
Defined.

(** X14, at the insertion of 10, 20, 30 and the deletion of 20. *)
Lemma round_trip_when_it_returns_witness :
  run compare_int [10; 20; 30] [20] = Done (Some two_keys)
  ∧ released two_keys = resource_of <$> [20]
  ∧ ∃ t, WF two_keys t ∧ (∀ k, k ∈ keys t ↔ k ∈ [10; 20; 30] ∧ k ∉ [20])
         ∧ ((∀ k, k ∈ [10; 20; 30] → k ∈ [20]) →
            t = Leaf ∧ root two_keys = RB_TREE_NULL_PTR ∧ nodes two_keys = ∅).
Proof.
  split; [vm_compute; reflexivity|].
  apply (round_trip_when_it_returns compare_int); [scenario|scenario| | | |].
  - intros a b. change (a - b = 0 → a = b). lia.
  - apply (bool_decide_unpack _). vm_compute. exact I.
  - intros k Hk. apply list_elem_of_In in Hk. apply list_elem_of_In. simpl in *. tauto.
  - vm_compute. reflexivity.
Defined.

(** X15, at the tree holding 10, 20 and 30 and the key 20. *)
Lemma DelNode_returns_on_red_black_trees_witness :
  red_black three_keys_tree
  ∧ ∃ m', rbTree_DelNode (Some three_keys) (Some 20) = Done (Some m').
Proof.
  assert (red_black three_keys_tree) as Hrb by (vm_compute; split_and!; reflexivity).
  split; [exact Hrb|].
  apply (DelNode_returns_on_red_black_trees three_keys three_keys_tree (Some 20));
    [scenario|exact Hrb|vm_compute; discriminate].
Defined.

End FurtherRuns.

(** ** A fresh manager *)

Section Fresh.
Context {K : Type}.
Implicit Types (t l r s u : tree K) (m : rbTreeManager_t K) (C : list (@frame K)).

(** X16: [rbTree_Create] returns [NO_ERROR] only when the out-parameter
    and the comparator are non-null, the key size is not zero and both
    [malloc] calls succeed.  The manager it then stores holds the empty
    tree with no node block and no diagnostic code: every search returns
    null and changes nothing, a deletion only sets the code for a missing
    node, and the first insertion allocates its one block and makes the
    key the black root. *)
Theorem created_manager_is_empty sizeof_unsigned handle type_size
    (match_rule : option (K → K → Z)) free_rule manager_block buffer_block m :
  rbTree_Create sizeof_unsigned handle type_size match_rule free_rule
    manager_block buffer_block = (NO_ERROR, Some m) →
  (handle = true ∧ type_size ≠ 0%N ∧ match_rule = Some (rbTree_MatchRuleHandle m)
   ∧ manager_block = true ∧ buffer_block = true)
  ∧ WF m Leaf ∧ blocks m = ∅ ∧ rbTree_IsErrorOccurred m = NO_ERROR
  ∧ (∀ key, rbTree_Search (Some m) (Some key) = Done (RB_TREE_NULL_PTR, Some m))
  ∧ (∀ key, rbTree_DelNode (Some m) (Some key)
            = Done (Some (with_errorCode m (- RBTREE_ERRNO_NODE_INEXIT))))
  ∧ (∀ key res a, ∃ m' a',
       rbTree_AddNode (Some m) (Some key) res (Some a) = Done (NO_ERROR, Some m')
       ∧ WF m' (Node Leaf a' RB_BLACK key res Leaf) ∧ blocks m' = {[a]}).
Proof.
  unfold rbTree_Create. intros H.
  destruct match_rule as [cmp|]; [|discriminate H].
  destruct handle, manager_block, buffer_block; simpl in H;
    try case_bool_decide; try discriminate H.
  injection H as <-.
  assert (WF (mkManager RB_TREE_NULL_PTR type_size cmp free_rule sizeof_unsigned NO_ERROR ∅ [])
             (@Leaf K)) as HWF by (by split_and!; [| |constructor]).
  split; [by split_and!|]. do 3 (split; [done|]). split_and!.
  - intros key. apply (Search_absent _ Leaf); [done|]. by intros e ?%elem_of_nil.
  - intros key. unfold rbTree_DelNode. by rewrite (DelNode_body_absent _ Leaf key HWF).
  - intros key res a.
    pose proof (AddNode_cases _ Leaf key res (Some a) HWF) as Hc.
    specialize (Hc (λ b _, lookup_empty b)).
    destruct (rbTree_AddNode _ _ _ _) as [[e [m'|]]| |] eqn:E; cbv beta iota in Hc;
      [|done|by destruct Hc|done].
    destruct Hc as [(-> & C' & t' & Hp & HWF' & Hio & _ & Hc & _)|[(_ & _ & Hp)|(_ & _ & Hn)]];
      [|discriminate Hp|discriminate Hn].
    simpl in Hp. injection Hp as <-. simpl in Hio.
    destruct t' as [|l a' c k v r]; [discriminate Hio|].
    pose proof (f_equal length Hio) as Hl. simpl in Hl. rewrite length_app in Hl.
    destruct l; [|simpl in Hl; rewrite length_app in Hl; simpl in Hl; lia].
    destruct r; [|simpl in Hl; rewrite length_app in Hl; simpl in Hl; lia].
    simpl in Hio, Hc. injection Hio as -> ->. subst c.
    exists m', a'. split_and!; [done|done|].
    destruct (AddNode_blocks _ _ _ _ _ _ E) as [(_ & b & [= <-] & ->)|(? & _)]; [|done].
    unfold blocks. simpl. rewrite dom_empty_L. set_solver.
Qed.

End Fresh.

Section FreshRun.

(** X16, at the manager the scenario creates and the key 5. *)
Lemma created_manager_is_empty_witness :
  created compare_int = Some (mkManager None 4 compare_int true 4 0 ∅ [])
  ∧ rbTree_Search (created compare_int) (Some 5) = Done (RB_TREE_NULL_PTR, created compare_int).
Proof.
  split; [vm_compute; reflexivity|].
  destruct (created_manager_is_empty 4%N true 4%N (Some compare_int) true true true
              (mkManager None 4 compare_int true 4 0 ∅ [])) as (_ & _ & _ & _ & H & _).
  - vm_compute. reflexivity.
  - apply (H 5).
Defined.

End FreshRun.
